(** * libforth: a shallow embedding of [libforth.c]

    The FORTH virtual machine of [libforth.c] is embedded as executable Rocq
    functions over an explicit machine state.

    Conventions of the embedding.
    - A cell ([forth_cell_t]) is a 16-bit unsigned integer, held as a [Z] in
      [0, 65536); arithmetic on cells wraps with [cell].
    - The image [o->m] is a finite map from cell indices to cells; a cell
      that was never written reads as 0 (the image is [calloc]ed).  The byte
      view of the image is little-endian.
    - [int] is 32 bits, [long] and [size_t] are 64 bits.
    - Effects are threaded through the monad [M]: a computation takes the
      world (the [forth] object and the host environment) and either returns,
      performs [longjmp(o->error, 1)], dereferences a pointer outside the
      image (undefined behaviour in C), fails an [assert], or runs out of
      fuel. *)

From Stdlib Require Import ZArith Lia Ascii String List.
From stdpp Require Import base tactics option list gmap strings.

Local Open Scope Z_scope.

(** ** Cells and constants *)

(** Modelled from the spec: [libforth.h] is not part of the sources; it
    declares [forth_cell_t].  The source prints cells with [%hu] and [%hx],
    sizes the default core as [(UINT16_MAX + 1) / 2] and documents the header
    cell as bits 0 to 15, so the cell is the 16-bit unsigned integer. *)
Definition cell_modulus : Z := 65536.

(** Conversion of an integer value to [forth_cell_t]. *)
Definition cell (x : Z) : Z := x mod 65536.

(** [sizeof(forth_cell_t)] *)
Definition cell_bytes : Z := 2.

(** Conversion to [size_t]. *)
Definition size_t (x : Z) : Z := x mod 2 ^ 64.

Definition CORE_SIZE : Z := (65535 + 1) / 2.
Definition BLOCK_SIZE : Z := 1024.
Definition STRING_OFFSET : Z := 32.
Definition MAX_WORD_LENGTH : Z := 32.
Definition DICTIONARY_START : Z := STRING_OFFSET + MAX_WORD_LENGTH.
Definition WORD_LENGTH_OFFSET : Z := 8.
Definition WORD_LENGTH (field1 : Z) : Z :=
  Z.land (Z.shiftr field1 WORD_LENGTH_OFFSET) 255.
Definition WORD_HIDDEN (field1 : Z) : Z := Z.land field1 128.
Definition INSTRUCTION_MASK : Z := 127.
Definition b (k : Z) : Z := Z.land k INSTRUCTION_MASK.

Definition EOF : Z := -1.

(** [enum registers] *)
Definition DIC : Z := 0.
Definition RSTK : Z := 1.
Definition STATE : Z := 8.
Definition HEX : Z := 9.
Definition PWD : Z := 10.
Definition INFO : Z := 11.

(** [enum instructions] *)
Inductive instructions : Set :=
| PUSH | COMPILE | RUN | DEFINE | IMMEDIATE | COMMENT | READ | LOAD | STORE
| SUB | ADD | AND | OR | XOR | INV | SHL | SHR | MUL | LESS | EXIT | EMIT
| KEY | FROMR | TOR | JMP | JMPZ | PNUM | QUOTE | COMMA | EQUAL | SWAP | DUP
| DROP | OVER | TAIL | BSAVE | BLOAD | FIND | PRINT | PSTK | LAST.

Definition instruction_list : list instructions :=
  [ PUSH; COMPILE; RUN; DEFINE; IMMEDIATE; COMMENT; READ; LOAD; STORE;
    SUB; ADD; AND; OR; XOR; INV; SHL; SHR; MUL; LESS; EXIT; EMIT;
    KEY; FROMR; TOR; JMP; JMPZ; PNUM; QUOTE; COMMA; EQUAL; SWAP; DUP;
    DROP; OVER; TAIL; BSAVE; BLOAD; FIND; PRINT; PSTK; LAST ].

(** The numeric value of an enumerator. *)
Definition code_of (i : instructions) : Z :=
  match i with
  | PUSH => 0 | COMPILE => 1 | RUN => 2 | DEFINE => 3 | IMMEDIATE => 4
  | COMMENT => 5 | READ => 6 | LOAD => 7 | STORE => 8 | SUB => 9 | ADD => 10
  | AND => 11 | OR => 12 | XOR => 13 | INV => 14 | SHL => 15 | SHR => 16
  | MUL => 17 | LESS => 18 | EXIT => 19 | EMIT => 20 | KEY => 21
  | FROMR => 22 | TOR => 23 | JMP => 24 | JMPZ => 25 | PNUM => 26
  | QUOTE => 27 | COMMA => 28 | EQUAL => 29 | SWAP => 30 | DUP => 31
  | DROP => 32 | OVER => 33 | TAIL => 34 | BSAVE => 35 | BLOAD => 36
  | FIND => 37 | PRINT => 38 | PSTK => 39 | LAST => 40
  end.

(** The enumerator a [switch] on the value selects, if any. *)
Definition instruction_of (k : Z) : option instructions :=
  if (0 <=? k) && (k <=? 40) then instruction_list !! Z.to_nat k else None.

(** ** The FORTH environment *)

(** Diagnostics written to [stderr]. *)
Inductive diagnostic : Type :=
| BoundsCheckFailed (f size : Z)
| NotAWord (word : list Z)
| IllegalOp
| FileOpenFailed (name : list Z).

(** [struct forth].  A [FILE *] is modelled by the bytes of its stream: the
    bytes still to be read for [in], the bytes written so far for [out].
    Pointers into the image are offsets: [o_s] is a byte offset, [o_S] a cell
    index.  The [jmp_buf] is modelled by the [Jump] outcome below. *)
Record forth : Type := Forth {
  o_in : list Z;
  o_out : list Z;
  o_s : Z;
  o_sin : list Z;
  o_core_size : Z;
  o_stack_size : Z;
  o_slen : Z;
  o_sidx : Z;
  o_stringin : bool;
  o_invalid : bool;
  o_I : Z;
  o_top : Z;
  o_S : Z;
  o_m : gmap Z Z
}.

(** The host environment: the block files by name, the names that cannot be
    opened for writing, and what was written to [stderr]. *)
Record host : Type := Host {
  h_blocks : gmap (list Z) (list Z);
  h_readonly : list (list Z);
  h_stderr : list diagnostic
}.

Record world : Type := World { obj : forth; env : host }.

Definition set_in (x : list Z) (o : forth) : forth :=
  Forth x (o_out o) (o_s o) (o_sin o) (o_core_size o) (o_stack_size o)
        (o_slen o) (o_sidx o) (o_stringin o) (o_invalid o) (o_I o) (o_top o)
        (o_S o) (o_m o).
Definition set_out (x : list Z) (o : forth) : forth :=
  Forth (o_in o) x (o_s o) (o_sin o) (o_core_size o) (o_stack_size o)
        (o_slen o) (o_sidx o) (o_stringin o) (o_invalid o) (o_I o) (o_top o)
        (o_S o) (o_m o).
Definition set_sin (x : list Z) (o : forth) : forth :=
  Forth (o_in o) (o_out o) (o_s o) x (o_core_size o) (o_stack_size o)
        (o_slen o) (o_sidx o) (o_stringin o) (o_invalid o) (o_I o) (o_top o)
        (o_S o) (o_m o).
Definition set_slen (x : Z) (o : forth) : forth :=
  Forth (o_in o) (o_out o) (o_s o) (o_sin o) (o_core_size o) (o_stack_size o)
        x (o_sidx o) (o_stringin o) (o_invalid o) (o_I o) (o_top o)
        (o_S o) (o_m o).
Definition set_sidx (x : Z) (o : forth) : forth :=
  Forth (o_in o) (o_out o) (o_s o) (o_sin o) (o_core_size o) (o_stack_size o)
        (o_slen o) x (o_stringin o) (o_invalid o) (o_I o) (o_top o)
        (o_S o) (o_m o).
Definition set_stringin (x : bool) (o : forth) : forth :=
  Forth (o_in o) (o_out o) (o_s o) (o_sin o) (o_core_size o) (o_stack_size o)
        (o_slen o) (o_sidx o) x (o_invalid o) (o_I o) (o_top o)
        (o_S o) (o_m o).
Definition set_invalid (x : bool) (o : forth) : forth :=
  Forth (o_in o) (o_out o) (o_s o) (o_sin o) (o_core_size o) (o_stack_size o)
        (o_slen o) (o_sidx o) (o_stringin o) x (o_I o) (o_top o)
        (o_S o) (o_m o).
Definition set_I (x : Z) (o : forth) : forth :=
  Forth (o_in o) (o_out o) (o_s o) (o_sin o) (o_core_size o) (o_stack_size o)
        (o_slen o) (o_sidx o) (o_stringin o) (o_invalid o) x (o_top o)
        (o_S o) (o_m o).
Definition set_top (x : Z) (o : forth) : forth :=
  Forth (o_in o) (o_out o) (o_s o) (o_sin o) (o_core_size o) (o_stack_size o)
        (o_slen o) (o_sidx o) (o_stringin o) (o_invalid o) (o_I o) x
        (o_S o) (o_m o).
Definition set_S (x : Z) (o : forth) : forth :=
  Forth (o_in o) (o_out o) (o_s o) (o_sin o) (o_core_size o) (o_stack_size o)
        (o_slen o) (o_sidx o) (o_stringin o) (o_invalid o) (o_I o) (o_top o)
        x (o_m o).
Definition set_m (x : gmap Z Z) (o : forth) : forth :=
  Forth (o_in o) (o_out o) (o_s o) (o_sin o) (o_core_size o) (o_stack_size o)
        (o_slen o) (o_sidx o) (o_stringin o) (o_invalid o) (o_I o) (o_top o)
        (o_S o) x.

Definition set_blocks (x : gmap (list Z) (list Z)) (h : host) : host :=
  Host x (h_readonly h) (h_stderr h).
Definition set_stderr (x : list diagnostic) (h : host) : host :=
  Host (h_blocks h) (h_readonly h) x.

(** ** The monad of the interpreter *)

(** Behaviour that C leaves undefined and [libforth.c] does not exclude. *)
Inductive fault : Type :=
| OutOfImage (i : Z)       (* the cell [m[i]] is outside the image *)
| OutOfString (i : Z)      (* [sin[i]] is past the NUL of the input string *)
| ShiftCount (n : Z).      (* a shift by the width of [int] or more *)

Inductive res (A : Type) : Type :=
| Ok (a : A) (w : world)   (* normal completion *)
| Jump (w : world)         (* longjmp(o->error, 1) *)
| Undefined (u : fault)    (* undefined behaviour *)
| Aborted                  (* a failed assert *)
| Timeout.                 (* the fuel of the model ran out *)
Arguments Ok {A} a w.
Arguments Jump {A} w.
Arguments Undefined {A} u.
Arguments Aborted {A}.
Arguments Timeout {A}.

Definition M (A : Type) : Type := world → res A.

Definition ret {A} (a : A) : M A := λ w, Ok a w.
Definition bind {A B} (c : M A) (k : A → M B) : M B :=
  λ w, match c w with
       | Ok a w' => k a w'
       | Jump w' => Jump w'
       | Undefined u => Undefined u
       | Aborted => Aborted
       | Timeout => Timeout
       end.

Declare Scope forth_scope.
Delimit Scope forth_scope with forth.
Notation "x <- c ;; k" := (bind c (λ x, k))
  (at level 100, c at next level, right associativity) : forth_scope.
Notation "c ;;; k" := (bind c (λ _, k))
  (at level 100, right associativity) : forth_scope.
Local Open Scope forth_scope.

Definition longjmp {A} : M A := λ w, Jump w.
Definition undefined {A} (u : fault) : M A := λ _, Undefined u.
Definition abort {A} : M A := λ _, Aborted.
Definition timeout {A} : M A := λ _, Timeout.
Definition assert (c : bool) : M unit := if c then ret tt else abort.

Definition get_obj : M forth := λ w, Ok (obj w) w.
Definition modify_obj (g : forth → forth) : M unit :=
  λ w, Ok tt (World (g (obj w)) (env w)).
Definition get_env : M host := λ w, Ok (env w) w.
Definition modify_env (g : host → host) : M unit :=
  λ w, Ok tt (World (obj w) (g (env w))).
Definition report (d : diagnostic) : M unit :=
  modify_env (λ h, set_stderr (h_stderr h ++ [d]) h).

(** ** The image *)

(** The cell at index [i] of an image. *)
Definition cell_at (m : gmap Z Z) (i : Z) : Z := default 0 (m !! i).

Definition in_image (o : forth) (i : Z) : bool :=
  (0 <=? i) && (i <? o_core_size o).

(** [m[i]] as an rvalue, without a bounds check. *)
Definition load (i : Z) : M Z :=
  o <- get_obj ;;
  if in_image o i then ret (cell_at (o_m o) i) else undefined (OutOfImage i).

(** [m[i] = x], without a bounds check. *)
Definition store (i x : Z) : M unit :=
  o <- get_obj ;;
  if in_image o i then modify_obj (set_m (<[i := x]> (o_m o)))
  else undefined (OutOfImage i).

(** The byte at byte offset [k] of a cell (little-endian). *)
Definition byte_of_cell (c k : Z) : Z :=
  if k =? 0 then c mod 256 else (c / 256) mod 256.
Definition cell_with_byte (c k x : Z) : Z :=
  if k =? 0 then (c / 256) mod 256 * 256 + x mod 256
  else x mod 256 * 256 + c mod 256.

(** [((uint8_t * )m)[k]] as an rvalue. *)
Definition load8 (k : Z) : M Z :=
  c <- load (k / cell_bytes) ;; ret (byte_of_cell c (k mod cell_bytes)).

(** [((uint8_t * )m)[k] = x]. *)
Definition store8 (k x : Z) : M unit :=
  c <- load (k / cell_bytes) ;;
  store (k / cell_bytes) (cell_with_byte c (k mod cell_bytes) x).

(** [check_bounds] *)
Definition check_bounds (f : Z) : M Z :=
  o <- get_obj ;;
  if f >=? o_core_size o then
    report (BoundsCheckFailed f (o_core_size o)) ;;; longjmp
  else ret f.

(** ** C strings and the C library *)

(** The bytes of a string literal, without the terminating NUL. *)
Definition bytes (s : string) : list Z :=
  map (λ a, Z.of_N (N_of_ascii a)) (list_ascii_of_string s).

(** [s[i]] for a NUL-terminated string whose bytes before the NUL are [s]. *)
Definition char_at (s : list Z) (i : nat) : Z := nth i s 0.

Definition mem (c : Z) (l : list Z) : bool := existsb (Z.eqb c) l.

Fixpoint strlen (s : list Z) : nat :=
  match s with
  | [] => O
  | c :: s' => if c =? 0 then O else S (strlen s')
  end.

(** The string a [char *] to the bytes [s] denotes: up to the first NUL. *)
Definition cstring (s : list Z) : list Z := take (strlen s) s.

Fixpoint strspn (s accept : list Z) : nat :=
  match s with
  | [] => O
  | c :: s' => if mem c accept then S (strspn s' accept) else O
  end.

(** [isspace] in the C locale. *)
Definition isspace (c : Z) : bool := (c =? 32) || ((9 <=? c) && (c <=? 13)).

Fixpoint skip_space (s : list Z) : list Z :=
  match s with
  | [] => []
  | c :: s' => if isspace c then skip_space s' else s
  end.

Fixpoint take_word (n : nat) (s : list Z) : list Z :=
  match n, s with
  | S n', c :: s' => if isspace c then [] else c :: take_word n' s'
  | _, _ => []
  end.

(** The directives [%31s%n] of [scanf] on the input [s]: [None] is an input
    failure before the conversion (the result [EOF]); otherwise the word
    stored, the input left, and the number of bytes consumed. *)
Definition scan_word (s : list Z) : option (list Z * list Z * Z) :=
  match skip_space s with
  | [] => None
  | r =>
      let wd := take_word (Z.to_nat (MAX_WORD_LENGTH - 1)) r in
      Some (wd, drop (length wd) r,
            Z.of_nat (length s - length r + length wd))
  end.

Definition digit_value (c : Z) : option Z :=
  if (48 <=? c) && (c <=? 57) then Some (c - 48)
  else if (97 <=? c) && (c <=? 122) then Some (c - 97 + 10)
  else if (65 <=? c) && (c <=? 90) then Some (c - 65 + 10)
  else None.

Definition is_digit_in (base : Z) (c : Z) : bool :=
  match digit_value c with Some d => d <? base | None => false end.

Fixpoint strtol_digits (base : Z) (s : list Z) (acc : Z) : Z :=
  match s with
  | [] => acc
  | c :: s' =>
      match digit_value c with
      | Some d => if d <? base then strtol_digits base s' (acc * base + d)
                  else acc
      | None => acc
      end
  end.

Definition LONG_MAX : Z := 2 ^ 63 - 1.
Definition LONG_MIN : Z := - 2 ^ 63.

(** [strtol(s, 0, 0)]: white space, an optional sign, the prefix [0x] or [0X]
    (when a hexadecimal digit follows) for base 16, a leading [0] for base 8,
    base 10 otherwise; the digits of the base; the value saturates at the
    bounds of [long]. *)
Definition strtol (s : list Z) : Z :=
  let s := skip_space s in
  let '(neg, s) :=
    match s with
    | 45 :: s' => (true, s')
    | 43 :: s' => (false, s')
    | _ => (false, s)
    end in
  let '(base, s) :=
    match s with
    | 48 :: x :: d :: s' =>
        if ((x =? 120) || (x =? 88)) && is_digit_in 16 d then (16, d :: s')
        else (8, s)
    | 48 :: _ => (8, s)
    | _ => (10, s)
    end in
  let v := strtol_digits base s 0 in
  Z.max LONG_MIN (Z.min LONG_MAX (if neg : bool then - v else v)).

(** The digits of [n] in [base], most significant first, at most [k] of them
    and without leading zeros. *)
Fixpoint digits_aux (k : nat) (base n : Z) (acc : list Z) : list Z :=
  match k with
  | O => acc
  | S k' =>
      let acc' := n mod base :: acc in
      if n / base =? 0 then acc' else digits_aux k' base (n / base) acc'
  end.
Definition digits (k : nat) (base n : Z) : list Z := digits_aux k base n [].

Definition lower_digit (d : Z) : Z := if d <? 10 then 48 + d else 87 + d.
Definition upper_digit (d : Z) : Z := if d <? 10 then 48 + d else 55 + d.

(** The conversions [%u], [%x] and [%X] of [printf] for a value below
    [2 ^ 32]. *)
Definition fmt_u (n : Z) : list Z := map lower_digit (digits 10 10 n).
Definition fmt_x (n : Z) : list Z := map lower_digit (digits 8 16 n).
Definition fmt_X (n : Z) : list Z := map upper_digit (digits 8 16 n).

(** [%04x] *)
Definition fmt_04x (n : Z) : list Z :=
  let d := fmt_x n in replicate (4 - length d) 48 ++ d.

(** ** Strings in the image *)

Fixpoint store_bytes (p : Z) (s : list Z) : M unit :=
  match s with
  | [] => ret tt
  | c :: s' => store8 p c ;;; store_bytes (p + 1) s'
  end.

(** Writes the string [s] and its terminating NUL at byte offset [p]. *)
Definition store_string (p : Z) (s : list Z) : M unit :=
  store_bytes p (s ++ [0]).

Fixpoint load_bytes (n : nat) (p : Z) : M (list Z) :=
  match n with
  | O => ret []
  | S n' => c <- load8 p ;; r <- load_bytes n' (p + 1) ;; ret (c :: r)
  end.

Fixpoint load_string_loop (n : nat) (p : Z) : M (list Z) :=
  match n with
  | O => undefined (OutOfImage (p / cell_bytes))
  | S n' =>
      c <- load8 p ;;
      if c =? 0 then ret []
      else r <- load_string_loop n' (p + 1) ;; ret (c :: r)
  end.

(** The number of bytes of the image from byte offset [p] on. *)
Definition bytes_from (o : forth) (p : Z) : nat :=
  Z.to_nat (cell_bytes * o_core_size o - p).

(** Reads the NUL-terminated string at byte offset [p] of the image. *)
Definition load_string (p : Z) : M (list Z) :=
  o <- get_obj ;; load_string_loop (bytes_from o p) p.

Fixpoint strcmp_loop (n : nat) (p q : Z) : M bool :=
  match n with
  | O => undefined (OutOfImage (p / cell_bytes))
  | S n' =>
      x <- load8 p ;;
      y <- load8 q ;;
      if negb (x =? y) then ret true
      else if x =? 0 then ret false
      else strcmp_loop n' (p + 1) (q + 1)
  end.

(** [strcmp(p, q) != 0] for two strings of the image. *)
Definition strcmp (p q : Z) : M bool :=
  o <- get_obj ;; strcmp_loop (bytes_from o p) p q.

(** ** Input and output *)

(** [fgetc(o->in)] *)
Definition fgetc : M Z :=
  o <- get_obj ;;
  match o_in o with
  | [] => ret EOF
  | c :: r => modify_obj (set_in r) ;;; ret c
  end.

(** [forth_get_char]: a char from string-in or a file.  The string holds its
    bytes and the terminating NUL; a read past the NUL is outside it. *)
Definition forth_get_char : M Z :=
  o <- get_obj ;;
  if o_stringin o then
    if o_sidx o >=? o_slen o then ret EOF
    else if (0 <=? o_sidx o) && (o_sidx o <=? Z.of_nat (length (o_sin o)))
    then modify_obj (set_sidx (o_sidx o + 1)) ;;;
         ret (char_at (o_sin o) (Z.to_nat (o_sidx o)))
    else undefined (OutOfString (o_sidx o))
  else fgetc.

(** [forth_get_word]: a word (space delimited, up to 31 chars) from a file or
    string-in, stored at byte offset [p] of the image. *)
Definition forth_get_word (p : Z) : M Z :=
  o <- get_obj ;;
  if o_stringin o then
    if (0 <=? o_sidx o) && (o_sidx o <=? Z.of_nat (length (o_sin o))) then
      match scan_word (cstring (drop (Z.to_nat (o_sidx o)) (o_sin o))) with
      | None => ret EOF
      | Some (wd, _, n) =>
          store_string p wd ;;;
          modify_obj (λ o, set_sidx (o_sidx o + n) o) ;;;
          ret n
      end
    else undefined (OutOfString (o_sidx o))
  else
    match scan_word (o_in o) with
    | None => modify_obj (set_in []) ;;; ret EOF
    | Some (wd, rest, _) =>
        store_string p wd ;;; modify_obj (set_in rest) ;;; ret 1
    end.

Definition fputc (c : Z) : M unit :=
  modify_obj (λ o, set_out (o_out o ++ [c mod 256]) o).
Definition fputs (s : list Z) : M unit :=
  modify_obj (λ o, set_out (o_out o ++ s) o).

(** ** The compiler *)

(** [m[m[0]++] = x] *)
Definition append_unchecked (x : Z) : M unit :=
  d <- load 0 ;; store 0 (cell (d + 1)) ;;; store d x.

(** [compile]: appends the header of a new word; [str] is [None] for a name
    read from the input. *)
Definition compile (code : Z) (str : option (list Z)) : M Z :=
  assert ((code <? code_of LAST) && (code <? INSTRUCTION_MASK)) ;;;
  header <- load DIC ;;
  o <- get_obj ;;
  r <- match str with
       | None =>
           n <- forth_get_word (o_s o) ;;
           if n <? 0 then ret None
           else s <- load_string (o_s o) ;; ret (Some s)
       | Some s => ret (Some (cstring s))
       end ;;
  match r with
  | None => ret (-1)
  | Some s =>
      store_string (cell_bytes * header) s ;;;
      let l := Z.of_nat (length s) + 1 in
      let l := Z.land (l + (cell_bytes - 1)) (Z.lnot (cell_bytes - 1)) in
      let l := l / cell_bytes in
      d <- load DIC ;; store DIC (cell (d + l)) ;;;
      pwd <- load PWD ;; append_unchecked pwd ;;;
      d <- load 0 ;; store PWD (cell (d - 1)) ;;;
      append_unchecked (cell (Z.lor (Z.shiftl l WORD_LENGTH_OFFSET) code)) ;;;
      ret 0
  end.

(** ** Block input and output *)

(** [sprintf(name, "%04x.blk", (int)id)] *)
Definition block_name (id : Z) : list Z := fmt_04x id ++ bytes ".blk".

(** The part of [blockio] after the test of the offset: the file is opened,
    [BLOCK_SIZE] bytes are transferred, and the file is closed. *)
Definition blockio_transfer (poffset id rw : Z) : M Z :=
  let name := block_name id in
  h <- get_env ;;
  if rw =? 114 then
    match h_blocks h !! name with
    | None => report (FileOpenFailed name) ;;; ret (-1)
    | Some data =>
        let chunk := take (Z.to_nat BLOCK_SIZE) data in
        store_bytes poffset chunk ;;;
        ret (if Z.of_nat (length chunk) =? BLOCK_SIZE then 0 else -1)
    end
  else if bool_decide (name ∈ h_readonly h) then report (FileOpenFailed name) ;;; ret (-1)
  else
    modify_env (λ h, set_blocks (<[name := []]> (h_blocks h)) h) ;;;
    if rw =? 119 then
      data <- load_bytes (Z.to_nat BLOCK_SIZE) poffset ;;
      modify_env (λ h, set_blocks (<[name := data]> (h_blocks h)) h) ;;;
      ret 0
    else ret (-1).

(** [blockio]: a basic FORTH block I/O interface; [rw] is the character
    ['r'] (114) or ['w'] (119). *)
Definition blockio (poffset id rw : Z) : M Z :=
  o <- get_obj ;;
  if poffset >? size_t (o_core_size o - BLOCK_SIZE) then ret (-1)
  else blockio_transfer poffset id rw.

(** ** Numbers, comments, lookup *)

(** [is_number]: is word a number? *)
Definition is_number (s : list Z) : bool :=
  let s := if char_at s 0 =? 45 then drop 1 s else s in
  if char_at s 0 =? 48 then
    if char_at s 1 =? 120 then
      (char_at s (strspn (drop 2 s) (bytes "0123456789abcdefABCDEF") + 2) =? 0)
      && negb (char_at s 2 =? 0)
    else
      char_at s (strspn s (bytes "01234567")) =? 0
  else
    (char_at s (strspn s (bytes "0123456789")) =? 0)
    && negb (char_at s 0 =? 0).

Fixpoint comment_loop (n : nat) : M Z :=
  match n with
  | O => timeout
  | S n' =>
      c <- forth_get_char ;;
      if (c >? 0) && negb (c =? 10) then comment_loop n' else ret c
  end.

(** [comment]: process a comment line.  The loop reads at most all the input
    that is left. *)
Definition comment : M Z :=
  o <- get_obj ;;
  comment_loop
    (S (if o_stringin o then Z.to_nat (o_slen o - o_sidx o)
        else length (o_in o))).

Fixpoint find_loop (n : nat) (w len : Z) : M Z :=
  match n with
  | O => timeout
  | S n' =>
      if w >? DICTIONARY_START then
        o <- get_obj ;;
        differ <- strcmp (o_s o) (cell_bytes * (w - len)) ;;
        skip <- (if differ : bool then ret true
                 else f1 <- load (w + 1) ;; ret (negb (WORD_HIDDEN f1 =? 0))) ;;
        if skip : bool then
          w' <- load w ;;
          f1 <- load (w' + 1) ;;
          find_loop n' w' (WORD_LENGTH f1)
        else ret w
      else ret 0
  end.

(** [find]: the link field of the word named by the string at [o->s], or 0.
    The walk along the links need not end; [n] bounds its length. *)
Definition find (n : nat) : M Z :=
  w <- load PWD ;;
  f1 <- load (w + 1) ;;
  find_loop n w (WORD_LENGTH f1).

Definition fmt_cell (hex : Z) (x : Z) : list Z :=
  (if hex =? 0 then fmt_u x else fmt_x x) ++ [9].

Fixpoint print_stack_loop (n : nat) (S : Z) : M unit :=
  match n with
  | O => ret tt
  | S n' =>
      hex <- load HEX ;;
      x <- load S ;;
      fputs (fmt_cell hex x) ;;;
      print_stack_loop n' (S - 1)
  end.

(** [print_stack]: print the forth stack *)
Definition print_stack (f S : Z) : M Z :=
  o <- get_obj ;;
  let begin := o_core_size o - 2 * o_stack_size o in
  hex <- load HEX ;;
  fputs (fmt_cell hex f) ;;;
  print_stack_loop (Z.to_nat (S - (begin + 1))) S ;;;
  ret 0.

(** ** The virtual machine *)

(** The local variables [pc], [S], [I] and [f] of [forth_run]; [S] is held as
    a cell index into the image. *)
Record locals : Type := Locals { l_pc : Z; l_S : Z; l_I : Z; l_f : Z }.

Definition with_pc (x : Z) (v : locals) := Locals x (l_S v) (l_I v) (l_f v).
Definition with_S (x : Z) (v : locals) := Locals (l_pc v) x (l_I v) (l_f v).
Definition with_I (x : Z) (v : locals) := Locals (l_pc v) (l_S v) x (l_f v).
Definition with_f (x : Z) (v : locals) := Locals (l_pc v) (l_S v) (l_I v) x.

(** Where control goes after the body of a [case]. *)
Inductive control : Type :=
| Break (v : locals)       (* break: back to the head of the loop *)
| GotoInner (v : locals)   (* goto INNER *)
| GotoEnd (v : locals).    (* goto end *)

(** [*++S = f] *)
Definition push (v : locals) : M locals :=
  store (l_S v + 1) (l_f v) ;;; ret (with_S (l_S v + 1) v).

(** [f = *S--] *)
Definition pop (v : locals) : M locals :=
  x <- load (l_S v) ;; ret (with_f x (with_S (l_S v - 1) v)).

(** [f = *S-- op f] *)
Definition binary (op : Z → Z → Z) (v : locals) : M control :=
  x <- load (l_S v) ;;
  ret (Break (with_f (cell (op x (l_f v))) (with_S (l_S v - 1) v))).

Definition of_bool (c : bool) : Z := if c then 1 else 0.

(** [m[ck(m[0]++)] = x] *)
Definition append (x : Z) : M unit :=
  d <- load 0 ;; store 0 (cell (d + 1)) ;;;
  i <- check_bounds d ;; store i x.

(** [m[ck(++m[RSTK])] = x] *)
Definition rpush (x : Z) : M unit :=
  r <- load RSTK ;; store RSTK (cell (r + 1)) ;;;
  i <- check_bounds (cell (r + 1)) ;; store i x.

(** [m[ck(m[RSTK]--)]] *)
Definition rpop : M Z :=
  r <- load RSTK ;; store RSTK (cell (r - 1)) ;;;
  i <- check_bounds r ;; load i.

(** The head of [case READ]: [m[ck(RSTK)]--], the next word of the input read
    into the string storage, and its lookup; [None] when the input is at its
    end. *)
Definition read_word (n : nat) : M (option Z) :=
  a <- check_bounds RSTK ;;
  r <- load a ;; store a (cell (r - 1)) ;;;
  o <- get_obj ;;
  k <- forth_get_word (o_s o) ;;
  if k <? 0 then ret None
  else w <- find n ;; ret (Some w).

(** The body of the [case] for instruction [i], entered with [pc] already
    advanced; [n] bounds the walk of [find]. *)
Definition execute (n : nat) (i : instructions) (v : locals) : M control :=
  match i with
  | PUSH | QUOTE =>
      v <- push v ;;
      a <- check_bounds (l_I v) ;;
      x <- load a ;;
      ret (Break (with_f x (with_I (cell (l_I v + 1)) v)))
  | COMPILE => append (l_pc v) ;;; ret (Break v)
  | RUN => rpush (l_I v) ;;; ret (Break (with_I (l_pc v) v))
  | DEFINE =>
      store STATE 1 ;;;
      r <- compile (code_of COMPILE) None ;;
      if r <? 0 then ret (GotoEnd v)
      else append (code_of RUN) ;;; ret (Break v)
  | IMMEDIATE =>
      d <- load 0 ;; store 0 (cell (d - 2)) ;;;
      d <- load DIC ;;
      x <- load d ;;
      store d (cell (Z.lor (Z.land x (Z.lnot INSTRUCTION_MASK)) (code_of RUN))) ;;;
      d <- load DIC ;; store DIC (cell (d + 1)) ;;;
      ret (Break v)
  | COMMENT =>
      c <- comment ;;
      if c <? 0 then ret (GotoEnd v) else ret (Break v)
  | READ =>
      r <- read_word n ;;
      match r with
      | None => ret (GotoEnd v)
      | Some w =>
          if w >? 1 then
            let pc := cell (w + 1) in
            state <- load STATE ;;
            if state =? 0 then
              a <- check_bounds pc ;;
              c <- load a ;;
              if b c =? code_of COMPILE
              then ret (GotoInner (with_pc (cell (pc + 1)) v))
              else ret (GotoInner (with_pc pc v))
            else ret (GotoInner (with_pc pc v))
          else
            o <- get_obj ;;
            s <- load_string (o_s o) ;;
            if negb (is_number s) then report (NotAWord s) ;;; ret (Break v)
            else
              state <- load STATE ;;
              if negb (state =? 0) then
                append_unchecked 2 ;;;
                append (cell (strtol s)) ;;;
                ret (Break v)
              else
                v <- push v ;;
                ret (Break (with_f (cell (strtol s)) v))
      end
  | LOAD =>
      a <- check_bounds (l_f v) ;;
      x <- load a ;;
      ret (Break (with_f x v))
  | STORE =>
      a <- check_bounds (l_f v) ;;
      x <- load (l_S v) ;;
      store a x ;;;
      v <- pop (with_S (l_S v - 1) v) ;;
      ret (Break v)
  | SUB => binary Z.sub v
  | ADD => binary Z.add v
  | AND => binary Z.land v
  | OR => binary Z.lor v
  | XOR => binary Z.lxor v
  | INV => ret (Break (with_f (cell (Z.lnot (l_f v))) v))
  | SHL =>
      if l_f v <? 32 then binary Z.shiftl v else undefined (ShiftCount (l_f v))
  | SHR =>
      if l_f v <? 32 then binary Z.shiftr v else undefined (ShiftCount (l_f v))
  | MUL => binary Z.mul v
  | LESS => binary (λ x y, of_bool (x <? y)) v
  | EXIT =>
      x <- rpop ;; ret (Break (with_I x v))
  | EMIT =>
      fputc (l_f v) ;;; v <- pop v ;; ret (Break v)
  | KEY =>
      v <- push v ;;
      c <- forth_get_char ;;
      ret (Break (with_f (cell c) v))
  | FROMR =>
      v <- push v ;;
      x <- rpop ;;
      ret (Break (with_f x v))
  | TOR =>
      rpush (l_f v) ;;; v <- pop v ;; ret (Break v)
  | JMP =>
      a <- check_bounds (l_I v) ;;
      x <- load a ;;
      ret (Break (with_I (cell (l_I v + x)) v))
  | JMPZ =>
      d <- (if l_f v =? 0 then load (l_I v) else ret 1) ;;
      v <- pop (with_I (cell (l_I v + d)) v) ;;
      ret (Break v)
  | PNUM =>
      hex <- load HEX ;;
      fputs (if hex =? 0 then fmt_u (l_f v) else fmt_X (l_f v)) ;;;
      v <- pop v ;;
      ret (Break v)
  | COMMA =>
      append (l_f v) ;;; v <- pop v ;; ret (Break v)
  | EQUAL => binary (λ x y, of_bool (x =? y)) v
  | SWAP =>
      x <- load (l_S v) ;;
      store (l_S v) (l_f v) ;;;
      ret (Break (with_f x v))
  | DUP => v <- push v ;; ret (Break v)
  | DROP => v <- pop v ;; ret (Break v)
  | OVER =>
      x <- load (l_S v) ;;
      v <- push v ;;
      ret (Break (with_f x v))
  | TAIL =>
      r <- load RSTK ;; store RSTK (cell (r - 1)) ;;; ret (Break v)
  | BSAVE =>
      x <- load (l_S v) ;;
      r <- blockio x (l_f v) 119 ;;
      ret (Break (with_f (cell r) (with_S (l_S v - 1) v)))
  | BLOAD =>
      x <- load (l_S v) ;;
      r <- blockio x (l_f v) 114 ;;
      ret (Break (with_f (cell r) (with_S (l_S v - 1) v)))
  | FIND =>
      v <- push v ;;
      o <- get_obj ;;
      k <- forth_get_word (o_s o) ;;
      if k <? 0 then ret (GotoEnd v)
      else
        w <- find n ;;
        let f := cell (w + 2) in
        ret (Break (with_f (if f <? DICTIONARY_START then 0 else f) v))
  | PRINT =>
      s <- load_string (l_f v) ;;
      fputs s ;;;
      v <- pop v ;;
      ret (Break v)
  | PSTK => print_stack (l_f v) (l_S v) ;;; ret (Break v)
  | LAST => report IllegalOp ;;; longjmp
  end.

(** From the label [INNER]: [switch (b(m[ck(pc++)]))]. *)
Definition inner (n : nat) (v : locals) : M control :=
  a <- check_bounds (l_pc v) ;;
  c <- load a ;;
  let v := with_pc (cell (l_pc v + 1)) v in
  match instruction_of (b c) with
  | Some i => execute n i v
  | None => report IllegalOp ;;; longjmp
  end.

(** The threaded code interpreter.  With [at_inner = false] it is at the head
    of the [for] loop, with [at_inner = true] at the label [INNER]; the result
    is the local state at the label [end]. *)
Fixpoint interpret (n : nat) (at_inner : bool) (v : locals) : M locals :=
  match n with
  | O => timeout
  | S n' =>
      if at_inner then
        r <- inner n' v ;;
        match r with
        | Break v' => interpret n' false v'
        | GotoInner v' => interpret n' true v'
        | GotoEnd v' => ret v'
        end
      else
        a <- check_bounds (l_I v) ;;
        pc <- load a ;;
        let v := with_pc pc (with_I (cell (l_I v + 1)) v) in
        if pc =? 0 then ret v
        else
          o <- get_obj ;;
          assert ((0 <? l_S v) && (l_S v <? o_core_size o)) ;;;
          interpret n' true v
  end.

(** [forth_run] *)
Definition forth_run (n : nat) : M Z :=
  o <- get_obj ;;
  if o_invalid o then modify_obj (set_invalid true) ;;; ret (-1)
  else
    λ w,
      match interpret n false (Locals 0 (o_S o) (o_I o) (o_top o)) w with
      | Ok v w' => Ok 0 (World (set_top (l_f v) (obj w')) (env w'))
      | Jump w' => Ok (-1) (World (set_invalid true (obj w')) (env w'))
      | Undefined u => Undefined u
      | Aborted => Aborted
      | Timeout => Timeout
      end.

(** ** The interface of the library *)

Definition forth_set_file_input (input : list Z) : M unit :=
  modify_obj (λ o, set_in input (set_stringin false o)).

Definition forth_set_file_output (output : list Z) : M unit :=
  modify_obj (λ o, set_out output (set_stringin false o)).

Definition forth_set_string_input (s : list Z) : M unit :=
  modify_obj (λ o,
    set_sin s (set_stringin true
      (set_slen (Z.of_nat (strlen s) + 1) (set_sidx 0 o)))).

Definition forth_eval (n : nat) (s : list Z) : M Z :=
  forth_set_string_input s ;;; forth_run n.

Definition forth_push (f : Z) : M unit :=
  o <- get_obj ;;
  assert (o_S o <? o_core_size o) ;;;
  modify_obj (set_S (o_S o + 1)) ;;;
  store (o_S o + 1) (o_top o) ;;;
  modify_obj (set_top f).

Definition forth_pop : M Z :=
  o <- get_obj ;;
  assert (0 <? o_S o) ;;;
  x <- load (o_S o) ;;
  modify_obj (λ o, set_S (o_S o - 1) (set_top x o)) ;;;
  ret (o_top o).

(** [forth_stack_position]: the pointer difference [o->S - o->m], returned as
    a [forth_cell_t]. *)
Definition forth_stack_position (o : forth) : Z := cell (o_S o).

(** ** Initialisation *)

Definition initial_forth_program : list Z := bytes
"\ FORTH startup program.       
: state 8 ! exit : ; immediate ' exit , 0 state exit : hex 9 ! ; : pwd 10 ; 
: h 0 ; : r 1 ; : here h @ ; : [ immediate 0 state ; : ] 1 state ;          
: :noname immediate here 2 , ] ; : if immediate ' jz , here 0 , ;           
: else immediate ' j , here 0 , swap dup here swap - swap ! ;               
: then immediate dup here swap - swap ! ; : 2dup over over ;                
: begin immediate here ; : until immediate ' jz , here - , ;                
: 0= 0 = ; : 1+ 1 + ; : 1- 1 - ; : ')' 41 ; : tab 9 emit ; : cr 10 emit ;   
: .( key drop begin key dup ')' = if drop exit then emit 0 until ;          
: line dup . tab dup 4 + swap begin dup @ . tab 1+ 2dup = until drop ;      
: literal 2 , , ; : size [ 11 @ literal ] ;                                 
: list swap begin line cr 2dup < until ; : allot here + h ! ;               
: words pwd @ begin dup dup 1 + @ 8 rshift 255 and - size * print tab @ dup 32 < until drop cr ;  
: tuck swap over ; : nip swap drop ; : rot >r swap r> swap ;                
: -rot rot rot ; : ? 0= if [ find \ , ] then ; : :: [ find : , ] ;".

Definition names : list (list Z) := map bytes
  [ "read"; "@"; "!"; "-"; "+"; "and"; "or"; "xor"; "invert"; "lshift"; "rshift"; "*"; "<"; "exit"; "emit"; "key"; "r>"; ">r"; "j"; "jz"; "."; "'"; ","; "="; "swap"; "dup"; "drop"; "over"; "tail"; "save"; "load"; "find"; "print"; ".s" ]%string.

(** The object [calloc] returns. *)
Definition blank : forth :=
  Forth [] [] 0 [] 0 0 0 0 false false 0 0 0 ∅.

(** The built-in words: [compile(o, COMPILE, names[i]), m[m[DIC]++] = w++]. *)
Fixpoint compile_names (l : list (list Z)) (w : Z) : M unit :=
  match l with
  | [] => ret tt
  | name :: l' =>
      compile (code_of COMPILE) (Some name) ;;;
      append_unchecked w ;;;
      compile_names l' (cell (w + 1))
  end.

Section Init.

(** [MINIMUM_CORE_SIZE] is defined in [libforth.h], which is not part of the
    sources. *)
Variable MINIMUM_CORE_SIZE : Z.

(** [forth_init]: the result [false] stands for [NULL], and with [true] the
    object of the world is the one returned. *)
Definition forth_init (n : nat) (size : Z) (input output : list Z)
    (h : host) : res bool :=
  if size <? MINIMUM_CORE_SIZE then Ok false (World blank h)
  else
    let o := Forth [] output (cell_bytes * STRING_OFFSET) [] size (size / 64)
                   0 0 false false 0 0 0 ∅ in
    (store DIC DICTIONARY_START ;;;
     store PWD 1 ;;;
     store INFO cell_bytes ;;;
     store (INFO + 1) (cell size) ;;;
     append_unchecked (code_of READ) ;;;
     append_unchecked (code_of RUN) ;;;
     i <- load DIC ;;
     modify_obj (set_I i) ;;;
     append_unchecked DICTIONARY_START ;;;
     append_unchecked (cell (i - 1)) ;;;
     compile (code_of DEFINE) (Some (bytes ":")) ;;;
     compile (code_of IMMEDIATE) (Some (bytes "immediate")) ;;;
     compile (code_of COMMENT) (Some (bytes "\")) ;;;
     compile_names names (code_of READ) ;;;
     store RSTK (cell (size - size / 64)) ;;;
     modify_obj (set_S (size - 2 * (size / 64))) ;;;
     r <- forth_eval n initial_forth_program ;;
     if r <? 0 then ret false
     else forth_set_file_input input ;;; ret true) (World o h).

End Init.

(** * Properties *)

(** ** Reasoning about the monad *)

Lemma bind_Ok {A B} (c : M A) (k : A → M B) w y w' :
  bind c k w = Ok y w' ↔ ∃ a w1, c w = Ok a w1 ∧ k a w1 = Ok y w'.
Proof.
  unfold bind. destruct (c w) as [a w1| | | |].
  1: split; [eauto | intros (a' & w1' & E & H); inversion E; subst; done].
  all: split; [discriminate | intros (? & ? & ? & ?); discriminate].
Qed.

Lemma bind_Jump {A B} (c : M A) (k : A → M B) w w' :
  bind c k w = Jump w' ↔
  c w = Jump w' ∨ ∃ a w1, c w = Ok a w1 ∧ k a w1 = Jump w'.
Proof.
  unfold bind. destruct (c w) as [a w1| w1 | | |].
  1: split; [eauto | intros [?|(a' & w1' & E & H)];
                     [discriminate | inversion E; subst; done]].
  1: split; [intros; left; congruence
            | intros [?|(? & ? & ? & ?)]; [congruence | discriminate]].
  all: split; [discriminate | intros [?|(? & ? & ? & ?)]; discriminate].
Qed.

(** ** What the interpreter leaves alone

    No code reachable from [forth_run] assigns the fields [S], [I],
    [core_size], [stack_size], [s] or [invalid] of the object. *)

Definition same_frame (o o' : forth) : Prop :=
  o_S o' = o_S o ∧ o_I o' = o_I o ∧ o_core_size o' = o_core_size o ∧
  o_stack_size o' = o_stack_size o ∧ o_s o' = o_s o ∧
  o_invalid o' = o_invalid o.

Lemma same_frame_refl o : same_frame o o.
Proof. by repeat split. Qed.

Lemma same_frame_trans o1 o2 o3 :
  same_frame o1 o2 → same_frame o2 o3 → same_frame o1 o3.
Proof. unfold same_frame. intuition congruence. Qed.

Definition preserves {A} (c : M A) : Prop :=
  ∀ w, match c w with
       | Ok _ w' | Jump w' => same_frame (obj w) (obj w')
       | _ => True
       end.

Create HintDb pres.

Lemma preserves_ret {A} (a : A) : preserves (ret a).
Proof. intros w. apply same_frame_refl. Qed.

Lemma preserves_bind {A B} (c : M A) (k : A → M B) :
  preserves c → (∀ a, preserves (k a)) → preserves (bind c k).
Proof.
  intros Hc Hk w. unfold bind. specialize (Hc w).
  destruct (c w) as [a w1| | | |]; auto.
  specialize (Hk a w1). destruct (k a w1); eauto using same_frame_trans.
Qed.

Lemma preserves_longjmp {A} : preserves (@longjmp A).
Proof. intros w. apply same_frame_refl. Qed.
Lemma preserves_undefined {A} u : preserves (@undefined A u).
Proof. by intros w. Qed.
Lemma preserves_abort {A} : preserves (@abort A).
Proof. by intros w. Qed.
Lemma preserves_timeout {A} : preserves (@timeout A).
Proof. by intros w. Qed.
Lemma preserves_get_obj : preserves get_obj.
Proof. intros w. apply same_frame_refl. Qed.
Lemma preserves_get_env : preserves get_env.
Proof. intros w. apply same_frame_refl. Qed.
Lemma preserves_modify_env g : preserves (modify_env g).
Proof. intros w. apply same_frame_refl. Qed.
Lemma preserves_modify_obj g :
  (∀ o, same_frame o (g o)) → preserves (modify_obj g).
Proof. intros H w. apply H. Qed.

#[export] Hint Resolve preserves_ret preserves_longjmp preserves_undefined
  preserves_abort preserves_timeout preserves_get_obj preserves_get_env
  preserves_modify_env : pres.
#[export] Hint Extern 1 (preserves (modify_obj _)) =>
  apply preserves_modify_obj; intro; repeat split : pres.

(** One step of a proof that a computation preserves the frame. *)
Ltac pres_step :=
  lazymatch goal with
  | |- preserves (bind _ _) => apply preserves_bind; [|intro]
  | |- preserves (if ?c then _ else _) => destruct c
  | |- preserves (match ?x with _ => _ end) => destruct x
  | |- preserves _ => solve [eauto with pres]
  end.
Ltac pres := repeat pres_step.

Lemma preserves_assert c : preserves (assert c).
Proof. unfold assert. pres. Qed.
Lemma preserves_report d : preserves (report d).
Proof. unfold report. pres. Qed.
#[export] Hint Resolve preserves_assert preserves_report : pres.

Lemma preserves_load i : preserves (load i).
Proof. unfold load. pres. Qed.
Lemma preserves_store i x : preserves (store i x).
Proof. unfold store. pres. Qed.
#[export] Hint Resolve preserves_load preserves_store : pres.

Lemma preserves_load8 k : preserves (load8 k).
Proof. unfold load8. pres. Qed.
Lemma preserves_store8 k x : preserves (store8 k x).
Proof. unfold store8. pres. Qed.
Lemma preserves_check_bounds f : preserves (check_bounds f).
Proof. unfold check_bounds. pres. Qed.
#[export] Hint Resolve preserves_load8 preserves_store8
  preserves_check_bounds : pres.

Lemma preserves_store_bytes s : ∀ p, preserves (store_bytes p s).
Proof. induction s; intros p; simpl; pres. Qed.
#[export] Hint Resolve preserves_store_bytes : pres.

Lemma preserves_store_string p s : preserves (store_string p s).
Proof. unfold store_string. pres. Qed.
Lemma preserves_load_bytes n : ∀ p, preserves (load_bytes n p).
Proof. induction n; intros p; simpl; pres. Qed.
Lemma preserves_load_string_loop n : ∀ p, preserves (load_string_loop n p).
Proof. induction n; intros p; simpl; pres. Qed.
Lemma preserves_strcmp_loop n : ∀ p q, preserves (strcmp_loop n p q).
Proof. induction n; intros p q; simpl; pres. Qed.
#[export] Hint Resolve preserves_store_string preserves_load_bytes
  preserves_load_string_loop preserves_strcmp_loop : pres.

Lemma preserves_load_string p : preserves (load_string p).
Proof. unfold load_string. pres. Qed.
Lemma preserves_strcmp p q : preserves (strcmp p q).
Proof. unfold strcmp. pres. Qed.
Lemma preserves_fgetc : preserves fgetc.
Proof. unfold fgetc. pres. Qed.
#[export] Hint Resolve preserves_load_string preserves_strcmp
  preserves_fgetc : pres.

Lemma preserves_forth_get_char : preserves forth_get_char.
Proof. unfold forth_get_char. pres. Qed.
Lemma preserves_forth_get_word p : preserves (forth_get_word p).
Proof. unfold forth_get_word. pres. Qed.
Lemma preserves_fputc c : preserves (fputc c).
Proof. unfold fputc. pres. Qed.
Lemma preserves_fputs s : preserves (fputs s).
Proof. unfold fputs. pres. Qed.
#[export] Hint Resolve preserves_forth_get_char preserves_forth_get_word
  preserves_fputc preserves_fputs : pres.

Lemma preserves_append_unchecked x : preserves (append_unchecked x).
Proof. unfold append_unchecked. pres. Qed.
#[export] Hint Resolve preserves_append_unchecked : pres.
Lemma preserves_compile code str : preserves (compile code str).
Proof. unfold compile. pres. Qed.
Lemma preserves_blockio_transfer p id rw :
  preserves (blockio_transfer p id rw).
Proof. unfold blockio_transfer. pres. Qed.
#[export] Hint Resolve preserves_compile preserves_blockio_transfer : pres.

Lemma preserves_blockio p id rw : preserves (blockio p id rw).
Proof. unfold blockio. pres. Qed.
Lemma preserves_comment_loop n : preserves (comment_loop n).
Proof. induction n; simpl; pres. Qed.
Lemma preserves_find_loop n : ∀ w len, preserves (find_loop n w len).
Proof. induction n; intros w len; simpl; pres. Qed.
Lemma preserves_print_stack_loop n : ∀ S, preserves (print_stack_loop n S).
Proof. induction n; intros S; simpl; pres. Qed.
#[export] Hint Resolve preserves_blockio preserves_comment_loop
  preserves_find_loop preserves_print_stack_loop : pres.

Lemma preserves_comment : preserves comment.
Proof. unfold comment. pres. Qed.
Lemma preserves_find n : preserves (find n).
Proof. unfold find. pres. Qed.
Lemma preserves_print_stack f S : preserves (print_stack f S).
Proof. unfold print_stack. pres. Qed.
Lemma preserves_push v : preserves (push v).
Proof. unfold push. pres. Qed.
Lemma preserves_pop v : preserves (pop v).
Proof. unfold pop. pres. Qed.
Lemma preserves_binary op v : preserves (binary op v).
Proof. unfold binary. pres. Qed.
Lemma preserves_append x : preserves (append x).
Proof. unfold append. pres. Qed.
Lemma preserves_rpush x : preserves (rpush x).
Proof. unfold rpush. pres. Qed.
Lemma preserves_rpop : preserves rpop.
Proof. unfold rpop. pres. Qed.
#[export] Hint Resolve preserves_comment preserves_find preserves_print_stack
  preserves_push preserves_pop preserves_binary
  preserves_append preserves_rpush preserves_rpop : pres.

Lemma preserves_read_word n : preserves (read_word n).
Proof. unfold read_word. pres. Qed.
#[export] Hint Resolve preserves_read_word : pres.

Lemma preserves_execute n i v : preserves (execute n i v).
Proof. destruct i; simpl; pres. Qed.
#[export] Hint Resolve preserves_execute : pres.

Lemma preserves_inner n v : preserves (inner n v).
Proof. unfold inner. pres. Qed.
#[export] Hint Resolve preserves_inner : pres.

Lemma preserves_interpret n : ∀ at_inner v, preserves (interpret n at_inner v).
Proof. induction n; intros at_inner v; simpl; pres. Qed.

(** ** Concrete cores *)

Definition host0 : host := Host ∅ [] [].

(** The world a computation leaves, [d] when it leaves none. *)
Definition world_of {A} (r : res A) (d : world) : world :=
  match r with
  | Ok _ w | Jump w => w
  | _ => d
  end.

(** The value a computation returns, if it returns. *)
Definition value_of {A} (r : res A) : option A :=
  match r with
  | Ok a _ => Some a
  | _ => None
  end.

Lemma Ok_world_of {A} (c : res A) a d :
  value_of c = Some a → c = Ok a (world_of c d).
Proof. destruct c; simpl; intros [= ->]; reflexivity. Qed.

(** The core [main_forth] starts with: [forth_init(CORE_SIZE, stdin, stdout)]
    with nothing on [stdin].  Any [MINIMUM_CORE_SIZE] up to [CORE_SIZE] gives
    this core. *)
Definition fresh : world :=
  world_of (forth_init CORE_SIZE 100000 CORE_SIZE [] [] host0)
           (World blank host0).

(** The fresh core is only ever evaluated as a whole. *)
Global Opaque fresh.

(** The world after [forth_eval(o, s)] on the world [w]. *)
Definition after_eval (s : string) (w : world) : world :=
  world_of (forth_eval 100000 (bytes s) w) w.

(** The world in which [forth_eval(o, s)] calls [forth_run]. *)
Definition with_input (s : string) (w : world) : world :=
  world_of (forth_set_string_input (bytes s) w) w.

(** ** The result of [forth_run] and the invalid flag *)

Lemma set_invalid_id o : o_invalid o = true → set_invalid true o = o.
Proof. destruct o; simpl; intros ->; reflexivity. Qed.

Lemma forth_run_invalid n w :
  o_invalid (obj w) = true → forth_run n w = Ok (-1) w.
Proof.
  intros H. unfold forth_run, bind, get_obj, modify_obj, ret. rewrite H.
  rewrite set_invalid_id by done. by destruct w.
Qed.

(** What [forth_run] does with a valid object. *)
Lemma forth_run_valid n w :
  o_invalid (obj w) = false →
  forth_run n w =
  match interpret n false
          (Locals 0 (o_S (obj w)) (o_I (obj w)) (o_top (obj w))) w with
  | Ok v w' => Ok 0 (World (set_top (l_f v) (obj w')) (env w'))
  | Jump w' => Ok (-1) (World (set_invalid true (obj w')) (env w'))
  | Undefined u => Undefined u
  | Aborted => Aborted
  | Timeout => Timeout
  end.
Proof. intros H. unfold forth_run, bind, get_obj. by rewrite H. Qed.

(** C5: after a completed [forth_run], a result of 0 comes with the invalid
    flag clear; any other result comes with the flag set, and then every later
    [forth_run], whatever its fuel, returns -1 at once and leaves the whole
    world (image, stacks, input, output) as it was. *)
Theorem forth_run_result_and_invalid n w r w' :
  forth_run n w = Ok r w' →
  (r = 0 → o_invalid (obj w') = false) ∧
  (r ≠ 0 →
   o_invalid (obj w') = true ∧ ∀ n', forth_run n' w' = Ok (-1) w').
Proof.
  intros H. destruct (o_invalid (obj w)) eqn:Hinv.
  - rewrite forth_run_invalid in H by done. inversion H; subst.
    split; [done|]. intros _. split; [done|].
    intros n'. by apply forth_run_invalid.
  - rewrite forth_run_valid in H by done.
    pose proof (preserves_interpret n false
      (Locals 0 (o_S (obj w)) (o_I (obj w)) (o_top (obj w))) w) as P.
    destruct (interpret _ _ _ w) as [v w1|w1| | |]; try discriminate;
      inversion H; subst; simpl.
    + split; [|done]. intros _. destruct P as (_ & _ & _ & _ & _ & ->). done.
    + split; [done|]. intros _. split; [done|].
      intros n'. by apply forth_run_invalid.
Qed.

(** The theorem at the run of [40000 @] on the fresh core, which fails the
    bounds check. *)
Lemma forth_run_result_and_invalid_witness :
  let w := with_input "40000 @" fresh in
  let w' := world_of (forth_run 1000 w) w in
  (-1 = 0 → o_invalid (obj w') = false) ∧
  (-1 ≠ 0 →
   o_invalid (obj w') = true ∧ ∀ n', forth_run n' w' = Ok (-1) w').
Proof.
  intros w w'. apply (forth_run_result_and_invalid 1000 w (-1) w').
  apply Ok_world_of. vm_compute. reflexivity.
Defined.

(** ** What [forth_run] writes back *)

(** C10: a [forth_run] that returns 0 leaves the stored stack pointer [S] and
    the stored instruction pointer [I] as they were, whatever the program did
    to the local copies: the object it leaves is the one the interpreter left
    with only [top] assigned, from the local [f].  So [forth_stack_position]
    after the run gives the position of before the run, and [forth_pop]
    returns the [top] the run left and takes its next [top] from the cell at
    that position, not from where the pushes of the program went. *)
Theorem forth_run_writes_back_top_only n w w' :
  forth_run n w = Ok 0 w' →
  o_S (obj w') = o_S (obj w) ∧ o_I (obj w') = o_I (obj w) ∧
  forth_stack_position (obj w') = forth_stack_position (obj w) ∧
  ∃ v w1,
    interpret n false
      (Locals 0 (o_S (obj w)) (o_I (obj w)) (o_top (obj w))) w = Ok v w1 ∧
    o_top (obj w') = l_f v ∧
    obj w' =
      Forth (o_in (obj w1)) (o_out (obj w1)) (o_s (obj w1)) (o_sin (obj w1))
        (o_core_size (obj w1)) (o_stack_size (obj w1)) (o_slen (obj w1))
        (o_sidx (obj w1)) (o_stringin (obj w1)) (o_invalid (obj w1))
        (o_I (obj w1)) (l_f v) (o_S (obj w1)) (o_m (obj w1)) ∧
    env w' = env w1 ∧
    (0 < o_S (obj w) < o_core_size (obj w) →
     ∃ w2,
       forth_pop w' = Ok (l_f v) w2 ∧
       o_top (obj w2) = cell_at (o_m (obj w1)) (o_S (obj w)) ∧
       o_S (obj w2) = o_S (obj w) - 1 ∧
       forth_stack_position (obj w2)
       = cell (forth_stack_position (obj w) - 1)).
Proof.
  intros H. destruct (o_invalid (obj w)) eqn:Hinv.
  { rewrite forth_run_invalid in H by done. discriminate. }
  rewrite forth_run_valid in H by done.
  pose proof (preserves_interpret n false
    (Locals 0 (o_S (obj w)) (o_I (obj w)) (o_top (obj w))) w) as P.
  destruct (interpret _ _ _ w) as [v w1|w1| | |]; try discriminate.
  inversion H; subst; simpl. destruct P as (HS & HI & Hsize & _).
  unfold forth_stack_position; simpl. rewrite HS, HI.
  do 3 (split; [done|]). exists v, w1. split; [done|].
  split; [done|]. split; [by destruct (obj w1)|]. split; [done|].
  intros Hpos. unfold forth_pop, bind, get_obj, assert, load, modify_obj, ret.
  simpl. rewrite HS.
  destruct (Z.ltb_spec 0 (o_S (obj w))); [|lia].
  unfold bind, get_obj, in_image. simpl. rewrite Hsize.
  destruct (Z.leb_spec 0 (o_S (obj w))); [|lia].
  destruct (Z.ltb_spec (o_S (obj w)) (o_core_size (obj w))); [|lia].
  simpl. eexists. split; [reflexivity|]. simpl. rewrite HS.
  repeat split. unfold cell. by rewrite Zminus_mod_idemp_l.
Qed.

(** The theorem at the run of [1 2 3] on the fresh core: three cells are
    pushed, and the stored stack pointer does not move. *)
Lemma forth_run_writes_back_top_only_witness :
  let w := with_input "1 2 3" fresh in
  let w' := world_of (forth_run 1000 w) w in
  o_S (obj w') = o_S (obj w) ∧ o_I (obj w') = o_I (obj w) ∧
  forth_stack_position (obj w') = forth_stack_position (obj w) ∧
  ∃ v w1,
    interpret 1000 false
      (Locals 0 (o_S (obj w)) (o_I (obj w)) (o_top (obj w))) w = Ok v w1 ∧
    o_top (obj w') = l_f v ∧
    obj w' =
      Forth (o_in (obj w1)) (o_out (obj w1)) (o_s (obj w1)) (o_sin (obj w1))
        (o_core_size (obj w1)) (o_stack_size (obj w1)) (o_slen (obj w1))
        (o_sidx (obj w1)) (o_stringin (obj w1)) (o_invalid (obj w1))
        (o_I (obj w1)) (l_f v) (o_S (obj w1)) (o_m (obj w1)) ∧
    env w' = env w1 ∧
    (0 < o_S (obj w) < o_core_size (obj w) →
     ∃ w2,
       forth_pop w' = Ok (l_f v) w2 ∧
       o_top (obj w2) = cell_at (o_m (obj w1)) (o_S (obj w)) ∧
       o_S (obj w2) = o_S (obj w) - 1 ∧
       forth_stack_position (obj w2)
       = cell (forth_stack_position (obj w) - 1)).
Proof.
  intros w w'. apply (forth_run_writes_back_top_only 1000 w w').
  apply Ok_world_of. vm_compute. reflexivity.
Defined.

(** ** Symbolic execution of the accesses to the image *)

(** The world after [m[i] = x]. *)
Definition wstore (i x : Z) (w : world) : world :=
  World (set_m (<[i := x]> (o_m (obj w))) (obj w)) (env w).

Lemma load_ok i w :
  in_image (obj w) i = true → load i w = Ok (cell_at (o_m (obj w)) i) w.
Proof. intros H. unfold load, bind, get_obj. by rewrite H. Qed.

Lemma store_ok i x w :
  in_image (obj w) i = true → store i x w = Ok tt (wstore i x w).
Proof. intros H. unfold store, bind, get_obj. by rewrite H. Qed.

Lemma check_bounds_ok f w :
  f < o_core_size (obj w) → check_bounds f w = Ok f w.
Proof.
  intros H. unfold check_bounds, bind, get_obj.
  destruct (Z.geb_spec f (o_core_size (obj w))); [lia|done].
Qed.

Lemma check_bounds_fail f w :
  o_core_size (obj w) ≤ f →
  check_bounds f w =
  Jump (World (obj w)
          (set_stderr
             (h_stderr (env w) ++ [BoundsCheckFailed f (o_core_size (obj w))])
             (env w))).
Proof.
  intros H. unfold check_bounds, bind, get_obj.
  destruct (Z.geb_spec f (o_core_size (obj w))); [done|lia].
Qed.

Lemma bind_eq {A B} (c : M A) (k : A → M B) w a w1 :
  c w = Ok a w1 → bind c k w = k a w1.
Proof. intros H. unfold bind. by rewrite H. Qed.

Lemma in_image_iff o i :
  in_image o i = true ↔ 0 ≤ i < o_core_size o.
Proof. unfold in_image. rewrite andb_true_iff, Z.leb_le, Z.ltb_lt. done. Qed.

Lemma in_image_wstore i x w j :
  in_image (obj (wstore i x w)) j = in_image (obj w) j.
Proof. done. Qed.

Lemma cell_at_insert (m : gmap Z Z) i x j :
  cell_at (<[i := x]> m) j = if decide (i = j) then x else cell_at m j.
Proof.
  unfold cell_at. rewrite lookup_insert. by destruct (decide (i = j)).
Qed.

Lemma cell_at_wstore i x w j :
  cell_at (o_m (obj (wstore i x w))) j =
  if decide (i = j) then x else cell_at (o_m (obj w)) j.
Proof. apply cell_at_insert. Qed.

(** Discharges a goal [in_image o i = true]. *)
Ltac in_img :=
  apply in_image_iff;
  repeat match goal with x := _ : world |- _ => subst x end;
  simpl; lia.

Lemma bind_ret {A B} (a : A) (k : A → M B) w : bind (ret a) k w = k a w.
Proof. done. Qed.
Lemma bind_get_obj {B} (k : forth → M B) w : bind get_obj k w = k (obj w) w.
Proof. done. Qed.
Lemma bind_get_env {B} (k : host → M B) w : bind get_env k w = k (env w) w.
Proof. done. Qed.
Lemma bind_modify_obj {B} g (k : unit → M B) w :
  bind (modify_obj g) k w = k tt (World (g (obj w)) (env w)).
Proof. done. Qed.
Lemma bind_bind {A B C} (c : M A) (k : A → M B) (k' : B → M C) w :
  bind (bind c k) k' w = bind c (λ a, bind (k a) k') w.
Proof. unfold bind. by destruct (c w). Qed.

(** One step of the execution of a computation whose accesses are within the
    image. *)
Ltac step :=
  match goal with
  | |- context [bind (load ?i) ?k ?w] =>
      rewrite (bind_eq (load i) k w _ _ (load_ok i w ltac:(in_img)))
  | |- context [bind (store ?i ?x) ?k ?w] =>
      rewrite (bind_eq (store i x) k w _ _ (store_ok i x w ltac:(in_img)))
  | |- context [bind (check_bounds ?f) ?k ?w] =>
      rewrite (bind_eq (check_bounds f) k w _ _
                 (check_bounds_ok f w ltac:(simpl; lia)))
  | |- context [bind (ret ?a) ?k ?w] => rewrite (bind_ret a k w)
  | |- context [bind get_obj ?k ?w] => rewrite (bind_get_obj k w)
  | |- context [bind (bind ?c ?k) ?k' ?w] => rewrite (bind_bind c k k' w)
  end; cbv beta.

(** ** STORE *)

(** C4: [STORE] assigns to [m[f]] the cell popped from the stack, and then
    pops the next cell into [f]; so after [value] and [address] have been
    pushed, in that order, [STORE] leaves [m[address] = value], and the stack
    as it was before the two pushes. *)
Theorem STORE_stores_second_at_top n v w value address :
  0 ≤ l_f v < o_core_size (obj w) →
  1 ≤ l_S v ∧ l_S v + 2 < o_core_size (obj w) →
  0 ≤ address < o_core_size (obj w) →
  (let w' := wstore (l_f v) (cell_at (o_m (obj w)) (l_S v)) w in
   execute n STORE v w =
   Ok (Break (Locals (l_pc v) (l_S v - 2) (l_I v)
                (cell_at (o_m (obj w')) (l_S v - 1)))) w') ∧
  (∃ f' w',
     (v1 <- push v ;;
      v2 <- push (with_f value v1) ;;
      execute n STORE (with_f address v2)) w =
     Ok (Break (Locals (l_pc v) (l_S v) (l_I v) f')) w' ∧
     cell_at (o_m (obj w')) address = value ∧
     (address ≠ l_S v + 1 → f' = l_f v)).
Proof.
  intros Hf HS Ha. split.
  - intros w'. subst w'. unfold execute, pop. repeat step.
    unfold ret; simpl. replace (l_S v - 1 - 1) with (l_S v - 2) by lia.
    reflexivity.
  - unfold execute, pop, push. repeat step.
    eexists _, _. split.
    { unfold ret; simpl. replace (l_S v + 1 + 1 - 1 - 1) with (l_S v) by lia.
      reflexivity. }
    simpl. rewrite !cell_at_insert. split.
    + rewrite !decide_True by done. done.
    + intros Hne. rewrite decide_False by lia.
      rewrite decide_False by lia. rewrite decide_True by lia. done.
Qed.

Lemma fresh_core_size : o_core_size (obj fresh) = 32768.
Proof. vm_compute. reflexivity. Qed.

(** The theorem on the fresh core, for the phrase [7 1000 !]. *)
Lemma STORE_stores_second_at_top_witness :
  let v := Locals 65 (o_S (obj fresh) + 2) 67 1000 in
  (let w' := wstore 1000 (cell_at (o_m (obj fresh)) (l_S v)) fresh in
   execute 0 STORE v fresh =
   Ok (Break (Locals (l_pc v) (l_S v - 2) (l_I v)
                (cell_at (o_m (obj w')) (l_S v - 1)))) w') ∧
  (∃ f' w',
     (v1 <- push v ;;
      v2 <- push (with_f 7 v1) ;;
      execute 0 STORE (with_f 1000 v2)) fresh =
     Ok (Break (Locals (l_pc v) (l_S v) (l_I v) f')) w' ∧
     cell_at (o_m (obj w')) 1000 = 7 ∧
     (1000 ≠ l_S v + 1 → f' = l_f v)).
Proof.
  intros v. apply (STORE_stores_second_at_top 0 v fresh 7 1000).
  - rewrite fresh_core_size. simpl. lia.
  - rewrite fresh_core_size. split; vm_compute; [discriminate|reflexivity].
  - rewrite fresh_core_size. lia.
Defined.

(** The phrase, run by the interpreter on the fresh core. *)
Example store_phrase :
  cell_at (o_m (obj (after_eval "7 1000 !" fresh))) 1000 = 7.
Proof. vm_compute. reflexivity. Qed.
(** ** Computations that only read *)

Definition pure {A} (c : M A) : Prop := ∀ w a w', c w = Ok a w' → w' = w.

Lemma pure_ret {A} (a : A) : pure (ret a).
Proof. intros w a' w' [= _ ->]. done. Qed.
Lemma pure_bind {A B} (c : M A) (k : A → M B) :
  pure c → (∀ a, pure (k a)) → pure (bind c k).
Proof.
  intros Hc Hk w y w' (a & w1 & H1 & H2)%bind_Ok.
  apply Hc in H1 as ->. by apply Hk in H2.
Qed.
Lemma pure_undefined {A} u : pure (@undefined A u).
Proof. intros w a w'. discriminate. Qed.
Lemma pure_timeout {A} : pure (@timeout A).
Proof. intros w a w'. discriminate. Qed.
Lemma pure_get_obj : pure get_obj.
Proof. intros w a w' [= _ ->]. done. Qed.

Create HintDb pure.
#[export] Hint Resolve pure_ret pure_undefined pure_timeout pure_get_obj : pure.

Ltac pure_step :=
  lazymatch goal with
  | |- pure (bind _ _) => apply pure_bind; [|intro]
  | |- pure (if ?c then _ else _) => destruct c
  | |- pure (match ?x with _ => _ end) => destruct x
  | |- pure _ => solve [eauto with pure]
  end.
Ltac pure_tac := repeat pure_step.

Lemma pure_load i : pure (load i).
Proof. unfold load. pure_tac. Qed.
#[export] Hint Resolve pure_load : pure.
Lemma pure_load8 k : pure (load8 k).
Proof. unfold load8. pure_tac. Qed.
#[export] Hint Resolve pure_load8 : pure.
Lemma pure_strcmp_loop n : ∀ p q, pure (strcmp_loop n p q).
Proof. induction n; intros p q; simpl; pure_tac. Qed.
#[export] Hint Resolve pure_strcmp_loop : pure.
Lemma pure_strcmp p q : pure (strcmp p q).
Proof. unfold strcmp. pure_tac. Qed.
#[export] Hint Resolve pure_strcmp : pure.
Lemma pure_load_string_loop n : ∀ p, pure (load_string_loop n p).
Proof. induction n; intros p; simpl; pure_tac. Qed.
#[export] Hint Resolve pure_load_string_loop : pure.
Lemma pure_load_string p : pure (load_string p).
Proof. unfold load_string. pure_tac. Qed.
#[export] Hint Resolve pure_load_string : pure.
Lemma pure_find_loop n : ∀ x len, pure (find_loop n x len).
Proof. induction n; intros x len; simpl; pure_tac. Qed.
#[export] Hint Resolve pure_find_loop : pure.
Lemma pure_find n : pure (find n).
Proof. unfold find. pure_tac. Qed.

Lemma load_Ok i w x w' :
  load i w = Ok x w' →
  w' = w ∧ x = cell_at (o_m (obj w)) i ∧ in_image (obj w) i = true.
Proof.
  unfold load, bind, get_obj. destruct (in_image (obj w) i); [|discriminate].
  intros [= <- <-]. done.
Qed.

(** Inverts a hypothesis [bind c k w = Ok y w']. *)
Ltac inv_bind H :=
  let a := fresh "a" in let w := fresh "w" in let E := fresh "E" in
  apply bind_Ok in H; destruct H as (a & w & E & H).

(** A word that [find] returns has its code cell inside the image. *)
Lemma find_loop_result n : ∀ x len w r w',
  find_loop n x len w = Ok r w' →
  r = 0 ∨ (DICTIONARY_START < r ∧ in_image (obj w) (r + 1) = true).
Proof.
  induction n; intros x len w r w' H; simpl in H; [discriminate|].
  destruct (Z.gtb_spec x DICTIONARY_START) as [Hx|Hx];
    [|by inversion H; left].
  rewrite bind_get_obj in H.
  apply bind_Ok in H as (differ & w1 & E & H).
  apply pure_strcmp in E as ->.
  apply bind_Ok in H as (skip & w1 & E & H).
  assert (w1 = w ∧ (skip = false → in_image (obj w) (x + 1) = true))
    as [-> Hi].
  { destruct differ.
    - inversion E; subst. done.
    - apply bind_Ok in E as (f1 & w2 & E1 & E2).
      apply load_Ok in E1 as (-> & _ & Hi). inversion E2; subst. done. }
  destruct skip.
  - apply bind_Ok in H as (x' & w1 & E1 & H).
    apply load_Ok in E1 as (-> & _ & _).
    apply bind_Ok in H as (f1 & w1 & E1 & H).
    apply load_Ok in E1 as (-> & _ & _). eauto.
  - inversion H; subst. right. split; [lia|auto].
Qed.

Lemma find_result n w r w' :
  find n w = Ok r w' →
  w' = w ∧ in_image (obj w) PWD = true ∧
  (r = 0 ∨ (DICTIONARY_START < r ∧ in_image (obj w) (r + 1) = true)).
Proof.
  intros H. pose proof (pure_find n _ _ _ H) as ->. split; [done|].
  unfold find in H. inv_bind H. apply load_Ok in E as (-> & _ & Hp).
  inv_bind H. apply load_Ok in E as (-> & _ & _).
  split; [done|]. eauto using find_loop_result.
Qed.

Lemma read_word_result n w x w1 :
  read_word n w = Ok (Some x) w1 →
  o_core_size (obj w1) = o_core_size (obj w) ∧
  in_image (obj w1) PWD = true ∧
  (x = 0 ∨ (DICTIONARY_START < x ∧ in_image (obj w1) (x + 1) = true)).
Proof.
  intros H. pose proof (preserves_read_word n w) as P. rewrite H in P.
  destruct P as (_ & _ & Hc & _). split; [done|].
  unfold read_word in H.
  apply bind_Ok in H as (a & w2 & _ & H).
  apply bind_Ok in H as (r & w3 & _ & H).
  apply bind_Ok in H as (? & w4 & _ & H).
  rewrite bind_get_obj in H.
  apply bind_Ok in H as (k & w5 & _ & H).
  destruct (k <? 0); [discriminate|].
  apply bind_Ok in H as (x' & w6 & E & H).
  inversion H; subst. by apply find_result in E as (-> & ? & ?).
Qed.

(** ** READ: a word that is found *)

(** C2: when the word read is found ([find] returns a link index [x] above
    the sentinel 1), [READ] sets [pc] to [x + 1], advances it once more
    exactly when [STATE] is 0 and the instruction in the cell at [pc], its
    low seven bits, is [COMPILE], the opcode 1, and goes to [INNER] with that
    [pc]; the stack pointer, [I] and the top of the stack are as they were.
    [pc] is a cell, so both sums are taken modulo 65536; they are the plain
    sums for every link index below 65534. *)
Theorem READ_found_dispatch n v w x w1 :
  read_word n w = Ok (Some x) w1 →
  1 < x →
  let m := o_m (obj w1) in
  let pc := (x + 1) mod 65536 in
  let skip := (cell_at m STATE =? 0) && (Z.land (cell_at m pc) 127 =? 1) in
  ∃ v',
    execute n READ v w = Ok (GotoInner v') w1 ∧
    l_pc v' = (if skip then (pc + 1) mod 65536 else pc) ∧
    l_S v' = l_S v ∧ l_I v' = l_I v ∧ l_f v' = l_f v ∧
    (x + 2 < 65536 →
     l_pc v' =
     if (cell_at m STATE =? 0) && (Z.land (cell_at m (x + 1)) 127 =? 1)
     then x + 2 else x + 1).
Proof.
  intros H Hx m pc skip. subst m pc skip.
  destruct (read_word_result _ _ _ _ H) as (Hc & Hp & [->|[Hd Hi]]); [lia|].
  apply in_image_iff in Hp, Hi. unfold PWD in Hp.
  change ((x + 1) mod 65536) with (cell (x + 1)).
  assert (0 ≤ cell (x + 1) ≤ x + 1) as Hpc.
  { unfold cell. split; [apply Z.mod_pos_bound; lia|].
    apply Z.mod_le; lia. }
  assert (x + 2 < 65536 → cell (x + 1) = x + 1) as Hsmall
    by (intros ?; unfold cell; apply Z.mod_small; lia).
  unfold execute. rewrite (bind_eq _ _ _ _ _ H).
  destruct (Z.gtb_spec x 1); [|lia].
  unfold STATE. step.
  destruct (cell_at (o_m (obj w1)) 8 =? 0); cbn [andb].
  - rewrite (bind_eq _ _ w1 _ _
               (check_bounds_ok (cell (x + 1)) w1 ltac:(lia))).
    rewrite (bind_eq _ _ w1 _ _
               (load_ok (cell (x + 1)) w1 ltac:(apply in_image_iff; lia))).
    change (b ?c) with (Z.land c 127). change (code_of COMPILE) with 1.
    destruct (Z.land (cell_at (o_m (obj w1)) (cell (x + 1))) 127 =? 1) eqn:E.
    + eexists. split; [reflexivity|]. cbn [with_pc l_pc l_S l_I l_f].
      repeat split. intros Hw. rewrite Hsmall in * by done. rewrite E.
      unfold cell. rewrite Z.mod_small; lia.
    + eexists. split; [reflexivity|]. cbn [with_pc l_pc l_S l_I l_f].
      repeat split. intros Hw. rewrite Hsmall in * by done. by rewrite E.
  - eexists. split; [reflexivity|]. cbn [with_pc l_pc l_S l_I l_f].
    repeat split. intros Hw. by apply Hsmall.
Qed.

Lemma with_input_core_size s w :
  o_core_size (obj (with_input s w)) = o_core_size (obj w).
Proof. done. Qed.

(** The theorem on the fresh core with the input [dup]: the word is found at
    link index 207, the core interprets, and the code cell of [dup] holds
    [COMPILE], so that [pc] is 209. *)
Lemma READ_found_dispatch_witness :
  let w := with_input "dup" fresh in
  let w1 := world_of (read_word 1000 w) w in
  let v := Locals 65 (o_S (obj w)) 67 (o_top (obj w)) in
  let m := o_m (obj w1) in
  let pc := (207 + 1) mod 65536 in
  let skip := (cell_at m STATE =? 0) && (Z.land (cell_at m pc) 127 =? 1) in
  ∃ v',
    execute 1000 READ v w = Ok (GotoInner v') w1 ∧
    l_pc v' = (if skip then (pc + 1) mod 65536 else pc) ∧
    l_S v' = l_S v ∧ l_I v' = l_I v ∧ l_f v' = l_f v ∧
    (207 + 2 < 65536 →
     l_pc v' =
     if (cell_at m STATE =? 0) && (Z.land (cell_at m (207 + 1)) 127 =? 1)
     then 207 + 2 else 207 + 1).
Proof.
  intros w w1 v. apply (READ_found_dispatch 1000 v w 207 w1).
  - apply Ok_world_of. vm_compute. reflexivity.
  - lia.
Defined.

Example READ_found_dup :
  let w := with_input "dup" fresh in
  value_of (execute 1000 READ (Locals 65 (o_S (obj w)) 67 0) w)
  = Some (GotoInner (Locals 209 (o_S (obj w)) 67 0)).
Proof. vm_compute. reflexivity. Qed.

(** ** The tokenizer *)

(** The world in which the input is the file with the bytes of [s]. *)
Definition with_file (s : string) (w : world) : world :=
  world_of (forth_set_file_input (bytes s) w) w.

(** The file variant of [forth_get_word] returns what [fscanf] returns: the
    number of items assigned, 1, or [EOF]. *)
Lemma forth_get_word_file p w r w' :
  o_stringin (obj w) = false →
  forth_get_word p w = Ok r w' → r = 1 ∨ r = EOF.
Proof.
  intros Hs H. unfold forth_get_word in H. rewrite bind_get_obj, Hs in H.
  destruct (scan_word _) as [[[wd rest] k]|].
  - apply bind_Ok in H as (? & ? & _ & H).
    apply bind_Ok in H as (? & ? & _ & H). inversion H. by left.
  - apply bind_Ok in H as (? & ? & _ & H). inversion H. by right.
Qed.

(** C6, at the input [hello] read from a file: the word is stored and its
    five bytes are consumed, but the result is 1, the number of items
    [fscanf] assigned, and not 5; the same word read from a string gives 5. *)
Theorem forth_get_word_file_returns_item_count :
  let w := with_file "hello" fresh in
  let r := forth_get_word (o_s (obj w)) w in
  let w' := with_input "hello" fresh in
  let r' := forth_get_word (o_s (obj w')) w' in
  value_of r = Some 1 ∧
  Z.of_nat (length (o_in (obj w)))
  - Z.of_nat (length (o_in (obj (world_of r w)))) = 5 ∧
  value_of (load_string (o_s (obj w)) (world_of r w)) = Some (bytes "hello") ∧
  value_of r' = Some 5 ∧
  o_sidx (obj (world_of r' w')) - o_sidx (obj w') = 5.
Proof. vm_compute. repeat split; reflexivity. Qed.
(** ** Block input and output *)

Lemma load8_ok k w :
  0 ≤ k < cell_bytes * o_core_size (obj w) →
  load8 k w =
  Ok (byte_of_cell (cell_at (o_m (obj w)) (k / cell_bytes)) (k mod cell_bytes))
     w.
Proof.
  intros H. unfold load8. unfold cell_bytes in *.
  rewrite (bind_eq _ _ w _ _ (load_ok (k / 2) w ltac:(
    apply in_image_iff; split;
      [apply Z.div_pos; lia | apply Z.div_lt_upper_bound; lia]))).
  done.
Qed.

(** The [n] bytes of the image [m] from byte offset [p] on. *)
Fixpoint image_bytes (m : gmap Z Z) (n : nat) (p : Z) : list Z :=
  match n with
  | O => []
  | S n' =>
      byte_of_cell (cell_at m (p / cell_bytes)) (p mod cell_bytes)
      :: image_bytes m n' (p + 1)
  end.

Lemma image_bytes_length m n : ∀ p, length (image_bytes m n p) = n.
Proof. induction n; intros p; simpl; [done|]. by rewrite IHn. Qed.

Lemma load_bytes_ok n : ∀ p w,
  0 ≤ p → p + Z.of_nat n ≤ cell_bytes * o_core_size (obj w) →
  load_bytes n p w = Ok (image_bytes (o_m (obj w)) n p) w.
Proof.
  induction n as [|n IH]; intros p w Hp Hn; simpl; [done|].
  rewrite (bind_eq _ _ w _ _ (load8_ok p w ltac:(lia))).
  rewrite (bind_eq _ _ w _ _ (IH (p + 1) w ltac:(lia) ltac:(lia))). done.
Qed.

(** The bound the specification gives for the offset:
    [core_size_in_bytes - BLOCK_SIZE]. *)
Definition claimed_offset_bound (o : forth) : Z :=
  cell_bytes * o_core_size o - BLOCK_SIZE.

(** The transfer in write mode, with a file that can be opened and a block
    that lies inside the bytes of the image: the file receives the 1024 bytes
    of the image from the offset on. *)
Lemma blockio_transfer_writes poffset id w :
  0 ≤ poffset → poffset + BLOCK_SIZE ≤ cell_bytes * o_core_size (obj w) →
  block_name id ∉ h_readonly (env w) →
  blockio_transfer poffset id 119 w =
  Ok 0 (World (obj w)
          (set_blocks
             (<[block_name id :=
                  image_bytes (o_m (obj w)) (Z.to_nat BLOCK_SIZE) poffset]>
                (h_blocks (env w)))
             (env w))).
Proof.
  intros Hp Hn Hro.
  unfold blockio_transfer. rewrite bind_get_env.
  change (119 =? 114) with false. cbv iota.
  rewrite bool_decide_eq_false_2 by done.
  unfold bind at 1, modify_env at 1.
  change (119 =? 119) with true. cbv iota.
  set (w1 := World _ _).
  rewrite (bind_eq _ _ w1 _ _
             (load_bytes_ok (Z.to_nat BLOCK_SIZE) poffset w1 ltac:(lia)
                ltac:(subst w1; simpl; unfold cell_bytes, BLOCK_SIZE in *;
                      lia))).
  subst w1. unfold bind, modify_env, ret, set_blocks.
  cbn [obj env h_blocks h_readonly h_stderr].
  by rewrite insert_insert_eq.
Qed.

(** The test of the offset in [blockio]: the bound is [core_size -
    BLOCK_SIZE], with [core_size] the number of cells of the image.  Above it
    [blockio] returns -1 and leaves the world as it was; at or below it
    [blockio] is the transfer. *)
Lemma blockio_offset_guard poffset id rw w :
  BLOCK_SIZE ≤ o_core_size (obj w) < 2 ^ 64 →
  (o_core_size (obj w) - BLOCK_SIZE < poffset →
   blockio poffset id rw w = Ok (-1) w) ∧
  (0 ≤ poffset ≤ o_core_size (obj w) - BLOCK_SIZE →
   blockio poffset id rw w = blockio_transfer poffset id rw w ∧
   (rw = 119 → block_name id ∉ h_readonly (env w) →
    let data := image_bytes (o_m (obj w)) (Z.to_nat BLOCK_SIZE) poffset in
    blockio poffset id rw w =
    Ok 0 (World (obj w)
            (set_blocks (<[block_name id := data]> (h_blocks (env w)))
               (env w))))).
Proof.
  intros Hc. unfold blockio. rewrite bind_get_obj.
  assert (size_t (o_core_size (obj w) - BLOCK_SIZE)
          = o_core_size (obj w) - BLOCK_SIZE) as ->
    by (unfold size_t, BLOCK_SIZE in *; apply Z.mod_small; lia).
  split.
  - intros H. destruct (Z.gtb_spec poffset (o_core_size (obj w) - BLOCK_SIZE));
      [done|lia].
  - intros H. destruct (Z.gtb_spec poffset (o_core_size (obj w) - BLOCK_SIZE));
      [lia|]. split; [done|].
    intros -> Hro. apply blockio_transfer_writes; [lia| |done].
    unfold cell_bytes, BLOCK_SIZE in *. lia.
Qed.

(** C7: the code misses the bound of the claim by a slip of units.  The
    offset is a byte offset, added to the image as a byte pointer, and the
    image has [cell_bytes * core_size] bytes; yet [blockio] compares it with
    [core_size - BLOCK_SIZE], where [core_size] counts cells.  So an offset
    above [core_size - BLOCK_SIZE] that is within the claimed bound
    [core_size_in_bytes - BLOCK_SIZE] is refused: [blockio] returns -1 and
    leaves the world, and with it the block files, as it was, in either mode,
    where the transfer itself, in write mode on a file that can be opened,
    would have stored the 1024 bytes of the image from that offset on. *)
Theorem blockio_refuses_byte_offsets poffset id rw w :
  BLOCK_SIZE ≤ o_core_size (obj w) < 2 ^ 64 →
  o_core_size (obj w) - BLOCK_SIZE < poffset ≤ claimed_offset_bound (obj w) →
  block_name id ∉ h_readonly (env w) →
  blockio poffset id rw w = Ok (-1) w ∧
  blockio_transfer poffset id 119 w =
  Ok 0 (World (obj w)
          (set_blocks
             (<[block_name id :=
                  image_bytes (o_m (obj w)) (Z.to_nat BLOCK_SIZE) poffset]>
                (h_blocks (env w)))
             (env w))).
Proof.
  intros Hc [Hlo Hhi] Hro. unfold claimed_offset_bound in Hhi. split.
  - by apply (blockio_offset_guard poffset id rw w Hc).
  - apply blockio_transfer_writes; [unfold BLOCK_SIZE in *|..]; (done || lia).
Qed.

Lemma fresh_readonly : h_readonly (env fresh) = [].
Proof. vm_compute. reflexivity. Qed.

(** The theorem on the fresh core, of 32768 cells and 65536 bytes: the
    offset 40000 is below 65536 - 1024, and writing block 0 from it is
    refused. *)
Lemma blockio_refuses_byte_offsets_witness :
  blockio 40000 0 119 fresh = Ok (-1) fresh ∧
  blockio_transfer 40000 0 119 fresh =
  Ok 0 (World (obj fresh)
          (set_blocks
             (<[block_name 0 :=
                  image_bytes (o_m (obj fresh)) (Z.to_nat BLOCK_SIZE) 40000]>
                (h_blocks (env fresh)))
             (env fresh))).
Proof.
  apply (blockio_refuses_byte_offsets 40000 0 119 fresh).
  - rewrite fresh_core_size. unfold BLOCK_SIZE. lia.
  - unfold claimed_offset_bound. rewrite fresh_core_size.
    unfold cell_bytes, BLOCK_SIZE. lia.
  - rewrite fresh_readonly. apply not_elem_of_nil.
Defined.

(** ** Number recognition *)

Definition octal_digits : list Z := bytes "01234567".
Definition decimal_digits : list Z := bytes "0123456789".
Definition hex_digits : list Z := bytes "0123456789abcdefABCDEF".

(** Every byte of [s] is one of [accept]. *)
Definition all_of (accept s : list Z) : Prop :=
  Forall (λ c, mem c accept = true) s.

(** The syntax of numbers in the words of the specification: an optional
    leading [-] followed by [0x] and at least one hexadecimal digit, or by
    [0] and only octal digits, or by at least one decimal digit and only
    decimal digits. *)
Definition claimed_number_body (t : list Z) : Prop :=
  (∃ d, t = 48 :: 120 :: d ∧ d ≠ [] ∧ all_of hex_digits d) ∨
  (∃ d, t = 48 :: d ∧ all_of octal_digits d) ∨
  (t ≠ [] ∧ all_of decimal_digits t).
Definition claimed_number_syntax (s : list Z) : Prop :=
  ∃ t, (s = t ∨ s = 45 :: t) ∧ claimed_number_body t.

(** The syntax [is_number] accepts: the decimal form does not start with
    [0]. *)
Definition number_body (t : list Z) : Prop :=
  (∃ d, t = 48 :: 120 :: d ∧ d ≠ [] ∧ all_of hex_digits d) ∨
  (∃ d, t = 48 :: d ∧ all_of octal_digits d) ∨
  (t ≠ [] ∧ head t ≠ Some 48 ∧ all_of decimal_digits t).
Definition number_syntax (s : list Z) : Prop :=
  ∃ t, (s = t ∨ s = 45 :: t) ∧ number_body t.

(** C8 fails as stated: [09] is one decimal digit or more and only decimal
    digits, and [is_number] rejects it, as its leading [0] asks for octal
    digits. *)
Lemma is_number_counterexample :
  claimed_number_syntax (bytes "09") ∧ is_number (bytes "09") = false.
Proof.
  split; [|reflexivity].
  exists (bytes "09"). split; [by left|].
  right. right. split; [done|]. by repeat constructor.
Qed.

Lemma strspn_spec accept s :
  mem 0 accept = false → Forall (λ c, c ≠ 0) s →
  (char_at s (strspn s accept) =? 0) = true ↔ all_of accept s.
Proof.
  intros H0. induction 1 as [|c s Hc Hs IH]; simpl.
  - split; [constructor|done].
  - destruct (mem c accept) eqn:E; simpl.
    + rewrite IH. split; [by constructor|by inversion 1].
    + split.
      * intros ?%Z.eqb_eq. done.
      * inversion 1; congruence.
Qed.

Lemma char_at_add2 a c d k : char_at (a :: c :: d) (k + 2) = char_at d k.
Proof. by rewrite Nat.add_comm. Qed.

(** [is_number] after the sign. *)
Definition is_number_body (s : list Z) : bool :=
  if char_at s 0 =? 48 then
    if char_at s 1 =? 120 then
      (char_at s (strspn (drop 2 s) hex_digits + 2) =? 0)
      && negb (char_at s 2 =? 0)
    else
      char_at s (strspn s octal_digits) =? 0
  else
    (char_at s (strspn s decimal_digits) =? 0)
    && negb (char_at s 0 =? 0).

Lemma hex_no_NUL : mem 0 hex_digits = false.
Proof. reflexivity. Qed.
Lemma octal_no_NUL : mem 0 octal_digits = false.
Proof. reflexivity. Qed.
Lemma decimal_no_NUL : mem 0 decimal_digits = false.
Proof. reflexivity. Qed.

Lemma all_of_cons accept c s :
  all_of accept (c :: s) ↔ mem c accept = true ∧ all_of accept s.
Proof. unfold all_of. by rewrite Forall_cons. Qed.

Lemma is_number_body_spec t :
  Forall (λ c, c ≠ 0) t → is_number_body t = true ↔ number_body t.
Proof.
  intros Ht. unfold is_number_body, number_body.
  destruct t as [|a t].
  { split; [done|]. intros [(? & ? & _)|[(? & ? & _)|(? & _)]]; done. }
  change (char_at (a :: t) 0) with a.
  change (char_at (a :: t) 1) with (char_at t 0).
  change (char_at (a :: t) 2) with (char_at t 1).
  pose proof Ht as Hat. apply Forall_cons in Ht as [Ha Ht].
  destruct (Z.eqb_spec a 48) as [->|Ha48].
  - destruct (Z.eqb_spec (char_at t 0) 120) as [Hx|Hx].
    + destruct t as [|c d]; [done|]. change (char_at (c :: d) 0) with c in Hx.
      subst c. change (drop 2 (48 :: 120 :: d)) with d.
      change (char_at (120 :: d) 1) with (char_at d 0).
      apply Forall_cons in Ht as [_ Hd].
      rewrite char_at_add2, andb_true_iff, (strspn_spec _ _ hex_no_NUL Hd).
      rewrite negb_true_iff, Z.eqb_neq. split.
      * intros [H1 H2]. left. exists d. repeat split; [|done].
        intros ->. done.
      * intros [(d' & [= <-] & Hne & Hall)|[(d' & [= <-] & Hall)|(_ & H & _)]].
        -- split; [done|]. destruct d as [|x d]; [done|].
           by apply Forall_cons in Hd as [? _].
        -- apply all_of_cons in Hall as [Hall _]. done.
        -- done.
    + rewrite (strspn_spec _ _ octal_no_NUL Hat), all_of_cons. split.
      * intros [_ H]. right; left. by exists t.
      * intros [(d' & [= ->] & _)|[(d' & [= <-] & Hall)|(_ & H & _)]].
        -- by destruct Hx.
        -- split; [reflexivity|done].
        -- done.
  - rewrite andb_true_iff, negb_true_iff, Z.eqb_neq.
    rewrite (strspn_spec _ _ decimal_no_NUL Hat).
    split.
    + intros [H _]. right; right. repeat split; [done| |done]. by intros [=].
    + intros [(d' & [= -> ] & _)|[(d' & [= ->] & _)|(_ & _ & H)]]; done.
Qed.

(** C8, amended: [is_number] accepts exactly an optional leading [-] followed
    by [0x] and at least one hexadecimal digit, or by [0] and only octal
    digits, or by at least one decimal digit, the first not [0], and only
    decimal digits; so neither the empty string nor [-] alone. *)
Theorem is_number_syntax s :
  Forall (λ c, c ≠ 0) s →
  (is_number s = true ↔ number_syntax s) ∧
  is_number [] = false ∧ is_number [45] = false.
Proof.
  intros Hs. split; [|done].
  change (is_number s)
    with (is_number_body (if char_at s 0 =? 45 then drop 1 s else s)).
  destruct s as [|a s].
  { split; [done|].
    intros (t & [<-|?] & [(? & ? & _)|[(? & ? & _)|(? & _)]]); done. }
  change (char_at (a :: s) 0) with a. change (drop 1 (a :: s)) with s.
  pose proof Hs as Hs'. apply Forall_cons in Hs' as [Ha Hs'].
  destruct (Z.eqb_spec a 45) as [->|Ha45].
  - rewrite (is_number_body_spec _ Hs'). split.
    + intros H. exists s. split; [by right|done].
    + intros (t & Ht & Hb). destruct Ht as [<-|[= <-]]; [|done].
      destruct Hb as [(? & ? & _)|[(? & ? & _)|(_ & _ & H')]]; try done.
      by apply all_of_cons in H' as [? _].
  - rewrite (is_number_body_spec _ Hs). split.
    + intros H. exists (a :: s). split; [by left|done].
    + intros (t & Ht & Hb). destruct Ht as [<-|[= -> _]]; done.
Qed.

(** The theorem at [-0x1F]. *)
Lemma is_number_syntax_witness :
  (is_number (bytes "-0x1F") = true ↔ number_syntax (bytes "-0x1F")) ∧
  is_number [] = false ∧ is_number [45] = false.
Proof.
  apply (is_number_syntax (bytes "-0x1F")).
  repeat constructor; discriminate.
Defined.
(** ** The bounds checks *)

(** The computation ends in [longjmp(o->error, 1)]. *)
Definition aborts {A} (c : M A) (w : world) : Prop := ∃ w', c w = Jump w'.

Lemma aborts_bind_l {A B} (c : M A) (k : A → M B) w :
  aborts c w → aborts (bind c k) w.
Proof. intros [w' H]. exists w'. unfold bind. by rewrite H. Qed.

Lemma aborts_bind_r {A B} (c : M A) (k : A → M B) w a w1 :
  c w = Ok a w1 → aborts (k a) w1 → aborts (bind c k) w.
Proof. intros H [w' H']. exists w'. unfold bind. by rewrite H. Qed.

Lemma aborts_check_bounds f w :
  o_core_size (obj w) ≤ f → aborts (check_bounds f) w.
Proof. intros H. eexists. by apply check_bounds_fail. Qed.

(** The checks that are there: an index that goes through [check_bounds] is
    compared with [core_size]; a failed check is a [longjmp], and a [longjmp]
    anywhere in the interpreter makes [forth_run] set [invalid] and return
    -1.  Among others the fetches [m[I]] and [m[pc]] of the dispatcher, the
    address of [LOAD] and [STORE], the operand of [JMP], the dictionary
    pointer in [COMPILE] and [COMMA] and the return stack pointer in [RUN],
    [TOR] and [EXIT] go through the check. *)
Lemma checked_index_aborts n v w :
  let size := o_core_size (obj w) in
  let m := o_m (obj w) in
  o_invalid (obj w) = false →
  1 < size →
  (∀ f, size ≤ f → aborts (check_bounds f) w) ∧
  (∀ f, f < size → check_bounds f w = Ok f w) ∧
  (aborts (interpret n false
             (Locals 0 (o_S (obj w)) (o_I (obj w)) (o_top (obj w)))) w →
   ∃ w', forth_run n w = Ok (-1) w' ∧ o_invalid (obj w') = true) ∧
  (size ≤ l_I v → aborts (interpret (S n) false v) w) ∧
  (size ≤ l_pc v →
   aborts (inner n v) w ∧ aborts (interpret (S n) true v) w) ∧
  (size ≤ l_f v →
   aborts (execute n LOAD v) w ∧ aborts (execute n STORE v) w) ∧
  (size ≤ l_I v → aborts (execute n JMP v) w) ∧
  (size ≤ cell_at m DIC →
   aborts (execute n COMPILE v) w ∧ aborts (execute n COMMA v) w) ∧
  (size ≤ cell (cell_at m RSTK + 1) →
   aborts (execute n RUN v) w ∧ aborts (execute n TOR v) w) ∧
  (size ≤ cell_at m RSTK → aborts (execute n EXIT v) w).
Proof.
  intros size m Hinv Hsize. subst size m.
  assert (in_image (obj w) 0 = true) as H0 by (apply in_image_iff; lia).
  assert (in_image (obj w) 1 = true) as H1 by (apply in_image_iff; lia).
  assert (∀ x, aborts (append x) w ∨ cell_at (o_m (obj w)) DIC
                                     < o_core_size (obj w)) as Happend.
  { intros x. destruct (Z.lt_ge_cases (cell_at (o_m (obj w)) DIC)
                          (o_core_size (obj w))); [by right|left].
    unfold append, DIC in *.
    eapply aborts_bind_r; [by apply load_ok|].
    eapply aborts_bind_r; [by apply store_ok|].
    by apply aborts_bind_l, aborts_check_bounds. }
  assert (∀ x, aborts (rpush x) w ∨ cell (cell_at (o_m (obj w)) RSTK + 1)
                                    < o_core_size (obj w)) as Hrpush.
  { intros x. destruct (Z.lt_ge_cases (cell (cell_at (o_m (obj w)) RSTK + 1))
                          (o_core_size (obj w))); [by right|left].
    unfold rpush, RSTK in *.
    eapply aborts_bind_r; [by apply load_ok|].
    eapply aborts_bind_r; [by apply store_ok|].
    by apply aborts_bind_l, aborts_check_bounds. }
  split; [intros f; apply aborts_check_bounds|].
  split; [intros f; apply check_bounds_ok|].
  split; [intros [w' H]; rewrite forth_run_valid, H by done; eauto|].
  split; [intros H; simpl; by apply aborts_bind_l, aborts_check_bounds|].
  split.
  { intros H. split; [by apply aborts_bind_l, aborts_check_bounds|].
    simpl. by apply aborts_bind_l, aborts_bind_l, aborts_check_bounds. }
  split.
  { intros H. split; by apply aborts_bind_l, aborts_check_bounds. }
  split; [intros H; by apply aborts_bind_l, aborts_check_bounds|].
  split.
  { intros H. split; apply aborts_bind_l;
      (destruct (Happend (l_pc v)) as [?|?]; [done|lia]) ||
      (destruct (Happend (l_f v)) as [?|?]; [done|lia]). }
  split.
  { intros H. split; apply aborts_bind_l;
      (destruct (Hrpush (l_I v)) as [?|?]; [done|lia]) ||
      (destruct (Hrpush (l_f v)) as [?|?]; [done|lia]). }
  intros H. apply aborts_bind_l. unfold rpop, RSTK in *.
  eapply aborts_bind_r; [by apply load_ok|].
  eapply aborts_bind_r; [by apply store_ok|].
  by apply aborts_bind_l, aborts_check_bounds.
Qed.

(** [*++S = f] with the stack pointer at the last cell of the image: the
    write is at the index [core_size], and no check precedes it. *)
Lemma push_at_last_cell v w :
  l_S v = o_core_size (obj w) - 1 →
  push v w = Undefined (OutOfImage (o_core_size (obj w))).
Proof.
  intros H. unfold push, store. unfold bind, get_obj. cbv beta. rewrite H.
  replace (o_core_size (obj w) - 1 + 1) with (o_core_size (obj w)) by lia.
  destruct (in_image (obj w) (o_core_size (obj w))) eqn:E; [|done].
  apply in_image_iff in E. lia.
Qed.

(** C1: the code misses the check on the parameter stack.  The assertion at
    the head of the interpreter's loop, [S > m && S < m + core_size], admits
    a stack pointer at the last cell of the image, and the pushes, [*++S = f],
    do not go through [check_bounds]: an instruction that pushes there, [DUP]
    for one, writes [m[core_size]] without any [longjmp].  On the fresh core
    the word [g], which pushes a cell in each turn of its loop, runs the
    stack pointer to the end of the image and writes past it; [forth_run]
    does not return -1, nor anything else the C standard defines. *)
Theorem unchecked_push_past_image :
  let w := with_input ": g begin dup 0 until ; g" fresh in
  forth_run 10000 w = Undefined (OutOfImage (o_core_size (obj w))) ∧
  (∀ r w', forth_run 10000 w ≠ Ok r w') ∧
  ∀ n v w0,
    0 < l_S v → l_S v = o_core_size (obj w0) - 1 →
    (0 <? l_S v) && (l_S v <? o_core_size (obj w0)) = true ∧
    execute n DUP v w0 = Undefined (OutOfImage (o_core_size (obj w0))) ∧
    ¬ aborts (execute n DUP v) w0.
Proof.
  intros w.
  assert (forth_run 10000 w = Undefined (OutOfImage (o_core_size (obj w))))
    as E by (vm_compute; reflexivity).
  split; [exact E|]. split; [intros r w'; by rewrite E|].
  intros n v w0 H0 HS.
  assert (execute n DUP v w0 = Undefined (OutOfImage (o_core_size (obj w0))))
    as E' by (cbn [execute]; unfold bind; by rewrite push_at_last_cell).
  split; [|split; [exact E'|]].
  - apply andb_true_iff. split; [apply Z.ltb_lt|apply Z.ltb_lt]; lia.
  - intros [w' H]. by rewrite E' in H.
Qed.

(** ** The dictionary pointer *)

Definition DIC_of (w : world) : Z := cell_at (o_m (obj w)) DIC.

(** The second world has the size, the string storage and the cell 0 of the
    first. *)
Definition same0 (w w' : world) : Prop :=
  o_core_size (obj w') = o_core_size (obj w) ∧
  o_s (obj w') = o_s (obj w) ∧
  DIC_of w' = DIC_of w.

(** The same, with a dictionary pointer that is not less. *)
Definition grows (w w' : world) : Prop :=
  o_core_size (obj w') = o_core_size (obj w) ∧
  o_s (obj w') = o_s (obj w) ∧
  DIC_of w ≤ DIC_of w'.

(** The dictionary pointer is not 0, the indices of the image fit a cell
    with room for an increment, and the string storage is past cell 0. *)
Definition dic_ok (w : world) : Prop :=
  0 < DIC_of w ∧ o_core_size (obj w) ≤ 65535 ∧ 2 ≤ o_s (obj w).

Definition keeps {A} (c : M A) (w : world) : Prop :=
  ∀ a w', c w = Ok a w' → same0 w w'.

Definition mono {A} (c : M A) (w : world) : Prop :=
  ∀ a w', c w = Ok a w' → dic_ok w → grows w w'.

Lemma same0_refl w : same0 w w.
Proof. by repeat split. Qed.

Lemma same0_trans w1 w2 w3 : same0 w1 w2 → same0 w2 w3 → same0 w1 w3.
Proof. unfold same0. intuition congruence. Qed.

Lemma same0_grows w w' : same0 w w' → grows w w'.
Proof. unfold same0, grows. intuition lia. Qed.

Lemma grows_trans w1 w2 w3 : grows w1 w2 → grows w2 w3 → grows w1 w3.
Proof. unfold grows. intuition (congruence || lia). Qed.

Lemma grows_dic_ok w w' : dic_ok w → grows w w' → dic_ok w'.
Proof. unfold dic_ok, grows. intuition (congruence || lia). Qed.

Lemma mono_of_keeps {A} (c : M A) w : keeps c w → mono c w.
Proof. intros H a w' E _. by apply same0_grows, (H a). Qed.

Lemma keeps_of_pure {A} (c : M A) w : pure c → keeps c w.
Proof. intros H a w' E. apply H in E as ->. apply same0_refl. Qed.

Lemma keeps_bind {A B} (c : M A) (k : A → M B) w :
  keeps c w →
  (∀ a w1, c w = Ok a w1 → same0 w w1 → keeps (k a) w1) →
  keeps (bind c k) w.
Proof.
  intros Hc Hk y w' (a & w1 & E1 & E2)%bind_Ok.
  eapply same0_trans; [by eapply Hc|]. eapply Hk; eauto.
Qed.

Lemma mono_bind {A B} (c : M A) (k : A → M B) w :
  mono c w →
  (∀ a w1, c w = Ok a w1 → dic_ok w1 → grows w w1 → mono (k a) w1) →
  dic_ok w → mono (bind c k) w.
Proof.
  intros Hc Hk Hw y w' (a & w1 & E1 & E2)%bind_Ok _.
  pose proof (Hc _ _ E1 Hw) as G.
  eapply grows_trans; [done|].
  eapply Hk; eauto using grows_dic_ok.
Qed.

Lemma keeps_bind_get_obj {B} (k : forth → M B) w :
  keeps (k (obj w)) w → keeps (bind get_obj k) w.
Proof. intros H y w'. rewrite bind_get_obj. apply H. Qed.

Lemma keeps_bind_get_env {B} (k : host → M B) w :
  keeps (k (env w)) w → keeps (bind get_env k) w.
Proof. intros H y w'. rewrite bind_get_env. apply H. Qed.

Lemma keeps_bind_load {B} i (k : Z → M B) w :
  (in_image (obj w) i = true → keeps (k (cell_at (o_m (obj w)) i)) w) →
  keeps (bind (load i) k) w.
Proof.
  intros H y w' (a & w1 & E1 & E2)%bind_Ok.
  apply load_Ok in E1 as (-> & -> & Hi). by eapply H.
Qed.

Lemma check_bounds_Ok f w a w' :
  check_bounds f w = Ok a w' → a = f ∧ w' = w ∧ f < o_core_size (obj w).
Proof.
  unfold check_bounds. rewrite bind_get_obj.
  destruct (Z.geb_spec f (o_core_size (obj w))).
  - intros (? & ? & _ & [=])%bind_Ok.
  - intros [= <- <-]. repeat split; lia.
Qed.

Lemma keeps_bind_check_bounds {B} f (k : Z → M B) w :
  (f < o_core_size (obj w) → keeps (k f) w) →
  keeps (bind (check_bounds f) k) w.
Proof.
  intros H y w' (a & w1 & E1 & E2)%bind_Ok.
  apply check_bounds_Ok in E1 as (-> & -> & Hi). by eapply H.
Qed.

Lemma store_Ok i x w a w' :
  store i x w = Ok a w' → in_image (obj w) i = true ∧ w' = wstore i x w.
Proof.
  unfold store. rewrite bind_get_obj.
  destruct (in_image (obj w) i); [|discriminate]. by intros [= _ <-].
Qed.

Lemma DIC_of_wstore i x w :
  DIC_of (wstore i x w) = if decide (i = 0) then x else DIC_of w.
Proof. apply cell_at_wstore. Qed.

Lemma keeps_ret {A} (a : A) w : keeps (ret a) w.
Proof. intros ? ? [= _ <-]. apply same0_refl. Qed.
Lemma keeps_longjmp {A} w : keeps (@longjmp A) w.
Proof. intros ? ? [=]. Qed.
Lemma keeps_undefined {A} u w : keeps (@undefined A u) w.
Proof. intros ? ? [=]. Qed.
Lemma keeps_abort {A} w : keeps (@abort A) w.
Proof. intros ? ? [=]. Qed.
Lemma keeps_timeout {A} w : keeps (@timeout A) w.
Proof. intros ? ? [=]. Qed.
Lemma keeps_modify_env g w : keeps (modify_env g) w.
Proof. intros ? ? [= _ <-]. by repeat split. Qed.
Lemma keeps_modify_obj g w :
  (∀ o, o_core_size (g o) = o_core_size o ∧ o_s (g o) = o_s o ∧
        o_m (g o) = o_m o) →
  keeps (modify_obj g) w.
Proof.
  intros H ? ? [= _ <-]. destruct (H (obj w)) as (? & ? & Hm).
  unfold same0, DIC_of. simpl. rewrite Hm. done.
Qed.
Lemma keeps_load i w : keeps (load i) w.
Proof. apply keeps_of_pure, pure_load. Qed.
Lemma keeps_check_bounds f w : keeps (check_bounds f) w.
Proof. intros a w' (_ & -> & _)%check_bounds_Ok. apply same0_refl. Qed.
Lemma keeps_store i x w : i ≠ 0 → keeps (store i x) w.
Proof.
  intros Hi a w' (_ & ->)%store_Ok. unfold same0.
  rewrite DIC_of_wstore, decide_False by done. done.
Qed.

Create HintDb keeps.
#[export] Hint Resolve keeps_ret keeps_longjmp keeps_undefined keeps_abort
  keeps_timeout keeps_modify_env keeps_load keeps_check_bounds : keeps.
#[export] Hint Extern 1 (keeps (modify_obj _) _) =>
  apply keeps_modify_obj; intro; repeat split : keeps.

(** Side conditions: arithmetic over the facts collected on the way. *)
Ltac dic_side :=
  repeat match goal with
         | H : same0 _ _ |- _ => destruct H as (? & ? & ?)
         | H : grows _ _ |- _ => destruct H as (? & ? & ?)
         | H : dic_ok _ |- _ => destruct H as (? & ? & ?)
         | H : in_image _ _ = true |- _ => apply in_image_iff in H
         end;
  unfold DIC, RSTK, STATE, HEX, PWD, cell_bytes, DICTIONARY_START in *;
  simpl l_S in *; simpl l_f in *; simpl l_I in *; simpl l_pc in *;
  try lia.

#[export] Hint Extern 1 (keeps (store _ _) _) =>
  apply keeps_store; dic_side : keeps.

Ltac keeps_step :=
  lazymatch goal with
  | |- keeps (bind get_obj _) _ => apply keeps_bind_get_obj
  | |- keeps (bind get_env _) _ => apply keeps_bind_get_env
  | |- keeps (bind (load _) _) _ => apply keeps_bind_load; intros ?
  | |- keeps (bind (check_bounds _) _) _ =>
      apply keeps_bind_check_bounds; intros ?
  | |- keeps (bind _ _) _ => apply keeps_bind; [|intros ? ? _ ?]
  | |- keeps (if ?c then _ else _) _ => destruct c eqn:?
  | |- keeps (match ?x with _ => _ end) _ => destruct x eqn:?
  | |- keeps _ _ => solve [eauto with keeps]
  end.
Ltac keeps_tac := repeat keeps_step.

Lemma keeps_assert c w : keeps (assert c) w.
Proof. unfold assert. keeps_tac. Qed.
Lemma keeps_report d w : keeps (report d) w.
Proof. unfold report. keeps_tac. Qed.
Lemma keeps_load8 k w : keeps (load8 k) w.
Proof. apply keeps_of_pure, pure_load8. Qed.
#[export] Hint Resolve keeps_assert keeps_report keeps_load8 : keeps.

Lemma keeps_store8 k x w : 2 ≤ k → keeps (store8 k x) w.
Proof.
  intros Hk. unfold store8. keeps_tac.
  apply keeps_store. unfold cell_bytes.
  assert (1 ≤ k / 2) by (apply Z.div_le_lower_bound; lia). lia.
Qed.

Lemma keeps_store_bytes s : ∀ p w, 2 ≤ p → keeps (store_bytes p s) w.
Proof.
  induction s as [|c s IH]; intros p w Hp; simpl; keeps_tac.
  - by apply keeps_store8.
  - apply IH. lia.
Qed.

Lemma keeps_store_string p s w : 2 ≤ p → keeps (store_string p s) w.
Proof. apply keeps_store_bytes. Qed.

#[export] Hint Extern 1 (keeps (store_bytes _ _) _) =>
  apply keeps_store_bytes; dic_side : keeps.
#[export] Hint Extern 1 (keeps (store_string _ _) _) =>
  apply keeps_store_string; dic_side : keeps.

Lemma pure_load_bytes n : ∀ p, pure (load_bytes n p).
Proof. induction n; intros p; simpl; pure_tac. Qed.

Lemma keeps_load_bytes n p w : keeps (load_bytes n p) w.
Proof. apply keeps_of_pure, pure_load_bytes. Qed.
Lemma keeps_load_string p w : keeps (load_string p) w.
Proof. apply keeps_of_pure, pure_load_string. Qed.
Lemma keeps_strcmp p q w : keeps (strcmp p q) w.
Proof. apply keeps_of_pure, pure_strcmp. Qed.
Lemma keeps_find n w : keeps (find n) w.
Proof. apply keeps_of_pure, pure_find. Qed.
#[export] Hint Resolve keeps_load_bytes keeps_load_string keeps_strcmp
  keeps_find : keeps.

Lemma keeps_fgetc w : keeps fgetc w.
Proof. unfold fgetc. keeps_tac. Qed.
#[export] Hint Resolve keeps_fgetc : keeps.
Lemma keeps_forth_get_char w : keeps forth_get_char w.
Proof. unfold forth_get_char. keeps_tac. Qed.
Lemma keeps_fputc c w : keeps (fputc c) w.
Proof. unfold fputc. keeps_tac. Qed.
Lemma keeps_fputs s w : keeps (fputs s) w.
Proof. unfold fputs. keeps_tac. Qed.
#[export] Hint Resolve keeps_forth_get_char keeps_fputc keeps_fputs : keeps.

Lemma keeps_forth_get_word p w : 2 ≤ p → keeps (forth_get_word p) w.
Proof. intros Hp. unfold forth_get_word. keeps_tac. Qed.
#[export] Hint Extern 1 (keeps (forth_get_word _) _) =>
  apply keeps_forth_get_word; dic_side : keeps.

Lemma keeps_comment_loop n : ∀ w, keeps (comment_loop n) w.
Proof. induction n; intros w; simpl; keeps_tac. Qed.
#[export] Hint Resolve keeps_comment_loop : keeps.
Lemma keeps_comment w : keeps comment w.
Proof. unfold comment. keeps_tac. Qed.
Lemma keeps_print_stack_loop n : ∀ S w, keeps (print_stack_loop n S) w.
Proof. induction n; intros S w; simpl; keeps_tac. Qed.
#[export] Hint Resolve keeps_comment keeps_print_stack_loop : keeps.
Lemma keeps_print_stack f S w : keeps (print_stack f S) w.
Proof. unfold print_stack. keeps_tac. Qed.
#[export] Hint Resolve keeps_print_stack : keeps.

Lemma keeps_blockio_transfer poffset id rw w :
  (rw = 114 → 2 ≤ poffset) → keeps (blockio_transfer poffset id rw) w.
Proof.
  intros H. unfold blockio_transfer.
  destruct (Z.eqb_spec rw 114) as [E|E]; keeps_tac.
Qed.

Lemma keeps_blockio poffset id rw w :
  (rw = 114 → 2 ≤ poffset) → keeps (blockio poffset id rw) w.
Proof.
  intros H. unfold blockio. keeps_tac. by apply keeps_blockio_transfer.
Qed.

Lemma keeps_push v w : l_S v + 1 ≠ 0 → keeps (push v) w.
Proof. intros H. unfold push. keeps_tac. Qed.
Lemma keeps_pop v w : keeps (pop v) w.
Proof. unfold pop. keeps_tac. Qed.
Lemma keeps_binary op v w : keeps (binary op v) w.
Proof. unfold binary. keeps_tac. Qed.
#[export] Hint Resolve keeps_pop keeps_binary : keeps.
#[export] Hint Extern 1 (keeps (push _) _) =>
  apply keeps_push; dic_side : keeps.

Lemma keeps_rpop w : keeps rpop w.
Proof. unfold rpop. keeps_tac. Qed.
#[export] Hint Resolve keeps_rpop : keeps.

Lemma keeps_rpush x w :
  cell (cell_at (o_m (obj w)) RSTK + 1) ≠ 0 → keeps (rpush x) w.
Proof. intros H. unfold rpush. keeps_tac. Qed.

Lemma keeps_read_word n w : 2 ≤ o_s (obj w) → keeps (read_word n) w.
Proof. intros H. unfold read_word. keeps_tac. Qed.

#[export] Hint Extern 1 (keeps (rpush _) _) =>
  apply keeps_rpush; assumption : keeps.
#[export] Hint Extern 1 (keeps (read_word _) _) =>
  apply keeps_read_word; dic_side : keeps.
#[export] Hint Extern 1 (keeps (blockio _ _ _) _) =>
  apply keeps_blockio; intros; dic_side : keeps.

Lemma cell_small x : 0 ≤ x < 65536 → cell x = x.
Proof. intros H. unfold cell. by apply Z.mod_small. Qed.

Lemma mono_append_unchecked x w : mono (append_unchecked x) w.
Proof.
  intros a w' E (Hd & Hsz & Hs). unfold append_unchecked in E.
  apply bind_Ok in E as (d & w1 & E1 & E).
  apply load_Ok in E1 as (-> & -> & H0).
  apply bind_Ok in E as (? & w2 & E2 & E). apply store_Ok in E2 as (_ & ->).
  apply store_Ok in E as (Hi & ->). apply in_image_iff in Hi. simpl in Hi.
  unfold grows, DIC_of, DIC in *. simpl.
  split; [done|]. split; [done|].
  rewrite !cell_at_insert, decide_False, decide_True by lia.
  rewrite cell_small; lia.
Qed.

Lemma mono_append x w : mono (append x) w.
Proof.
  intros a w' E (Hd & Hsz & Hs). unfold append in E.
  apply bind_Ok in E as (d & w1 & E1 & E).
  apply load_Ok in E1 as (-> & -> & H0).
  apply bind_Ok in E as (? & w2 & E2 & E). apply store_Ok in E2 as (_ & ->).
  apply bind_Ok in E as (i & w3 & E3 & E).
  apply check_bounds_Ok in E3 as (-> & -> & _).
  apply store_Ok in E as (Hi & ->). apply in_image_iff in Hi. simpl in Hi.
  unfold grows, DIC_of, DIC in *. simpl.
  split; [done|]. split; [done|].
  rewrite !cell_at_insert, decide_False, decide_True by lia.
  rewrite cell_small; lia.
Qed.

Create HintDb mono.
#[export] Hint Resolve mono_append_unchecked mono_append : mono.

Ltac mono_step :=
  lazymatch goal with
  | |- mono (bind _ _) _ =>
      apply mono_bind; [|intros ? ? _ ? ?|assumption]
  | |- mono (if ?c then _ else _) _ => destruct c eqn:?
  | |- mono (match ?x with _ => _ end) _ => destruct x eqn:?
  | |- mono _ _ =>
      first [solve [eauto with mono]
            |apply mono_of_keeps; solve [keeps_tac]]
  end.
Ltac mono_tac := repeat mono_step.

(** A string stored in the image ends inside it. *)
Lemma store_bytes_in_image s : ∀ p w w',
  store_bytes p s w = Ok tt w' → s ≠ [] → 0 ≤ p →
  (p + Z.of_nat (length s) - 1) / cell_bytes < o_core_size (obj w).
Proof.
  induction s as [|c s IH]; intros p w w' E Hs Hp; [done|].
  simpl in E. apply bind_Ok in E as ([] & w1 & E1 & E).
  pose proof (preserves_store8 p c w) as P. rewrite E1 in P.
  destruct P as (_ & _ & Hc & _).
  destruct s as [|c' s].
  - unfold store8 in E1. apply bind_Ok in E1 as (x & w2 & E1 & _).
    apply load_Ok in E1 as (_ & _ & Hi). apply in_image_iff in Hi.
    change (Z.of_nat (length [c])) with 1.
    replace (p + 1 - 1) with p by lia. lia.
  - specialize (IH (p + 1) w1 w' E ltac:(done) ltac:(lia)).
    rewrite Hc in IH.
    replace (p + Z.of_nat (length (c :: c' :: s)) - 1)
      with (p + 1 + Z.of_nat (length (c' :: s)) - 1)
      by (cbn [length]; lia). done.
Qed.

Lemma land_lnot_1 x : Z.land x (Z.lnot 1) = 2 * (x / 2).
Proof.
  rewrite <- Z.ldiff_land. change 1 with (Z.ones 1) at 1.
  rewrite Z.ldiff_ones_r by lia.
  rewrite Z.shiftl_mul_pow2, Z.shiftr_div_pow2 by lia.
  change (2 ^ 1) with 2. lia.
Qed.

Lemma mono_compile code str w : mono (compile code str) w.
Proof.
  intros y w' E Hok. unfold compile in E.
  apply bind_Ok in E as ([] & w1 & E1 & E).
  assert (w1 = w) as ->.
  { unfold assert in E1. destruct (_ && _); by inversion E1. }
  clear E1.
  apply bind_Ok in E as (header & w1 & E1 & E).
  apply load_Ok in E1 as (-> & -> & _). fold (DIC_of w) in E.
  rewrite bind_get_obj in E.
  apply bind_Ok in E as (r & w1 & E1 & E).
  assert (same0 w w1) as H1.
  { match type of E1 with ?c _ = _ => assert (keeps c w) as Hk end.
    { destruct Hok as (? & ? & ?). keeps_tac. }
    exact (Hk _ _ E1). }
  clear E1. destruct r as [s|].
  2: { inversion E; subst. by apply same0_grows. }
  apply bind_Ok in E as ([] & w2 & E2 & E).
  pose proof Hok as (Hd & Hsz & Hs).
  assert (same0 w1 w2) as H2.
  { eapply keeps_store_string; [|exact E2]. unfold cell_bytes. lia. }
  apply store_bytes_in_image in E2; [|by destruct s|unfold cell_bytes; lia].
  rewrite length_app in E2. simpl length in E2.
  destruct H1 as (Hc1 & Hs1 & Hd1), H2 as (Hc2 & Hs2 & Hd2).
  rewrite Hc1 in E2. unfold cell_bytes in E, E2.
  replace (2 * DIC_of w + Z.of_nat (length s + 1) - 1)
    with (Z.of_nat (length s) + DIC_of w * 2) in E2 by lia.
  rewrite Z.div_add in E2 by lia.
  change (2 - 1) with 1 in E. rewrite land_lnot_1 in E.
  rewrite (Z.mul_comm 2), Z.div_mul in E by lia.
  replace ((Z.of_nat (length s) + 1 + 1) / 2)
    with (Z.of_nat (length s) / 2 + 1) in E
    by (replace (Z.of_nat (length s) + 1 + 1)
          with (Z.of_nat (length s) + 1 * 2) by lia;
        rewrite Z.div_add by lia; lia).
  set (l := Z.of_nat (length s) / 2 + 1) in *.
  assert (0 < l) by (subst l; pose proof (Z.div_pos (Z.of_nat (length s)) 2);
                     lia).
  apply bind_Ok in E as (d & w3 & E3 & E).
  apply load_Ok in E3 as (-> & -> & _). fold (DIC_of w2) in E.
  apply bind_Ok in E as ([] & w3 & E3 & E).
  apply store_Ok in E3 as (_ & ->).
  assert (grows w (wstore DIC (cell (DIC_of w2 + l)) w2)) as G.
  { unfold grows. simpl. split; [congruence|]. split; [congruence|].
    rewrite DIC_of_wstore, decide_True by done.
    rewrite cell_small; lia. }
  eapply grows_trans; [exact G|].
  pose proof (grows_dic_ok _ _ Hok G) as Hok3.
  match type of E with ?c ?w3 = _ => assert (mono c w3) as Hm end.
  { mono_tac. }
  exact (Hm _ _ E Hok3).
Qed.
#[export] Hint Resolve mono_compile : mono.

(** C3 fails as stated: [IMMEDIATE] rewinds the dictionary pointer by 2 and
    advances it by 1.  On the fresh core, after [: x], the pointer is 652,
    and 651 after the primitive, run alone or by [forth_run] on the input
    [immediate]. *)
Lemma IMMEDIATE_lowers_DIC_counterexample :
  let w := after_eval ": x" fresh in
  let v := Locals 71 (o_S (obj w)) 67 (o_top (obj w)) in
  DIC_of w = 652 ∧
  value_of (execute 0 IMMEDIATE v w) = Some (Break v) ∧
  DIC_of (world_of (execute 0 IMMEDIATE v w) w) = 651 ∧
  value_of (forth_eval 1000 (bytes "immediate") w) = Some 0 ∧
  DIC_of (after_eval "immediate" w) = 651.
Proof. vm_compute. repeat split; reflexivity. Qed.

(** [IMMEDIATE] with a dictionary pointer above 2: it takes 2 off, rewrites
    the code cell of the header there, which is not cell 0, and adds 1. *)
Lemma IMMEDIATE_rewinds n v w c w' :
  execute n IMMEDIATE v w = Ok c w' →
  2 < DIC_of w < 65536 →
  DIC_of w' = DIC_of w - 1.
Proof.
  intros E Hd. cbn [execute] in E. unfold DIC_of, DIC in *.
  apply bind_Ok in E as (d & w1 & E1 & E).
  apply load_Ok in E1 as (-> & -> & _).
  apply bind_Ok in E as ([] & w1 & E1 & E). apply store_Ok in E1 as [_ ->].
  apply bind_Ok in E as (d & w1 & E1 & E).
  apply load_Ok in E1 as (-> & -> & _).
  rewrite cell_at_wstore, decide_True in E by done.
  rewrite cell_small in E by lia.
  apply bind_Ok in E as (x & w1 & E1 & E).
  apply load_Ok in E1 as (-> & -> & _).
  apply bind_Ok in E as ([] & w1 & E1 & E). apply store_Ok in E1 as [_ ->].
  apply bind_Ok in E as (d & w1 & E1 & E).
  apply load_Ok in E1 as (-> & -> & _).
  apply bind_Ok in E as ([] & w1 & E1 & E). apply store_Ok in E1 as [_ ->].
  injection E as _ <-.
  repeat first [rewrite cell_at_wstore | rewrite cell_at_insert
               |rewrite decide_True by lia | rewrite decide_False by lia
               |rewrite cell_small by lia].
  lia.
Qed.

(** C3, amended: the dictionary pointer is not decreased by any primitive
    other than [IMMEDIATE] that completes, provided the primitive does not
    write cell 0 itself ([STORE] at address 0, [BLOAD] over byte 0 or 1):
    for a core of at most 65535 cells whose dictionary pointer is not 0,
    whose string storage starts past cell 0, whose stack pointer is above 0
    and whose return stack pointer is not about to wrap around to cell 0.
    On such a core [IMMEDIATE], with a dictionary pointer above 2, lowers the
    pointer by exactly 1. *)
Theorem DIC_nondecreasing n i v w c w' :
  execute n i v w = Ok c w' →
  dic_ok w →
  0 < l_S v →
  cell (cell_at (o_m (obj w)) RSTK + 1) ≠ 0 →
  (i = STORE → l_f v ≠ 0) →
  (i = BLOAD → 2 ≤ cell_at (o_m (obj w)) (l_S v)) →
  (i = IMMEDIATE → 2 < DIC_of w < 65536) →
  match i with
  | IMMEDIATE => DIC_of w' = DIC_of w - 1
  | _ => DIC_of w ≤ DIC_of w'
  end.
Proof.
  intros E Hok HS HR Hst Hbl Him.
  assert (i = IMMEDIATE ∨ i ≠ IMMEDIATE) as [->|Hi]
    by (destruct i; (by left) || (by right)).
  { by eapply IMMEDIATE_rewinds; [exact E|apply Him]. }
  enough (DIC_of w ≤ DIC_of w') by (by destruct i).
  enough (mono (execute n i v) w) as Hm by (by eapply Hm).
  clear E Him. destruct i; try done; cbn [execute];
    try specialize (Hst eq_refl); try specialize (Hbl eq_refl);
    first [apply mono_of_keeps; solve [keeps_tac] | solve [mono_tac]].
Qed.

(** A small core in the middle of a definition, its dictionary pointer at
    cell 70. *)
Definition defining_core : world :=
  World (Forth [] [] (cell_bytes * STRING_OFFSET) [] 128 2 0 0 false false
               (DICTIONARY_START + 2) 0 100
               (<[DIC := 70]> (<[RSTK := 110]> (<[STATE := 1]> ∅))))
        host0.

(** The theorem at [DEFINE] on the fresh core, with the name [x] in the
    input: the header of [x] and a [RUN] cell are appended; and at
    [IMMEDIATE] on the small core: the pointer goes from 70 to 69. *)
Lemma DIC_nondecreasing_witness :
  (let w := with_input "x" fresh in
   let v := Locals 70 (o_S (obj w)) 67 (o_top (obj w)) in
   DIC_of w ≤ DIC_of (world_of (execute 100 DEFINE v w) w)) ∧
  (let v := Locals 71 100 67 0 in
   DIC_of (world_of (execute 0 IMMEDIATE v defining_core) defining_core)
   = DIC_of defining_core - 1).
Proof.
  split.
  - intros w v.
    refine (DIC_nondecreasing 100 DEFINE v w (Break v) _ _ _ _ _ _ _ _).
    + apply Ok_world_of. vm_compute. reflexivity.
    + unfold dic_ok. split; [|split]; vm_compute; (reflexivity || discriminate).
    + vm_compute. reflexivity.
    + vm_compute. discriminate.
    + intros [=].
    + intros [=].
    + intros [=].
  - intros v.
    refine (DIC_nondecreasing 0 IMMEDIATE v defining_core (Break v) _
              _ _ _ _ _ _ _).
    + apply Ok_world_of. vm_compute. reflexivity.
    + unfold dic_ok. split; [|split]; vm_compute; (reflexivity || discriminate).
    + vm_compute. reflexivity.
    + vm_compute. discriminate.
    + intros [=].
    + intros [=].
    + intros _. vm_compute. split; reflexivity.
Defined.

Example DEFINE_raises_DIC :
  let w := with_input "x" fresh in
  let v := Locals 70 (o_S (obj w)) 67 (o_top (obj w)) in
  DIC_of w = 648 ∧ DIC_of (world_of (execute 100 DEFINE v w) w) = 652.
Proof. vm_compute. split; reflexivity. Qed.

(** ** Strings stored in the image *)

(** The byte at byte offset [k] of the image [m]. *)
Definition byte_at (m : gmap Z Z) (k : Z) : Z :=
  byte_of_cell (cell_at m (k / cell_bytes)) (k mod cell_bytes).

(** The image after the bytes [s] are stored from byte offset [p] on. *)
Fixpoint mem_store_bytes (m : gmap Z Z) (p : Z) (s : list Z) : gmap Z Z :=
  match s with
  | [] => m
  | c :: s' =>
      mem_store_bytes
        (<[p / cell_bytes :=
             cell_with_byte (cell_at m (p / cell_bytes)) (p mod cell_bytes) c]>
           m)
        (p + 1) s'
  end.

Lemma world_eta w : World (set_m (o_m (obj w)) (obj w)) (env w) = w.
Proof. by destruct w as [[] ?]. Qed.

Lemma in_image_byte k w :
  0 ≤ k < cell_bytes * o_core_size (obj w) →
  in_image (obj w) (k / cell_bytes) = true.
Proof.
  intros H. apply in_image_iff. unfold cell_bytes in *. split.
  - apply Z.div_pos; lia.
  - apply Z.div_lt_upper_bound; lia.
Qed.

Lemma store8_ok k x w :
  0 ≤ k < cell_bytes * o_core_size (obj w) →
  store8 k x w =
  Ok tt (wstore (k / cell_bytes)
           (cell_with_byte (cell_at (o_m (obj w)) (k / cell_bytes))
              (k mod cell_bytes) x) w).
Proof.
  intros H. unfold store8.
  rewrite (bind_eq _ _ w _ _ (load_ok _ w (in_image_byte k w H))).
  by apply store_ok, in_image_byte.
Qed.

Lemma store_bytes_ok s : ∀ p w,
  0 ≤ p → p + Z.of_nat (length s) ≤ cell_bytes * o_core_size (obj w) →
  store_bytes p s w =
  Ok tt (World (set_m (mem_store_bytes (o_m (obj w)) p s) (obj w)) (env w)).
Proof.
  induction s as [|c s IH]; intros p w Hp Hl; simpl.
  - unfold ret. by rewrite world_eta.
  - cbn [length] in Hl. rewrite Nat2Z.inj_succ in Hl.
    rewrite (bind_eq _ _ w _ _ (store8_ok p c w ltac:(lia))).
    rewrite IH; [done|lia|]. cbn [wstore obj set_m o_core_size]. lia.
Qed.

Lemma byte_at_insert m p c k :
  byte_at (<[p / cell_bytes :=
               cell_with_byte (cell_at m (p / cell_bytes)) (p mod cell_bytes) c]>
             m) k
  = if k =? p then c mod 256 else byte_at m k.
Proof.
  unfold byte_at, cell_bytes. rewrite cell_at_insert.
  destruct (Z.eqb_spec k p) as [->|Hne].
  - rewrite decide_True by done. unfold byte_of_cell, cell_with_byte.
    destruct (p mod 2 =? 0).
    + rewrite Z.add_comm, Z.mod_add by lia. apply Z.mod_mod. lia.
    + rewrite Z.add_comm, Z.div_add by lia.
      rewrite (Z.div_small (_ mod 256)) by (apply Z.mod_pos_bound; lia).
      rewrite Z.add_0_l. apply Z.mod_mod. lia.
  - destruct (decide (p / 2 = k / 2)) as [E|E]; [|done].
    rewrite E. unfold byte_of_cell, cell_with_byte.
    assert (p mod 2 ≠ k mod 2) as Hm.
    { intros Hm. apply Hne. rewrite (Z.div_mod k 2), (Z.div_mod p 2) by lia.
      congruence. }
    pose proof (Z.mod_pos_bound p 2 ltac:(lia)).
    pose proof (Z.mod_pos_bound k 2 ltac:(lia)).
    destruct (Z.eqb_spec (k mod 2) 0) as [Hk|Hk];
      destruct (Z.eqb_spec (p mod 2) 0) as [Hp|Hp]; try lia.
    + rewrite Z.add_comm, Z.mod_add by lia. apply Z.mod_mod. lia.
    + rewrite Z.add_comm, Z.div_add by lia.
      rewrite (Z.div_small (_ mod 256)) by (apply Z.mod_pos_bound; lia).
      rewrite Z.add_0_l. apply Z.mod_mod. lia.
Qed.

Lemma byte_at_store_bytes s : ∀ m p k,
  byte_at (mem_store_bytes m p s) k
  = if (p <=? k) && (k <? p + Z.of_nat (length s))
    then char_at s (Z.to_nat (k - p)) mod 256
    else byte_at m k.
Proof.
  induction s as [|c s IH]; intros m p k.
  - cbn [mem_store_bytes length]. change (Z.of_nat 0) with 0.
    destruct (Z.leb_spec p k), (Z.ltb_spec k (p + 0)); simpl; try done; lia.
  - cbn [mem_store_bytes length]. rewrite IH, byte_at_insert.
    rewrite Nat2Z.inj_succ.
    destruct (Z.eqb_spec k p) as [->|Hne].
    + replace (p - p) with 0 by lia.
      change (char_at (c :: s) (Z.to_nat 0)) with c.
      destruct (Z.leb_spec (p + 1) p), (Z.leb_spec p p),
        (Z.ltb_spec p (p + Z.succ (Z.of_nat (length s))));
        simpl; try done; lia.
    + destruct (Z.leb_spec (p + 1) k), (Z.leb_spec p k),
        (Z.ltb_spec k (p + 1 + Z.of_nat (length s))),
        (Z.ltb_spec k (p + Z.succ (Z.of_nat (length s))));
        simpl; try done; try lia.
      replace (Z.to_nat (k - p)) with (S (Z.to_nat (k - (p + 1)))) by lia.
      done.
Qed.

Lemma cell_at_store_bytes_other s : ∀ m p i,
  0 ≤ p →
  i < p / cell_bytes ∨ (p + Z.of_nat (length s) - 1) / cell_bytes < i →
  cell_at (mem_store_bytes m p s) i = cell_at m i.
Proof.
  induction s as [|c s IH]; intros m p i Hp Hi; [done|].
  cbn [mem_store_bytes length] in *. rewrite Nat2Z.inj_succ in Hi.
  unfold cell_bytes in *.
  assert (p / 2 ≤ (p + 1) / 2) by (apply Z.div_le_mono; lia).
  assert (p / 2 ≤ (p + Z.succ (Z.of_nat (length s)) - 1) / 2)
    by (apply Z.div_le_mono; lia).
  rewrite IH.
  - rewrite cell_at_insert, decide_False; [done|lia].
  - lia.
  - replace (p + 1 + Z.of_nat (length s) - 1)
      with (p + Z.succ (Z.of_nat (length s)) - 1) by lia. lia.
Qed.

(** Reading back a string that is in the image. *)
Lemma load_string_loop_ok s : ∀ fuel p w,
  Forall (λ c, c ≠ 0) s →
  (∀ j, (j < length s)%nat →
        byte_at (o_m (obj w)) (p + Z.of_nat j) = char_at s j) →
  byte_at (o_m (obj w)) (p + Z.of_nat (length s)) = 0 →
  0 ≤ p → p + Z.of_nat (length s) < cell_bytes * o_core_size (obj w) →
  (length s < fuel)%nat →
  load_string_loop fuel p w = Ok s w.
Proof.
  induction s as [|c s IH]; intros fuel p w Hs Hb H0 Hp Hl Hf;
    (destruct fuel as [|fuel]; [simpl in Hf; lia|]);
    cbn [load_string_loop length] in *.
  - change (Z.of_nat 0) with 0 in *. rewrite Z.add_0_r in *.
    rewrite (bind_eq _ _ w _ _ (load8_ok p w ltac:(lia))).
    fold (byte_at (o_m (obj w)) p). by rewrite H0.
  - apply Forall_cons in Hs as [Hc Hs]. rewrite Nat2Z.inj_succ in *.
    rewrite (bind_eq _ _ w _ _ (load8_ok p w ltac:(lia))).
    fold (byte_at (o_m (obj w)) p).
    pose proof (Hb 0%nat ltac:(lia)) as Hb0.
    change (Z.of_nat 0) with 0 in Hb0. rewrite Z.add_0_r in Hb0.
    rewrite Hb0. change (char_at (c :: s) 0) with c.
    destruct (Z.eqb_spec c 0); [done|].
    rewrite (bind_eq _ _ w _ _ (IH fuel (p + 1) w Hs
      ltac:(intros j Hj; specialize (Hb (S j) ltac:(lia));
            rewrite Nat2Z.inj_succ in Hb;
            replace (p + 1 + Z.of_nat j) with (p + Z.succ (Z.of_nat j))
              by lia; exact Hb)
      ltac:(replace (p + 1 + Z.of_nat (length s))
              with (p + Z.succ (Z.of_nat (length s))) by lia; exact H0)
      ltac:(lia) ltac:(lia) ltac:(lia))).
    done.
Qed.

(** ** Number literals *)

(** The decimal and the hexadecimal literal for [n], as [%u] and [%x] print
    them. *)
Definition dec_literal (n : Z) : list Z := fmt_u n.
Definition hex_literal (n : Z) : list Z := bytes "0x" ++ fmt_x n.

(** What the interpreter needs of a literal [lit] for the cell [n]: it is a
    number with the value [n], and a word of at most 6 bytes, none of them
    NUL, that [scanf] reads as a whole. *)
Definition literal_ok (n : Z) (lit : list Z) : bool :=
  is_number lit && (cell (strtol lit) =? n)
  && bool_decide (scan_word (cstring lit)
                  = Some (lit, [], Z.of_nat (length lit)))
  && (length lit <=? 6)%nat
  && forallb (λ c, (0 <? c) && (c <? 256)) lit.

(** [P] holds of the [k] integers from [n] on. *)
Fixpoint all_from (k : nat) (n : Z) (P : Z → bool) : bool :=
  match k with
  | O => true
  | S k' => if P n then all_from k' (n + 1) P else false
  end.

Lemma all_from_spec k : ∀ n P,
  all_from k n P = true → ∀ i, n ≤ i < n + Z.of_nat k → P i = true.
Proof.
  induction k as [|k IH]; intros n P H i Hi; [lia|].
  simpl in H. destruct (P n) eqn:E; [|discriminate].
  destruct (decide (i = n)) as [->|]; [done|].
  apply (IH (n + 1) P H). lia.
Qed.

(** The literals of all cells, checked by evaluation. *)
Lemma literals_ok :
  all_from (Z.to_nat 65536) 0
    (λ n, literal_ok n (dec_literal n) && literal_ok n (hex_literal n))
  = true.
Proof. vm_compute. reflexivity. Qed.

Lemma literal_ok_of n lit :
  0 ≤ n < 65536 → lit = dec_literal n ∨ lit = hex_literal n →
  literal_ok n lit = true.
Proof.
  intros Hn Hl.
  pose proof (all_from_spec _ _ _ literals_ok n ltac:(lia)) as H.
  apply andb_true_iff in H as [H1 H2]. by destruct Hl as [->| ->].
Qed.

Lemma literal_ok_facts n lit :
  literal_ok n lit = true →
  is_number lit = true ∧ cell (strtol lit) = n ∧
  scan_word (cstring lit) = Some (lit, [], Z.of_nat (length lit)) ∧
  (length lit ≤ 6)%nat ∧ Forall (λ c, 0 < c < 256) lit.
Proof.
  unfold literal_ok. rewrite !andb_true_iff.
  intros ((((H1 & H2) & H3) & H4) & H5).
  repeat split; [done|by apply Z.eqb_eq|by apply bool_decide_eq_true_1 in H3
                |by apply Nat.leb_le|].
  apply Forall_forall. intros c Hc.
  rewrite forallb_forall in H5. apply list_elem_of_In in Hc.
  apply H5 in Hc. apply andb_true_iff in Hc as [? ?]. lia.
Qed.

(** ** The string variant of the tokenizer *)

Lemma forth_get_word_string p w wd rest cnt :
  o_stringin (obj w) = true →
  0 ≤ o_sidx (obj w) ≤ Z.of_nat (length (o_sin (obj w))) →
  scan_word (cstring (drop (Z.to_nat (o_sidx (obj w))) (o_sin (obj w))))
  = Some (wd, rest, cnt) →
  0 ≤ p →
  p + Z.of_nat (length wd) + 1 ≤ cell_bytes * o_core_size (obj w) →
  forth_get_word p w =
  Ok cnt
     (World (set_sidx (o_sidx (obj w) + cnt)
               (set_m (mem_store_bytes (o_m (obj w)) p (wd ++ [0])) (obj w)))
        (env w)).
Proof.
  intros Hs Hi Hscan Hp Hl. unfold forth_get_word.
  rewrite bind_get_obj, Hs.
  destruct (Z.leb_spec 0 (o_sidx (obj w))); [|lia].
  destruct (Z.leb_spec (o_sidx (obj w)) (Z.of_nat (length (o_sin (obj w)))));
    [|lia].
  cbn [andb]. rewrite Hscan. unfold store_string.
  rewrite (bind_eq _ _ w _ _ (store_bytes_ok (wd ++ [0]) p w Hp
             ltac:(rewrite length_app, Nat2Z.inj_add; simpl; lia))).
  done.
Qed.

Lemma forth_get_word_string_eof p w :
  o_stringin (obj w) = true →
  0 ≤ o_sidx (obj w) ≤ Z.of_nat (length (o_sin (obj w))) →
  scan_word (cstring (drop (Z.to_nat (o_sidx (obj w))) (o_sin (obj w))))
  = None →
  forth_get_word p w = Ok EOF w.
Proof.
  intros Hs Hi Hscan. unfold forth_get_word.
  rewrite bind_get_obj, Hs.
  destruct (Z.leb_spec 0 (o_sidx (obj w))); [|lia].
  destruct (Z.leb_spec (o_sidx (obj w)) (Z.of_nat (length (o_sin (obj w)))));
    [|lia].
  cbn [andb]. by rewrite Hscan.
Qed.

(** ** Evaluating a number literal *)

(** A core as [forth_init] lays it out, between two runs, in interpret mode:
    the instruction pointer is at the loop that runs [READ], the return stack
    pointer is above the parameter stack, and both are inside the image. *)
Record interpreting (w : world) : Prop := {
  int_valid : o_invalid (obj w) = false;
  int_I : o_I (obj w) = DICTIONARY_START + 2;
  int_s : o_s (obj w) = cell_bytes * STRING_OFFSET;
  int_read : cell_at (o_m (obj w)) DICTIONARY_START = code_of READ;
  int_run : cell_at (o_m (obj w)) (DICTIONARY_START + 1) = code_of RUN;
  int_back : cell_at (o_m (obj w)) (DICTIONARY_START + 2) = DICTIONARY_START;
  int_loop :
    cell_at (o_m (obj w)) (DICTIONARY_START + 3) = DICTIONARY_START + 1;
  int_state : cell_at (o_m (obj w)) STATE = 0;
  int_size : o_core_size (obj w) ≤ 65536;
  int_S : DICTIONARY_START + 4 ≤ o_S (obj w);
  int_R : o_S (obj w) + 1 < cell_at (o_m (obj w)) RSTK < o_core_size (obj w)
}.

(** The same, as a test. *)
Definition interpretingb (w : world) : bool :=
  negb (o_invalid (obj w))
  && (o_I (obj w) =? DICTIONARY_START + 2)
  && (o_s (obj w) =? cell_bytes * STRING_OFFSET)
  && (cell_at (o_m (obj w)) DICTIONARY_START =? code_of READ)
  && (cell_at (o_m (obj w)) (DICTIONARY_START + 1) =? code_of RUN)
  && (cell_at (o_m (obj w)) (DICTIONARY_START + 2) =? DICTIONARY_START)
  && (cell_at (o_m (obj w)) (DICTIONARY_START + 3) =? DICTIONARY_START + 1)
  && (cell_at (o_m (obj w)) STATE =? 0)
  && (o_core_size (obj w) <=? 65536)
  && (DICTIONARY_START + 4 <=? o_S (obj w))
  && (o_S (obj w) + 1 <? cell_at (o_m (obj w)) RSTK)
  && (cell_at (o_m (obj w)) RSTK <? o_core_size (obj w)).

Lemma interpretingb_spec w : interpretingb w = true → interpreting w.
Proof.
  unfold interpretingb. rewrite !andb_true_iff, negb_true_iff.
  rewrite !Z.eqb_eq, !Z.leb_le, !Z.ltb_lt.
  intros (((((((((((? & ?) & ?) & ?) & ?) & ?) & ?) & ?) & ?) & ?) & ?) & ?).
  by constructor.
Qed.

(** Simplifies the projections of the worlds built on the way. *)
Ltac wsimpl :=
  cbn [obj env o_m o_core_size o_stack_size o_s o_sin o_sidx o_slen
       o_stringin o_invalid o_S o_I o_top o_in o_out
       set_m set_sin set_sidx set_slen set_stringin set_top set_in set_out
       set_invalid wstore l_pc l_S l_I l_f with_pc with_S with_I with_f].

Ltac xside := unfold DIC, RSTK, STATE, HEX, PWD; wsimpl; lia.

(** One step of the execution, for worlds given by their construction. *)
Ltac xstep :=
  match goal with
  | |- context [bind (load ?i) ?k ?w] =>
      rewrite (bind_eq (load i) k w _ _
                 (load_ok i w ltac:(apply in_image_iff; xside)))
  | |- context [bind (store ?i ?x) ?k ?w] =>
      rewrite (bind_eq (store i x) k w _ _
                 (store_ok i x w ltac:(apply in_image_iff; xside)))
  | |- context [bind (check_bounds ?f) ?k ?w] =>
      rewrite (bind_eq (check_bounds f) k w _ _
                 (check_bounds_ok f w ltac:(xside)))
  | |- context [bind (ret ?a) ?k ?w] => rewrite (bind_ret a k w)
  | |- context [bind get_obj ?k ?w] => rewrite (bind_get_obj k w)
  | |- context [bind (modify_obj ?g) ?k ?w] => rewrite (bind_modify_obj g k w)
  | |- context [bind (bind ?c ?k) ?k' ?w] => rewrite (bind_bind c k k' w)
  end; cbv beta; wsimpl.

Lemma interpret_fetch n v w pc :
  l_I v < o_core_size (obj w) → 0 ≤ l_I v →
  cell_at (o_m (obj w)) (l_I v) = pc → pc ≠ 0 →
  0 < l_S v < o_core_size (obj w) →
  interpret (S n) false v w =
  interpret n true (with_pc pc (with_I (cell (l_I v + 1)) v)) w.
Proof.
  intros HI HI0 Hpc Hne HS. cbn [interpret].
  rewrite (bind_eq _ _ w _ _ (check_bounds_ok _ w HI)).
  rewrite (bind_eq _ _ w _ _
             (load_ok (l_I v) w ltac:(apply in_image_iff; lia))).
  rewrite Hpc. destruct (Z.eqb_spec pc 0); [done|].
  rewrite bind_get_obj. wsimpl.
  destruct (Z.ltb_spec 0 (l_S v)); [|lia].
  destruct (Z.ltb_spec (l_S v) (o_core_size (obj w))); [|lia].
  done.
Qed.

Lemma interpret_inner n v w :
  interpret (S n) true v w =
  match inner n v w with
  | Ok (Break v') w' => interpret n false v' w'
  | Ok (GotoInner v') w' => interpret n true v' w'
  | Ok (GotoEnd v') w' => Ok v' w'
  | Jump w' => Jump w'
  | Undefined u => Undefined u
  | Aborted => Aborted
  | Timeout => Timeout
  end.
Proof.
  cbn [interpret]. unfold bind.
  destruct (inner n v w) as [[]| | | |]; done.
Qed.

Lemma inner_execute n v w c i :
  l_pc v < o_core_size (obj w) → 0 ≤ l_pc v →
  cell_at (o_m (obj w)) (l_pc v) = c → instruction_of (b c) = Some i →
  inner n v w = execute n i (with_pc (cell (l_pc v + 1)) v) w.
Proof.
  intros Hpc Hpc0 Hc Hi. unfold inner.
  rewrite (bind_eq _ _ w _ _ (check_bounds_ok _ w Hpc)).
  rewrite (bind_eq _ _ w _ _
             (load_ok (l_pc v) w ltac:(apply in_image_iff; lia))).
  by rewrite Hc, Hi.
Qed.

(** A string stored in the image is read back as it was written. *)
Lemma stored_string m p s :
  Forall (λ c, 0 < c < 256) s →
  (∀ j, (j < length s)%nat →
        byte_at (mem_store_bytes m p (s ++ [0])) (p + Z.of_nat j)
        = char_at s j) ∧
  byte_at (mem_store_bytes m p (s ++ [0])) (p + Z.of_nat (length s)) = 0.
Proof.
  intros Hs. split.
  - intros j Hj. rewrite byte_at_store_bytes, length_app, Nat2Z.inj_add.
    cbn [length]. 
    destruct (Z.leb_spec p (p + Z.of_nat j)); [|lia].
    destruct (Z.ltb_spec (p + Z.of_nat j)
                (p + (Z.of_nat (length s) + Z.of_nat 1))); [|lia].
    cbn [andb]. replace (Z.to_nat (p + Z.of_nat j - p)) with j by lia.
    unfold char_at. rewrite app_nth1 by done.
    apply Z.mod_small.
    assert (0 < nth j s 0 < 256); [|lia].
    rewrite Forall_forall in Hs. apply Hs, list_elem_of_In, nth_In. done.
  - rewrite byte_at_store_bytes, length_app, Nat2Z.inj_add. cbn [length].
    destruct (Z.leb_spec p (p + Z.of_nat (length s))); [|lia].
    destruct (Z.ltb_spec (p + Z.of_nat (length s))
                (p + (Z.of_nat (length s) + Z.of_nat 1))); [|lia].
    cbn [andb].
    replace (Z.to_nat (p + Z.of_nat (length s) - p)) with (length s) by lia.
    unfold char_at. rewrite app_nth2 by lia. by rewrite Nat.sub_diag.
Qed.

(** The cells of the string storage that a word of at most 6 bytes uses. *)
Lemma word_cells (s : list Z) i :
  (length s ≤ 6)%nat →
  ¬ (STRING_OFFSET ≤ i < STRING_OFFSET + 16) →
  i < cell_bytes * STRING_OFFSET / cell_bytes
  ∨ (cell_bytes * STRING_OFFSET + Z.of_nat (length (s ++ [0])) - 1)
      / cell_bytes < i.
Proof.
  intros Hl Hi. rewrite length_app, Nat2Z.inj_add. cbn [length].
  unfold STRING_OFFSET, cell_bytes in *.
  change (2 * 32 / 2) with 32.
  destruct (decide (i < 32)); [by left|right].
  apply Z.div_lt_upper_bound; lia.
Qed.







Example literal_42 :
  dec_literal 42 = bytes "42" ∧ hex_literal 42 = bytes "0x2a" ∧
  o_top (obj (after_eval "42" fresh)) = 42 ∧
  o_top (obj (after_eval "0x2a" fresh)) = 42.
Proof. vm_compute. repeat split; reflexivity. Qed.

(** * Further properties *)

(** ** The stack interface: [forth_push], [forth_pop],
    [forth_stack_position] *)

(** A small core for examples: 128 cells, a stack of 2 cells, the stack
    pointer at cell 100 and 7 in [top]. *)
Definition small_core : world :=
  World (Forth [] [] (cell_bytes * STRING_OFFSET) [] 128 2 0 0 false false
               (DICTIONARY_START + 2) 7 100 ∅) host0.

(** Simplifies the projections of a world given by its construction. *)
Ltac osimpl :=
  cbn [obj env o_m o_core_size o_stack_size o_s o_sin o_sidx o_slen
       o_stringin o_invalid o_S o_I o_top o_in o_out
       set_m set_sin set_sidx set_slen set_stringin set_top set_in set_out
       set_invalid set_S set_I wstore h_blocks h_readonly h_stderr
       set_blocks set_stderr
       l_pc l_S l_I l_f with_pc with_S with_I with_f].

Ltac oside := unfold DIC, RSTK, STATE, HEX, PWD; osimpl; lia.

(** One step of the execution of a computation on such a world. *)
Ltac ostep :=
  match goal with
  | |- context [bind (load ?i) ?k ?w] =>
      rewrite (bind_eq (load i) k w _ _
                 (load_ok i w ltac:(apply in_image_iff; oside)))
  | |- context [bind (store ?i ?x) ?k ?w] =>
      rewrite (bind_eq (store i x) k w _ _
                 (store_ok i x w ltac:(apply in_image_iff; oside)))
  | |- context [bind (check_bounds ?f) ?k ?w] =>
      rewrite (bind_eq (check_bounds f) k w _ _
                 (check_bounds_ok f w ltac:(oside)))
  | |- context [bind (ret ?a) ?k ?w] => rewrite (bind_ret a k w)
  | |- context [bind get_obj ?k ?w] => rewrite (bind_get_obj k w)
  | |- context [bind get_env ?k ?w] => rewrite (bind_get_env k w)
  | |- context [bind (modify_obj ?g) ?k ?w] => rewrite (bind_modify_obj g k w)
  | |- context [bind (bind ?c ?k) ?k' ?w] => rewrite (bind_bind c k k' w)
  end; cbv beta; osimpl.

Lemma in_image_out o i :
  i < 0 ∨ o_core_size o ≤ i → in_image o i = false.
Proof.
  intros H. unfold in_image.
  destruct (Z.leb_spec 0 i), (Z.ltb_spec i (o_core_size o)); simpl; lia.
Qed.

(** An access outside the image is undefined behaviour. *)
Lemma store_out i x w :
  i < 0 ∨ o_core_size (obj w) ≤ i → store i x w = Undefined (OutOfImage i).
Proof.
  intros H. unfold store. by rewrite bind_get_obj, in_image_out.
Qed.

Lemma load_out i w :
  i < 0 ∨ o_core_size (obj w) ≤ i → load i w = Undefined (OutOfImage i).
Proof.
  intros H. unfold load. by rewrite bind_get_obj, in_image_out.
Qed.

Lemma bind_undefined {A B} (c : M A) (k : A → M B) w u :
  c w = Undefined u → bind c k w = Undefined u.
Proof. unfold bind. by intros ->. Qed.

Lemma bind_assert_true {B} c (k : unit → M B) w :
  c = true → bind (assert c) k w = k tt w.
Proof. by intros ->. Qed.

(** What [forth_push] does when the cell above the stack pointer is in the
    image. *)
Lemma forth_push_ok f w :
  0 ≤ o_S (obj w) + 1 < o_core_size (obj w) →
  forth_push f w =
  Ok tt (World (set_top f
                  (set_m (<[o_S (obj w) + 1 := o_top (obj w)]> (o_m (obj w)))
                     (set_S (o_S (obj w) + 1) (obj w))))
           (env w)).
Proof.
  intros H. unfold forth_push. rewrite bind_get_obj.
  rewrite bind_assert_true by (apply Z.ltb_lt; lia).
  repeat ostep. reflexivity.
Qed.

(** What [forth_pop] does when the stack pointer is in the image. *)
Lemma forth_pop_ok w :
  0 < o_S (obj w) < o_core_size (obj w) →
  forth_pop w =
  Ok (o_top (obj w))
     (World (set_S (o_S (obj w) - 1)
               (set_top (cell_at (o_m (obj w)) (o_S (obj w))) (obj w)))
        (env w)).
Proof.
  intros H. unfold forth_pop. rewrite bind_get_obj.
  rewrite bind_assert_true by (apply Z.ltb_lt; lia).
  repeat ostep. reflexivity.
Qed.

(** The stack interface is last in, first out: after [forth_push a] and
    [forth_push b], two calls of [forth_pop] return [b] and then [a], and
    leave [top], the stack position and the environment as they were; of the
    image, only the two cells above the stack pointer are written. *)
Theorem forth_push_pop_lifo a b w :
  0 ≤ o_S (obj w) → o_S (obj w) + 2 < o_core_size (obj w) →
  ∃ w',
    (forth_push a ;;; forth_push b ;;;
     x <- forth_pop ;; y <- forth_pop ;; ret (x, y)) w = Ok (b, a) w' ∧
    o_top (obj w') = o_top (obj w) ∧
    forth_stack_position (obj w') = forth_stack_position (obj w) ∧
    env w' = env w ∧
    ∀ i, i ≠ o_S (obj w) + 1 → i ≠ o_S (obj w) + 2 →
         cell_at (o_m (obj w')) i = cell_at (o_m (obj w)) i.
Proof.
  intros H0 H2.
  rewrite (bind_eq _ _ _ _ _ (forth_push_ok a w ltac:(lia))).
  match goal with
  | |- context [bind (forth_push b) ?K ?W] =>
      rewrite (bind_eq _ K W _ _ (forth_push_ok b W ltac:(osimpl; lia)))
  end.
  do 2 match goal with
  | |- context [bind forth_pop ?K ?W] =>
      rewrite (bind_eq _ K W _ _ (forth_pop_ok W ltac:(osimpl; lia)))
  end; cbv beta; osimpl.
  rewrite !cell_at_insert. repeat case_decide; try lia.
  eexists. split; [reflexivity|]. unfold forth_stack_position. osimpl.
  split; [done|split; [f_equal; lia|split; [done|]]].
  intros i Hi1 Hi2. by rewrite !cell_at_insert, !decide_False by lia.
Qed.

Lemma forth_push_pop_lifo_witness :
  ∃ w',
    (forth_push 1 ;;; forth_push 2 ;;;
     x <- forth_pop ;; y <- forth_pop ;; ret (x, y)) small_core
    = Ok (2, 1) w' ∧
    o_top (obj w') = o_top (obj small_core) ∧
    forth_stack_position (obj w') = forth_stack_position (obj small_core) ∧
    env w' = env small_core ∧
    ∀ i, i ≠ o_S (obj small_core) + 1 → i ≠ o_S (obj small_core) + 2 →
         cell_at (o_m (obj w')) i = cell_at (o_m (obj small_core)) i.
Proof. apply (forth_push_pop_lifo 1 2 small_core); vm_compute; done. Defined.

(** The assertion of [forth_push] admits a stack pointer at the last cell of
    the image, and the push then writes the cell past the end of the image;
    the assertion of [forth_pop] fails on an empty image stack, and that of
    [forth_push] on a stack pointer past the image. *)
Theorem forth_push_last_cell f w :
  (o_S (obj w) = o_core_size (obj w) - 1 →
   forth_push f w = Undefined (OutOfImage (o_core_size (obj w)))) ∧
  (o_core_size (obj w) ≤ o_S (obj w) → forth_push f w = Aborted) ∧
  (o_S (obj w) ≤ 0 → forth_pop w = Aborted).
Proof.
  split; [|split].
  - intros HS. unfold forth_push. rewrite bind_get_obj.
    rewrite bind_assert_true by (apply Z.ltb_lt; lia).
    rewrite bind_modify_obj.
    match goal with
    | |- bind (store ?i ?x) ?K ?W = _ =>
        rewrite (bind_undefined (store i x) K W _
                   (store_out i x W ltac:(osimpl; lia)))
    end.
    by rewrite HS, Z.sub_add.
  - intros HS. unfold forth_push. rewrite bind_get_obj.
    by destruct (Z.ltb_spec (o_S (obj w)) (o_core_size (obj w))); [lia|].
  - intros HS. unfold forth_pop. rewrite bind_get_obj.
    by destruct (Z.ltb_spec 0 (o_S (obj w))); [lia|].
Qed.

Lemma forth_push_last_cell_witness :
  let w := World (set_S 127 (obj small_core)) host0 in
  (o_S (obj w) = o_core_size (obj w) - 1 →
   forth_push 5 w = Undefined (OutOfImage (o_core_size (obj w)))) ∧
  (o_core_size (obj w) ≤ o_S (obj w) → forth_push 5 w = Aborted) ∧
  (o_S (obj w) ≤ 0 → forth_pop w = Aborted).
Proof.
  intros w. apply (forth_push_last_cell 5 w).
Defined.

Example forth_push_at_last_cell :
  forth_push 5 (World (set_S 127 (obj small_core)) host0)
  = Undefined (OutOfImage 128).
Proof. reflexivity. Qed.

(** ** Reading characters: [forth_get_char] and [comment] *)

(** The input is the string [s], as [forth_set_string_input] sets it up, and
    [i] bytes of it have been read.  The string has no NUL byte before its
    terminator, and fills its array. *)
Record string_input (s : list Z) (i : Z) (w : world) : Prop := {
  si_stringin : o_stringin (obj w) = true;
  si_sin : o_sin (obj w) = s;
  si_slen : o_slen (obj w) = Z.of_nat (length s) + 1;
  si_sidx : o_sidx (obj w) = i;
  si_bytes : Forall (λ c, 0 < c < 256) s
}.

Lemma strlen_no_NUL s : Forall (λ c, 0 < c < 256) s → strlen s = length s.
Proof.
  induction 1 as [|c s Hc _ IH]; [done|]. cbn [strlen length].
  destruct (Z.eqb_spec c 0); [lia|]. by rewrite IH.
Qed.

Lemma cstring_no_NUL s : Forall (λ c, 0 < c < 256) s → cstring s = s.
Proof.
  intros H. unfold cstring. rewrite strlen_no_NUL by done. apply firstn_all.
Qed.

Lemma string_input_set s w :
  Forall (λ c, 0 < c < 256) s →
  string_input s 0 (world_of (forth_set_string_input s w) w).
Proof.
  intros H. split; try done. cbn. by rewrite strlen_no_NUL.
Qed.

Lemma string_input_advance s i j w :
  string_input s i w →
  string_input s j (World (set_sidx j (obj w)) (env w)).
Proof. intros []. by split. Qed.

(** [forth_get_char] on a string: the bytes of the string and its terminator
    are delivered; after that, [EOF]. *)
Lemma forth_get_char_string s i w :
  string_input s i w → 0 ≤ i ≤ Z.of_nat (length s) →
  forth_get_char w =
  Ok (char_at s (Z.to_nat i)) (World (set_sidx (i + 1) (obj w)) (env w)).
Proof.
  intros [Hin Hs Hl Hi _] H. unfold forth_get_char.
  rewrite bind_get_obj, Hin, Hl, Hi, Hs.
  destruct (Z.geb_spec i (Z.of_nat (length s) + 1)); [lia|].
  destruct (Z.leb_spec 0 i); [|lia].
  destruct (Z.leb_spec i (Z.of_nat (length s))); [|lia].
  reflexivity.
Qed.

Lemma forth_get_char_string_eof s i w :
  string_input s i w → Z.of_nat (length s) < i →
  forth_get_char w = Ok EOF w.
Proof.
  intros [Hin Hs Hl Hi _] H. unfold forth_get_char.
  rewrite bind_get_obj, Hin, Hl, Hi.
  by destruct (Z.geb_spec i (Z.of_nat (length s) + 1)); [|lia].
Qed.

(** [k] calls of [forth_get_char] in a row. *)
Fixpoint get_chars (k : nat) : M (list Z) :=
  match k with
  | O => ret []
  | S k' => c <- forth_get_char ;; r <- get_chars k' ;; ret (c :: r)
  end.

Lemma get_chars_string k : ∀ s i w,
  string_input s i w → 0 ≤ i ≤ Z.of_nat (length s) + 1 →
  value_of (get_chars k w)
  = Some (take k (drop (Z.to_nat i) (s ++ [0]) ++ replicate k EOF)).
Proof.
  induction k as [|k IH]; intros s i w Hw Hi; [done|].
  cbn [get_chars].
  destruct (decide (i = Z.of_nat (length s) + 1)) as [->|Hne].
  - rewrite (bind_eq _ _ w _ _
               (forth_get_char_string_eof s _ w Hw ltac:(lia))).
    specialize (IH s _ w Hw Hi).
    unfold bind. destruct (get_chars k w) as [r w'| | | |]; try done.
    cbn [value_of] in *. injection IH as ->.
    rewrite drop_ge by (rewrite length_app; cbn [length]; lia).
    cbn [app replicate take]. done.
  - rewrite (bind_eq _ _ w _ _ (forth_get_char_string s i w Hw ltac:(lia))).
    specialize (IH s (i + 1)
                  (World (set_sidx (i + 1) (obj w)) (env w))
                  (string_input_advance s i (i + 1) w Hw) ltac:(lia)).
    unfold bind.
    destruct (get_chars k _) as [r w'| | | |]; try done.
    cbn [value_of] in *. injection IH as ->.
    assert (Z.to_nat i < length (s ++ [0%Z]))%nat as Hlt
      by (rewrite length_app; cbn [length]; lia).
    destruct (lookup_lt_is_Some_2 _ _ Hlt) as [c Hc].
    rewrite (drop_S _ c _ Hc). cbn [app take].
    replace (Z.to_nat (i + 1)) with (S (Z.to_nat i)) by lia.
    assert (char_at s (Z.to_nat i) = c) as ->.
    { unfold char_at.
      destruct (decide (Z.to_nat i < length s)%nat) as [Hl|Hl].
      - rewrite lookup_app_l in Hc by done. by apply nth_lookup_Some.
      - rewrite nth_overflow by lia.
        rewrite lookup_app_r in Hc by lia.
        replace (Z.to_nat i - length s)%nat with 0%nat in Hc by lia.
        by injection Hc. }
    unfold ret. cbn [value_of]. f_equal. f_equal.
    rewrite !take_app, !take_replicate.
    f_equal. f_equal. rewrite length_drop, length_app. cbn [length]. lia.
Qed.

(** After [forth_set_string_input(o, s)], successive calls of
    [forth_get_char] return the bytes of [s], then the terminating NUL as a
    character, and from then on [EOF]. *)
Theorem forth_get_char_stream k s w :
  Forall (λ c, 0 < c < 256) s →
  value_of ((forth_set_string_input s ;;; get_chars k) w)
  = Some (take k (s ++ 0 :: replicate k EOF)).
Proof.
  intros Hs. unfold forth_set_string_input. rewrite bind_modify_obj.
  pose proof (get_chars_string k s 0 _ (string_input_set s w Hs) ltac:(lia))
    as H.
  change (drop (Z.to_nat 0) (s ++ [0])) with (s ++ [0]) in H.
  rewrite <- app_assoc in H. exact H.
Qed.

Lemma forth_get_char_stream_witness :
  value_of ((forth_set_string_input (bytes "ab") ;;; get_chars 5) small_core)
  = Some [97; 98; 0; EOF; EOF].
Proof.
  apply (forth_get_char_stream 5 (bytes "ab") small_core).
  repeat constructor.
Defined.

Lemma drop_cons_inv (s : list Z) n c r :
  drop n s = c :: r →
  char_at s n = c ∧ drop (S n) s = r ∧ (n < length s)%nat.
Proof.
  intros H. assert (s !! n = Some c) as Hc.
  { pose proof (lookup_drop s n 0) as L. rewrite H in L.
    by rewrite Nat.add_0_r in L. }
  split; [by apply nth_lookup_Some|]. split.
  - rewrite (drop_S _ _ _ Hc) in H. by injection H.
  - by apply lookup_lt_Some in Hc.
Qed.

Lemma set_sidx_set_sidx x y o : set_sidx x (set_sidx y o) = set_sidx x o.
Proof. done. Qed.

(** The loop of [comment] on a string, up to a newline. *)
Lemma comment_loop_newline s b : ∀ a fuel i w,
  string_input s i w → 0 ≤ i →
  drop (Z.to_nat i) s = a ++ 10 :: b → 10 ∉ a → (length a < fuel)%nat →
  comment_loop fuel w =
  Ok 10 (World (set_sidx (i + Z.of_nat (length a) + 1) (obj w)) (env w)).
Proof.
  induction a as [|c a IH]; intros fuel i w Hw Hi Hd Ha Hf;
    (destruct fuel as [|fuel]; [cbn [length] in Hf; lia|]);
    cbn [comment_loop];
    apply drop_cons_inv in Hd as (Hc & Hd & Hl);
    rewrite (bind_eq _ _ w _ _ (forth_get_char_string s i w Hw ltac:(lia)));
    rewrite Hc.
  - cbn [length]. change (Z.of_nat 0) with 0. by rewrite Z.add_0_r.
  - assert (0 < c < 256) as Hc256.
    { destruct Hw as [_ _ _ _ Hb]. rewrite Forall_forall in Hb.
      apply Hb. rewrite <- Hc. apply list_elem_of_In, nth_In, Hl. }
    apply not_elem_of_cons in Ha as [Hne Ha].
    destruct (Z.gtb_spec c 0); [|lia].
    destruct (Z.eqb_spec c 10); [congruence|]. cbn [andb negb].
    rewrite (IH fuel (i + 1) _ (string_input_advance s i (i + 1) w Hw)
               ltac:(lia)
               ltac:(by replace (Z.to_nat (i + 1)) with (S (Z.to_nat i))
                       by lia)
               Ha ltac:(cbn [length] in Hf; lia)).
    cbn [obj env]. rewrite set_sidx_set_sidx. do 3 f_equal.
    cbn [length]. lia.
Qed.

(** The loop of [comment] on a string without a newline: it stops at the
    terminating NUL, which it has read. *)
Lemma comment_loop_NUL s : ∀ r fuel i w,
  string_input s i w → 0 ≤ i ≤ Z.of_nat (length s) →
  drop (Z.to_nat i) s = r → 10 ∉ r → (length r < fuel)%nat →
  comment_loop fuel w =
  Ok 0 (World (set_sidx (Z.of_nat (length s) + 1) (obj w)) (env w)).
Proof.
  induction r as [|c r IH]; intros fuel i w Hw Hi Hd Hr Hf;
    (destruct fuel as [|fuel]; [cbn [length] in Hf; lia|]);
    cbn [comment_loop];
    rewrite (bind_eq _ _ w _ _ (forth_get_char_string s i w Hw ltac:(lia))).
  - apply (f_equal length) in Hd. rewrite length_drop in Hd.
    cbn [length] in Hd. unfold char_at. rewrite nth_overflow by lia.
    cbn. do 3 f_equal. lia.
  - apply drop_cons_inv in Hd as (Hc & Hd & Hl). rewrite Hc.
    assert (0 < c < 256) as Hc256.
    { destruct Hw as [_ _ _ _ Hb]. rewrite Forall_forall in Hb.
      apply Hb. rewrite <- Hc. apply list_elem_of_In, nth_In, Hl. }
    apply not_elem_of_cons in Hr as [Hne Hr].
    destruct (Z.gtb_spec c 0); [|lia].
    destruct (Z.eqb_spec c 10); [congruence|]. cbn [andb negb].
    rewrite (IH fuel (i + 1) _ (string_input_advance s i (i + 1) w Hw)
               ltac:(lia)
               ltac:(by replace (Z.to_nat (i + 1)) with (S (Z.to_nat i))
                       by lia)
               Hr ltac:(cbn [length] in Hf; lia)).
    cbn [obj env]. by rewrite set_sidx_set_sidx.
Qed.

Lemma comment_string_fuel s i w :
  string_input s i w → 0 ≤ i ≤ Z.of_nat (length s) →
  comment w =
  comment_loop (S (Z.to_nat (Z.of_nat (length s) + 1 - i))) w.
Proof.
  intros [Hin _ Hl Hi _] H. unfold comment.
  by rewrite bind_get_obj, Hin, Hl, Hi.
Qed.

(** [comment] on a string input reads up to and including the next newline
    and returns it; when no newline is left, it reads the rest of the string
    and its terminating NUL, and returns 0, not [EOF]. *)
Theorem comment_string s i w :
  string_input s i w → 0 ≤ i ≤ Z.of_nat (length s) →
  (∀ a b, drop (Z.to_nat i) s = a ++ 10 :: b → 10 ∉ a →
     comment w =
     Ok 10 (World (set_sidx (i + Z.of_nat (length a) + 1) (obj w)) (env w))) ∧
  (10 ∉ drop (Z.to_nat i) s →
     comment w =
     Ok 0 (World (set_sidx (Z.of_nat (length s) + 1) (obj w)) (env w))).
Proof.
  intros Hw Hi. rewrite (comment_string_fuel s i w Hw Hi). split.
  - intros a b Hd Ha. apply (comment_loop_newline s b a); try done; [lia|].
    apply (f_equal length) in Hd.
    rewrite length_drop, length_app in Hd. cbn [length] in Hd. lia.
  - intros Hr.
    apply (comment_loop_NUL s (drop (Z.to_nat i) s) _ i); try done.
    rewrite length_drop. lia.
Qed.

Lemma comment_string_witness :
  let w := world_of (forth_set_string_input (bytes "ab
cd") small_core) small_core in
  (∀ a b, drop (Z.to_nat 0) (bytes "ab
cd") = a ++ 10 :: b → 10 ∉ a →
     comment w =
     Ok 10 (World (set_sidx (0 + Z.of_nat (length a) + 1) (obj w)) (env w))) ∧
  (10 ∉ drop (Z.to_nat 0) (bytes "ab
cd") →
     comment w =
     Ok 0 (World (set_sidx (Z.of_nat (length (bytes "ab
cd")) + 1) (obj w))
             (env w))).
Proof.
  intros w. apply (comment_string (bytes "ab
cd") 0 w).
  - apply string_input_set. repeat constructor.
  - vm_compute. split; discriminate.
Defined.

Example comment_to_newline :
  let w := world_of (forth_set_string_input (bytes "ab
cd") small_core) small_core in
  value_of (comment w) = Some 10 ∧ o_sidx (obj (world_of (comment w) w)) = 3.
Proof. vm_compute. done. Qed.

Lemma fgetc_cons c r w :
  o_in (obj w) = c :: r → fgetc w = Ok c (World (set_in r (obj w)) (env w)).
Proof. intros H. unfold fgetc. by rewrite bind_get_obj, H. Qed.

Lemma fgetc_nil w : o_in (obj w) = [] → fgetc w = Ok EOF w.
Proof. intros H. unfold fgetc. by rewrite bind_get_obj, H. Qed.

Lemma forth_get_char_file w :
  o_stringin (obj w) = false → forth_get_char w = fgetc w.
Proof. intros H. unfold forth_get_char. by rewrite bind_get_obj, H. Qed.

Lemma set_in_set_in x y o : set_in x (set_in y o) = set_in x o.
Proof. done. Qed.

Lemma set_in_id o : o_in o = [] → set_in [] o = o.
Proof. destruct o. cbn. by intros ->. Qed.

(** The loop of [comment] on a file, up to a byte that ends it. *)
Lemma comment_loop_file c b : ∀ a fuel w,
  o_stringin (obj w) = false → o_in (obj w) = a ++ c :: b →
  Forall (λ x, 0 < x ∧ x ≠ 10) a → c ≤ 0 ∨ c = 10 → (length a < fuel)%nat →
  comment_loop fuel w = Ok c (World (set_in b (obj w)) (env w)).
Proof.
  induction a as [|x a IH]; intros fuel w Hin Hi Ha Hc Hf;
    (destruct fuel as [|fuel]; [cbn [length] in Hf; lia|]);
    cbn [comment_loop]; cbn [app] in Hi;
    rewrite (bind_eq _ _ w _ _
               (eq_trans (forth_get_char_file w Hin) (fgetc_cons _ _ w Hi))).
  - destruct (Z.gtb_spec c 0), (Z.eqb_spec c 10); try lia; done.
  - apply Forall_cons in Ha as [[Hx Hx10] Ha].
    destruct (Z.gtb_spec x 0); [|lia].
    destruct (Z.eqb_spec x 10); [lia|]. cbn [andb negb].
    rewrite (IH fuel (World (set_in (a ++ c :: b) (obj w)) (env w)) Hin
               eq_refl Ha Hc ltac:(cbn [length] in Hf; lia)).
    cbn [obj env]. by rewrite set_in_set_in.
Qed.

(** The loop of [comment] on a file that ends before the line does. *)
Lemma comment_loop_file_end : ∀ a fuel w,
  o_stringin (obj w) = false → o_in (obj w) = a →
  Forall (λ x, 0 < x ∧ x ≠ 10) a → (length a < fuel)%nat →
  comment_loop fuel w = Ok EOF (World (set_in [] (obj w)) (env w)).
Proof.
  induction a as [|x a IH]; intros fuel w Hin Hi Ha Hf;
    (destruct fuel as [|fuel]; [cbn [length] in Hf; lia|]);
    cbn [comment_loop].
  - rewrite (bind_eq _ _ w _ _
               (eq_trans (forth_get_char_file w Hin) (fgetc_nil w Hi))).
    cbn. rewrite set_in_id by done. by destruct w.
  - cbn [app] in Hi.
    rewrite (bind_eq _ _ w _ _
               (eq_trans (forth_get_char_file w Hin) (fgetc_cons _ _ w Hi))).
    apply Forall_cons in Ha as [[Hx Hx10] Ha].
    destruct (Z.gtb_spec x 0); [|lia].
    destruct (Z.eqb_spec x 10); [lia|]. cbn [andb negb].
    rewrite (IH fuel (World (set_in a (obj w)) (env w)) Hin eq_refl Ha
               ltac:(cbn [length] in Hf; lia)).
    cbn [obj env]. by rewrite set_in_set_in.
Qed.

(** [comment] on a file input reads up to and including the first newline or
    NUL byte and returns that byte; when the file ends before, it returns
    [EOF] with the file read to its end. *)
Theorem comment_file w :
  o_stringin (obj w) = false →
  (∀ a c b, o_in (obj w) = a ++ c :: b →
     Forall (λ x, 0 < x ∧ x ≠ 10) a → c ≤ 0 ∨ c = 10 →
     comment w = Ok c (World (set_in b (obj w)) (env w))) ∧
  (Forall (λ x, 0 < x ∧ x ≠ 10) (o_in (obj w)) →
     comment w = Ok EOF (World (set_in [] (obj w)) (env w))).
Proof.
  intros Hin. unfold comment. rewrite bind_get_obj, Hin. split.
  - intros a c b Hi Ha Hc. apply (comment_loop_file c b a); try done.
    rewrite Hi, length_app. cbn [length]. lia.
  - intros Ha. apply (comment_loop_file_end (o_in (obj w))); try done. lia.
Qed.

Lemma comment_file_witness :
  let w := World (set_in (bytes "ab
cd") (obj small_core)) host0 in
  (∀ a c b, o_in (obj w) = a ++ c :: b →
     Forall (λ x, 0 < x ∧ x ≠ 10) a → c ≤ 0 ∨ c = 10 →
     comment w = Ok c (World (set_in b (obj w)) (env w))) ∧
  (Forall (λ x, 0 < x ∧ x ≠ 10) (o_in (obj w)) →
     comment w = Ok EOF (World (set_in [] (obj w)) (env w))).
Proof. intros w. apply (comment_file w). reflexivity. Defined.

Example comment_file_to_newline :
  let w := World (set_in (bytes "ab
cd") (obj small_core)) host0 in
  value_of (comment w) = Some 10 ∧
  o_in (obj (world_of (comment w) w)) = bytes "cd".
Proof. vm_compute. done. Qed.

(** ** Reading past the end of the input string *)

Lemma forth_get_word_past s i w p :
  string_input s i w → Z.of_nat (length s) < i →
  forth_get_word p w = Undefined (OutOfString i).
Proof.
  intros [Hin Hs _ Hi _] H. unfold forth_get_word.
  rewrite bind_get_obj, Hin, Hi, Hs.
  destruct (Z.leb_spec i (Z.of_nat (length s))); [lia|].
  by rewrite andb_false_r.
Qed.

(** Once the terminating NUL of the input string has been read as a
    character, by [comment] on a last line without a newline or by
    [forth_get_char] at the end of the string, the next [forth_get_word]
    scans the memory behind the string. *)
Theorem string_end_overrun s i w p :
  string_input s i w → 0 ≤ i ≤ Z.of_nat (length s) →
  (10 ∉ drop (Z.to_nat i) s →
   (comment ;;; forth_get_word p) w
   = Undefined (OutOfString (Z.of_nat (length s) + 1))) ∧
  (i = Z.of_nat (length s) →
   (forth_get_char ;;; forth_get_word p) w
   = Undefined (OutOfString (Z.of_nat (length s) + 1))).
Proof.
  intros Hw Hi. split.
  - intros Hr.
    rewrite (bind_eq _ _ w _ _
               (eq_trans (comment_string_fuel s i w Hw Hi)
                  (comment_loop_NUL s (drop (Z.to_nat i) s)
                     (S (Z.to_nat (Z.of_nat (length s) + 1 - i))) i w Hw Hi
                     eq_refl Hr ltac:(rewrite length_drop; lia)))).
    apply (forth_get_word_past s); [|lia].
    by apply string_input_advance with i.
  - intros ->.
    rewrite (bind_eq _ _ w _ _ (forth_get_char_string s _ w Hw Hi)).
    apply (forth_get_word_past s); [|lia].
    by apply string_input_advance with (Z.of_nat (length s)).
Qed.

Lemma string_end_overrun_witness :
  let s := bytes "\ hello" in
  let w := world_of (forth_set_string_input s small_core) small_core in
  let w2 := World (set_sidx 2 (obj w)) (env w) in
  (10 ∉ drop (Z.to_nat 2) s →
   (comment ;;; forth_get_word 64) w2
   = Undefined (OutOfString (Z.of_nat (length s) + 1))) ∧
  (2 = Z.of_nat (length s) →
   (forth_get_char ;;; forth_get_word 64) w2
   = Undefined (OutOfString (Z.of_nat (length s) + 1))).
Proof.
  intros s w w2. apply (string_end_overrun s 2 w2 64).
  - apply string_input_advance with 0. apply string_input_set.
    repeat constructor.
  - vm_compute. split; discriminate.
Defined.

(** On the fresh core, a string that ends in a comment, or with [key] as its
    last word, makes [forth_eval] scan past the string. *)
Example eval_comment_without_newline :
  forth_eval 1000 (bytes "\ hello") fresh = Undefined (OutOfString 8) ∧
  forth_eval 1000 (bytes "key") fresh = Undefined (OutOfString 4).
Proof. vm_compute. done. Qed.

(** ** The tokenizer: [forth_get_word] *)

Lemma take_word_length n : ∀ s, (length (take_word n s) ≤ n)%nat.
Proof.
  induction n as [|n IH]; intros [|c s]; cbn [take_word length]; try lia.
  destruct (isspace c); cbn [length]; [lia|]. specialize (IH s). lia.
Qed.

(** On a run [wd] of bytes that are not white space, followed by white space
    or by the end of the input, [%ns] takes the first [n] bytes of the
    run. *)
Lemma take_word_run n : ∀ wd rest,
  Forall (λ c, isspace c = false) wd →
  rest = [] ∨ (∃ c r, rest = c :: r ∧ isspace c = true) →
  take_word n (wd ++ rest) = take n wd.
Proof.
  induction n as [|n IH]; intros wd rest Hwd Hrest.
  - by destruct (wd ++ rest).
  - destruct wd as [|c wd]; cbn [app].
    + destruct Hrest as [->|(c & r & -> & Hc)]; [done|].
      cbn [take_word]. by rewrite Hc.
    + apply Forall_cons in Hwd as [Hc Hwd]. cbn [take_word take].
      rewrite Hc. f_equal. by apply IH.
Qed.

Lemma skip_space_run ws : ∀ c r,
  Forall (λ c, isspace c = true) ws → isspace c = false →
  skip_space (ws ++ c :: r) = c :: r.
Proof.
  induction ws as [|x ws IH]; intros c r Hws Hc; cbn [app skip_space].
  - by rewrite Hc.
  - apply Forall_cons in Hws as [Hx Hws]. rewrite Hx. by apply IH.
Qed.

Lemma skip_space_all ws :
  Forall (λ c, isspace c = true) ws → skip_space ws = [].
Proof.
  induction 1 as [|x ws Hx _ IH]; [done|]. cbn [skip_space]. by rewrite Hx.
Qed.

(** What [%31s%n] reads from white space, a run of other bytes, and the rest
    of the input. *)
Lemma scan_word_run ws wd rest :
  Forall (λ c, isspace c = true) ws →
  Forall (λ c, isspace c = false) wd → wd ≠ [] →
  rest = [] ∨ (∃ c r, rest = c :: r ∧ isspace c = true) →
  scan_word (ws ++ wd ++ rest)
  = Some (take 31 wd, drop 31 wd ++ rest,
          Z.of_nat (length ws + length (take 31 wd))).
Proof.
  intros Hws Hwd Hne Hrest. unfold scan_word.
  destruct wd as [|c wd]; [done|]. cbn [app].
  pose proof Hwd as Hwd'. apply Forall_cons in Hwd' as [Hc _].
  rewrite (skip_space_run ws c (wd ++ rest) Hws Hc).
  change (c :: wd ++ rest) with ((c :: wd) ++ rest).
  change (Z.to_nat (MAX_WORD_LENGTH - 1)) with 31%nat.
  rewrite (take_word_run 31 (c :: wd) rest Hwd Hrest).
  f_equal. f_equal; [f_equal|].
  - rewrite length_take.
    destruct (decide (31 ≤ length (c :: wd))%nat) as [Hl|Hl].
    + rewrite Nat.min_l by done. by rewrite drop_app_le.
    + rewrite Nat.min_r by lia. rewrite drop_app_ge by lia.
      rewrite (drop_ge (c :: wd)) by lia.
      by replace (length (c :: wd) - length (c :: wd))%nat with 0%nat by lia.
  - f_equal. rewrite !length_app. lia.
Qed.

Lemma Forall_drop_bytes (s : list Z) n :
  Forall (λ c, 0 < c < 256) s → Forall (λ c, 0 < c < 256) (drop n s).
Proof. apply Forall_drop. Qed.

(** [forth_get_word] on a string input skips white space and takes the next
    run of other bytes, cut after [MAX_WORD_LENGTH - 1 = 31] bytes: the word
    is stored at [p] with its terminator, the result is the number of bytes
    consumed, and the input index is advanced by it, so that the rest of a
    longer run is read as the next word.  When only white space is left, the
    result is [EOF] and nothing changes. *)
Theorem forth_get_word_string_run s i w p ws wd rest :
  string_input s i w → 0 ≤ i ≤ Z.of_nat (length s) →
  drop (Z.to_nat i) s = ws ++ wd ++ rest →
  Forall (λ c, isspace c = true) ws →
  Forall (λ c, isspace c = false) wd →
  rest = [] ∨ (∃ c r, rest = c :: r ∧ isspace c = true) →
  0 ≤ p → p + 32 ≤ cell_bytes * o_core_size (obj w) →
  (wd ≠ [] →
   let n := Z.of_nat (length ws + length (take 31 wd)) in
   forth_get_word p w =
   Ok n (World (set_sidx (i + n)
                  (set_m (mem_store_bytes (o_m (obj w)) p (take 31 wd ++ [0]))
                     (obj w)))
           (env w))) ∧
  (wd = [] → rest = [] → forth_get_word p w = Ok EOF w).
Proof.
  intros Hw Hi Hd Hws Hwd Hrest Hp Hroom.
  pose proof Hw as [Hin Hs Hl Hidx Hb].
  assert (cstring (drop (Z.to_nat (o_sidx (obj w))) (o_sin (obj w)))
          = ws ++ wd ++ rest) as Hc.
  { rewrite Hidx, Hs, <- Hd. apply cstring_no_NUL. by apply Forall_drop. }
  split.
  - intros Hne n.
    rewrite (forth_get_word_string p w (take 31 wd) (drop 31 wd ++ rest) n
               Hin ltac:(rewrite Hidx, Hs; lia)
               ltac:(rewrite Hc; by apply scan_word_run) Hp
               ltac:(rewrite length_take; unfold cell_bytes in *; lia)).
    by rewrite Hidx.
  - intros -> ->. apply forth_get_word_string_eof; [done| |].
    + rewrite Hidx, Hs. lia.
    + rewrite Hc. cbn [app]. rewrite app_nil_r. unfold scan_word.
      by rewrite skip_space_all.
Qed.

Lemma forth_get_word_string_run_witness :
  let s := bytes "  hello world" in
  let w := world_of (forth_set_string_input s small_core) small_core in
  let wd := bytes "hello" in
  (wd ≠ [] →
   let n := Z.of_nat (length (bytes "  ") + length (take 31 wd)) in
   forth_get_word 64 w =
   Ok n (World (set_sidx (0 + n)
                  (set_m (mem_store_bytes (o_m (obj w)) 64 (take 31 wd ++ [0]))
                     (obj w)))
           (env w))) ∧
  (wd = [] → bytes " world" = [] → forth_get_word 64 w = Ok EOF w).
Proof.
  intros s w wd.
  apply (forth_get_word_string_run s 0 w 64 (bytes "  ") wd (bytes " world")).
  - apply string_input_set. repeat constructor.
  - vm_compute. split; discriminate.
  - reflexivity.
  - repeat constructor.
  - repeat constructor.
  - right. by exists 32, (bytes "world").
  - lia.
  - vm_compute. discriminate.
Defined.

(** A run of 40 bytes is read as a word of 31 bytes and a word of 9. *)
Example forth_get_word_long_run :
  let s := bytes "0123456789012345678901234567890123456789" in
  let w := world_of (forth_set_string_input s small_core) small_core in
  let w1 := world_of (forth_get_word 64 w) w in
  value_of (forth_get_word 64 w) = Some 31 ∧
  value_of (load_string 64 w1) = Some (take 31 s) ∧
  value_of (forth_get_word 64 w1) = Some 9 ∧
  value_of (load_string 64 (world_of (forth_get_word 64 w1) w1))
  = Some (drop 31 s).
Proof. vm_compute. done. Qed.

(** *** The word buffer *)

Lemma store8_Ok k x w a w' :
  store8 k x w = Ok a w' →
  w' = wstore (k / cell_bytes)
         (cell_with_byte (cell_at (o_m (obj w)) (k / cell_bytes))
            (k mod cell_bytes) x) w.
Proof.
  unfold store8. intros H. inv_bind H.
  apply load_Ok in E as (-> & -> & _).
  by apply store_Ok in H as [_ ->].
Qed.

Lemma store_bytes_Ok s : ∀ p w a w',
  store_bytes p s w = Ok a w' →
  w' = World (set_m (mem_store_bytes (o_m (obj w)) p s) (obj w)) (env w).
Proof.
  induction s as [|c s IH]; intros p w a w' H; cbn [store_bytes] in H.
  - injection H as _ <-. cbn [mem_store_bytes]. symmetry. apply world_eta.
  - inv_bind H. apply store8_Ok in E as ->.
    apply IH in H as ->. reflexivity.
Qed.

Lemma scan_word_length s wd rest n :
  scan_word s = Some (wd, rest, n) → (length wd ≤ 31)%nat.
Proof.
  unfold scan_word. change (Z.to_nat (MAX_WORD_LENGTH - 1)) with 31%nat.
  destruct (skip_space s) as [|c r]; [done|].
  intros H. assert (wd = take_word 31 (c :: r)) as -> by congruence.
  apply take_word_length.
Qed.

(** [forth_get_word] stores at most 32 bytes, the word and its terminator:
    whatever the input, a call that returns leaves all cells of the image
    outside the 32 bytes at [p] as they were.  With [p] the string storage
    [o->s], the dictionary, which begins 64 bytes after [o->s], is out of
    reach. *)
Theorem forth_get_word_buffer p w n w' :
  forth_get_word p w = Ok n w' → 0 ≤ p →
  ∀ j, j < p / cell_bytes ∨ (p + 31) / cell_bytes < j →
       cell_at (o_m (obj w')) j = cell_at (o_m (obj w)) j.
Proof.
  intros H Hp j Hj. unfold forth_get_word in H. rewrite bind_get_obj in H.
  assert (∀ wd w1 a w2, (length wd ≤ 31)%nat →
            store_string p wd w1 = Ok a w2 →
            cell_at (o_m (obj w2)) j = cell_at (o_m (obj w1)) j) as Hstore.
  { intros wd w1 a w2 Hl E. apply store_bytes_Ok in E as ->. cbn [obj o_m set_m].
    apply cell_at_store_bytes_other; [done|].
    destruct Hj as [Hj|Hj]; [by left|right].
    eapply Z.le_lt_trans; [|exact Hj].
    apply Z.div_le_mono; [unfold cell_bytes; lia|].
    rewrite length_app, Nat2Z.inj_add. cbn [length]. lia. }
  destruct (o_stringin (obj w)).
  - destruct (_ && _); [|discriminate].
    destruct (scan_word _) as [[[wd rest] k]|] eqn:E.
    + inv_bind H. inv_bind H. injection H as _ <-.
      apply (Hstore _ _ _ _ (scan_word_length _ _ _ _ E)) in E0.
      unfold modify_obj in E1. injection E1 as _ <-. exact E0.
    + by injection H as _ <-.
  - destruct (scan_word _) as [[[wd rest] k]|] eqn:E.
    + inv_bind H. inv_bind H. injection H as _ <-.
      apply (Hstore _ _ _ _ (scan_word_length _ _ _ _ E)) in E0.
      unfold modify_obj in E1. injection E1 as _ <-. exact E0.
    + inv_bind H. injection H as _ <-.
      unfold modify_obj in E0. by injection E0 as _ <-.
Qed.

Lemma forth_get_word_buffer_witness :
  let w := world_of (forth_set_string_input (bytes "hello") small_core)
             small_core in
  let w' := world_of (forth_get_word 64 w) w in
  cell_at (o_m (obj w')) DICTIONARY_START
  = cell_at (o_m (obj w)) DICTIONARY_START.
Proof.
  intros w w'. refine (forth_get_word_buffer 64 w 5 w' _ _ _ _).
  - apply Ok_world_of. vm_compute. reflexivity.
  - lia.
  - right. vm_compute. reflexivity.
Defined.

(** ** The dictionary: [compile] and [find] *)

(** The C string at byte offset [p] of the image [m] is [s]. *)
Definition string_at (m : gmap Z Z) (p : Z) (s : list Z) : Prop :=
  (∀ j, (j < length s)%nat → byte_at m (p + Z.of_nat j) = char_at s j) ∧
  byte_at m (p + Z.of_nat (length s)) = 0 ∧
  Forall (λ c, c ≠ 0) s.

Lemma string_at_nil m p : byte_at m p = 0 → string_at m p [].
Proof.
  intros H. split; [cbn [length]; lia|]. split; [|done].
  cbn [length]. change (Z.of_nat 0) with 0. by rewrite Z.add_0_r.
Qed.

Lemma string_at_cons m p c s :
  byte_at m p = c → c ≠ 0 → string_at m (p + 1) s → string_at m p (c :: s).
Proof.
  intros Hc Hne (Hb & H0 & Hs). split; [|split].
  - intros [|j] Hj.
    + change (Z.of_nat 0) with 0. by rewrite Z.add_0_r.
    + cbn [length] in Hj. specialize (Hb j ltac:(lia)).
      rewrite Nat2Z.inj_succ.
      replace (p + Z.succ (Z.of_nat j)) with (p + 1 + Z.of_nat j) by lia.
      exact Hb.
  - cbn [length]. rewrite Nat2Z.inj_succ.
    by replace (p + Z.succ (Z.of_nat (length s)))
         with (p + 1 + Z.of_nat (length s)) by lia.
  - by constructor.
Qed.

Lemma string_at_cons_inv m p c s :
  string_at m p (c :: s) →
  byte_at m p = c ∧ c ≠ 0 ∧ string_at m (p + 1) s.
Proof.
  intros (Hb & H0 & Hs). apply Forall_cons in Hs as [Hc Hs].
  split; [|split; [done|]].
  - specialize (Hb 0%nat ltac:(cbn [length]; lia)).
    change (Z.of_nat 0) with 0 in Hb. by rewrite Z.add_0_r in Hb.
  - split; [|split; [|done]].
    + intros j Hj. specialize (Hb (S j) ltac:(cbn [length]; lia)).
      rewrite Nat2Z.inj_succ in Hb.
      by replace (p + 1 + Z.of_nat j) with (p + Z.succ (Z.of_nat j)) by lia.
    + cbn [length] in H0. rewrite Nat2Z.inj_succ in H0.
      by replace (p + 1 + Z.of_nat (length s))
           with (p + Z.succ (Z.of_nat (length s))) by lia.
Qed.

(** A string that was stored is in the image. *)
Lemma string_at_stored m p s :
  Forall (λ c, 0 < c < 256) s → string_at (mem_store_bytes m p (s ++ [0])) p s.
Proof.
  intros Hs. destruct (stored_string m p s Hs) as [Hb H0].
  split; [done|split; [done|]].
  eapply Forall_impl; [exact Hs|]. cbv beta. lia.
Qed.

(** The string depends only on the cells that hold it. *)
Lemma string_at_ext m m' p s :
  0 ≤ p →
  (∀ i, p / cell_bytes ≤ i ≤ (p + Z.of_nat (length s)) / cell_bytes →
        cell_at m' i = cell_at m i) →
  string_at m p s → string_at m' p s.
Proof.
  intros Hp Hm (Hb & H0 & Hs).
  assert (∀ k, p ≤ k ≤ p + Z.of_nat (length s) → byte_at m' k = byte_at m k)
    as Hk.
  { intros k Hk. unfold byte_at. rewrite Hm; [done|].
    unfold cell_bytes. split; apply Z.div_le_mono; lia. }
  split; [|split; [|done]].
  - intros j Hj. rewrite Hk by lia. by apply Hb.
  - rewrite Hk by lia. done.
Qed.

Lemma load8_Ok k w x w' :
  load8 k w = Ok x w' →
  w' = w ∧ x = byte_at (o_m (obj w)) k ∧
  0 ≤ k / cell_bytes < o_core_size (obj w).
Proof.
  unfold load8. intros H. inv_bind H.
  apply load_Ok in E as (-> & -> & Hi). injection H as <- <-.
  by apply in_image_iff in Hi.
Qed.

Lemma load8_at k w :
  0 ≤ k < cell_bytes * o_core_size (obj w) →
  load8 k w = Ok (byte_at (o_m (obj w)) k) w.
Proof. apply load8_ok. Qed.

(** [strcmp] on two equal strings of the image. *)
Lemma strcmp_loop_equal s : ∀ fuel p q w,
  string_at (o_m (obj w)) p s → string_at (o_m (obj w)) q s →
  0 ≤ p → 0 ≤ q →
  p + Z.of_nat (length s) < cell_bytes * o_core_size (obj w) →
  q + Z.of_nat (length s) < cell_bytes * o_core_size (obj w) →
  (length s < fuel)%nat →
  strcmp_loop fuel p q w = Ok false w.
Proof.
  induction s as [|c s IH]; intros fuel p q w Hp Hq Hp0 Hq0 Hpl Hql Hf;
    (destruct fuel as [|fuel]; [cbn [length] in Hf; lia|]);
    cbn [strcmp_loop]; cbn [length] in Hpl, Hql, Hf;
    rewrite (bind_eq _ _ w _ _ (load8_at p w ltac:(lia)));
    rewrite (bind_eq _ _ w _ _ (load8_at q w ltac:(lia))).
  - destruct Hp as (_ & Hp & _), Hq as (_ & Hq & _). cbn [length] in Hp, Hq.
    change (Z.of_nat 0) with 0 in *. rewrite Z.add_0_r in Hp, Hq.
    by rewrite Hp, Hq.
  - apply string_at_cons_inv in Hp as (-> & Hc & Hp).
    apply string_at_cons_inv in Hq as (Hq1 & _ & Hq). rewrite Hq1.
    rewrite Z.eqb_refl. cbn [negb].
    destruct (Z.eqb_spec c 0); [done|].
    apply IH; try done; lia.
Qed.

(** When [strcmp] finds two strings of the image equal, they are. *)
Lemma strcmp_loop_false fuel : ∀ p q w w',
  strcmp_loop fuel p q w = Ok false w' →
  ∃ s, string_at (o_m (obj w)) p s ∧ string_at (o_m (obj w)) q s.
Proof.
  induction fuel as [|fuel IH]; intros p q w w' H; [done|].
  cbn [strcmp_loop] in H. inv_bind H. apply load8_Ok in E as (-> & -> & _).
  inv_bind H. apply load8_Ok in E as (-> & -> & _).
  destruct (Z.eqb_spec (byte_at (o_m (obj w)) p) (byte_at (o_m (obj w)) q))
    as [Heq|]; [|done].
  cbn [negb] in H.
  destruct (Z.eqb_spec (byte_at (o_m (obj w)) p) 0) as [H0|H0].
  - exists []. split; apply string_at_nil; congruence.
  - apply IH in H as (s & Hp & Hq).
    exists (byte_at (o_m (obj w)) p :: s).
    split; apply string_at_cons; (done || congruence).
Qed.

Lemma find_loop_sound n : ∀ x len w r w',
  find_loop n x len w = Ok r w' →
  len = WORD_LENGTH (cell_at (o_m (obj w)) (x + 1)) → r ≠ 0 →
  DICTIONARY_START < r ∧
  WORD_HIDDEN (cell_at (o_m (obj w)) (r + 1)) = 0 ∧
  ∃ name,
    string_at (o_m (obj w)) (o_s (obj w)) name ∧
    string_at (o_m (obj w))
      (cell_bytes * (r - WORD_LENGTH (cell_at (o_m (obj w)) (r + 1)))) name.
Proof.
  induction n as [|n IH]; intros x len w r w' H Hlen Hr; [done|].
  cbn [find_loop] in H.
  destruct (Z.gtb_spec x DICTIONARY_START) as [Hx|Hx];
    [|injection H as <- _; done].
  rewrite bind_get_obj in H. inv_bind H.
  pose proof (pure_strcmp _ _ _ _ _ E) as ->.
  destruct a as [|].
  - rewrite bind_ret in H. inv_bind H. apply load_Ok in E0 as (-> & -> & _).
    inv_bind H. apply load_Ok in E0 as (-> & -> & _).
    by apply IH in H.
  - inv_bind H. inv_bind E0. apply load_Ok in E1 as (-> & -> & _).
    injection E0 as <- <-.
    destruct (Z.eqb_spec (WORD_HIDDEN (cell_at (o_m (obj w)) (x + 1))) 0)
      as [Hh|Hh]; cbn [negb] in H.
    + injection H as <- <-. split; [lia|]. split; [done|].
      unfold strcmp in E. rewrite bind_get_obj in E.
      apply strcmp_loop_false in E. by rewrite <- Hlen.
    + inv_bind H. apply load_Ok in E0 as (-> & -> & _).
      inv_bind H. apply load_Ok in E0 as (-> & -> & _).
      by apply IH in H.
Qed.

(** [find] is sound: the word it returns lies in the dictionary, is not
    hidden, and the name stored before its header, at the distance the
    header gives, is the string at [o->s]; [find] itself changes nothing. *)
Theorem find_sound n w r w' :
  find n w = Ok r w' → r ≠ 0 →
  let m := o_m (obj w) in
  let f1 := cell_at m (r + 1) in
  w' = w ∧ DICTIONARY_START < r ∧ WORD_HIDDEN f1 = 0 ∧
  ∃ name,
    string_at m (o_s (obj w)) name ∧
    string_at m (cell_bytes * (r - WORD_LENGTH f1)) name.
Proof.
  intros H Hr m f1. split; [by eapply pure_find|].
  unfold find in H. inv_bind H. apply load_Ok in E as (-> & -> & _).
  inv_bind H. apply load_Ok in E as (-> & -> & _).
  by apply find_loop_sound in H.
Qed.

(** A small core with an empty dictionary, as [forth_init] begins it: the
    dictionary pointer at [DICTIONARY_START] and the terminating link 1. *)
Definition small_dictionary : world :=
  World (set_m (<[DIC := DICTIONARY_START]> (<[PWD := 1]> ∅))
           (obj small_core)) host0.

(** The small core after [sq] was read from the input and compiled. *)
Definition small_sq : world :=
  let w := world_of (forth_set_string_input (bytes "sq") small_dictionary)
             small_dictionary in
  world_of (compile (code_of COMPILE) None w) w.

Lemma find_sound_witness :
  let w := small_sq in
  let w' := world_of (find 10 w) w in
  let m := o_m (obj w) in
  let f1 := cell_at m (66 + 1) in
  w' = w ∧ DICTIONARY_START < 66 ∧ WORD_HIDDEN f1 = 0 ∧
  ∃ name,
    string_at m (o_s (obj w)) name ∧
    string_at m (cell_bytes * (66 - WORD_LENGTH f1)) name.
Proof.
  intros w w'. refine (find_sound 10 w 66 w' _ _).
  - apply Ok_world_of. vm_compute. reflexivity.
  - discriminate.
Defined.

(** *** The header of a word *)

(** The second cell of a header, as [compile] packs it. *)
Definition header_field (l code : Z) : Z :=
  cell (Z.lor (Z.shiftl l WORD_LENGTH_OFFSET) code).

Definition header_field_ok (l code : Z) : bool :=
  (WORD_LENGTH (header_field l code) =? l)
  && (b (header_field l code) =? code)
  && (WORD_HIDDEN (header_field l code) =? 0).

Lemma header_fields_ok :
  all_from 256 0 (λ l, all_from 127 0 (header_field_ok l)) = true.
Proof. vm_compute. reflexivity. Qed.

Lemma header_field_spec l code :
  0 ≤ l < 256 → 0 ≤ code < INSTRUCTION_MASK →
  WORD_LENGTH (header_field l code) = l ∧
  b (header_field l code) = code ∧
  WORD_HIDDEN (header_field l code) = 0.
Proof.
  intros Hl Hc.
  pose proof (all_from_spec _ _ _ header_fields_ok l ltac:(lia)) as H.
  cbv beta in H.
  pose proof (all_from_spec _ _ _ H code
                ltac:(unfold INSTRUCTION_MASK in Hc; lia)) as H'.
  unfold header_field_ok in H'.
  apply andb_true_iff in H' as [H' H3]. apply andb_true_iff in H' as [H1 H2].
  by rewrite Z.eqb_eq in H1, H2, H3.
Qed.

(** The macros [WORD_LENGTH], [b] and [WORD_HIDDEN] take apart what
    [compile] packs: for a name length below 256 cells and an instruction
    below [INSTRUCTION_MASK], they give back the length and the instruction,
    and the word is not hidden. *)
Theorem header_field_round_trip l code :
  0 ≤ l < 256 → 0 ≤ code < INSTRUCTION_MASK →
  WORD_LENGTH (header_field l code) = l ∧
  b (header_field l code) = code ∧
  WORD_HIDDEN (header_field l code) = 0.
Proof.
  intros Hl Hc. unfold INSTRUCTION_MASK in Hc.
  pose proof (all_from_spec _ _ _ header_fields_ok l ltac:(lia)) as H.
  cbv beta in H.
  pose proof (all_from_spec _ _ _ H code ltac:(lia)) as Hok.
  unfold header_field_ok in Hok. rewrite !andb_true_iff, !Z.eqb_eq in Hok.
  tauto.
Qed.

Lemma header_field_round_trip_witness :
  WORD_LENGTH (header_field 2 (code_of COMPILE)) = 2 ∧
  b (header_field 2 (code_of COMPILE)) = code_of COMPILE ∧
  WORD_HIDDEN (header_field 2 (code_of COMPILE)) = 0.
Proof.
  apply (header_field_round_trip 2 (code_of COMPILE)); vm_compute;
    split; (discriminate || reflexivity).
Defined.

(** The number of cells [compile] reserves for the name [s]:
    [strlen + 1], aligned up to cells. *)
Definition name_cells (s : list Z) : Z := (Z.of_nat (length s) + 2) / 2.

(** The part of [compile] that follows the choice of the name: the header
    for the name [s] is laid out at the cell [header]. *)
Definition compile_header (header code : Z) (s : list Z) : M Z :=
  store_string (cell_bytes * header) s ;;;
  let l := Z.of_nat (length s) + 1 in
  let l := Z.land (l + (cell_bytes - 1)) (Z.lnot (cell_bytes - 1)) in
  let l := l / cell_bytes in
  d <- load DIC ;; store DIC (cell (d + l)) ;;;
  pwd <- load PWD ;; append_unchecked pwd ;;;
  d <- load 0 ;; store PWD (cell (d - 1)) ;;;
  append_unchecked (cell (Z.lor (Z.shiftl l WORD_LENGTH_OFFSET) code)) ;;;
  ret 0.

Lemma compile_unfold code str :
  compile code str =
  (assert ((code <? code_of LAST) && (code <? INSTRUCTION_MASK)) ;;;
   header <- load DIC ;;
   o <- get_obj ;;
   r <- match str with
        | None =>
            n <- forth_get_word (o_s o) ;;
            if n <? 0 then ret None
            else s <- load_string (o_s o) ;; ret (Some s)
        | Some s => ret (Some (cstring s))
        end ;;
   match r with
   | None => ret (-1)
   | Some s => compile_header header code s
   end).
Proof. reflexivity. Qed.

Lemma name_cells_eq (s : list Z) :
  Z.land (Z.of_nat (length s) + 1 + (cell_bytes - 1)) (Z.lnot (cell_bytes - 1))
  / cell_bytes = name_cells s.
Proof.
  unfold cell_bytes, name_cells. change (2 - 1) with 1.
  rewrite land_lnot_1, Z.mul_comm, Z.div_mul by lia. f_equal. lia.
Qed.

(** The layout of a header. *)
Record header_at (w w' : world) (h code : Z) (s : list Z) : Prop := {
  hd_obj : obj w' = set_m (o_m (obj w')) (obj w);
  hd_env : env w' = env w;
  hd_dic : cell_at (o_m (obj w')) DIC = h + name_cells s + 2;
  hd_pwd : cell_at (o_m (obj w')) PWD = h + name_cells s;
  hd_link : cell_at (o_m (obj w')) (h + name_cells s)
            = cell_at (o_m (obj w)) PWD;
  hd_field : cell_at (o_m (obj w')) (h + name_cells s + 1)
             = header_field (name_cells s) code;
  hd_name : string_at (o_m (obj w')) (cell_bytes * h) s;
  hd_frame : ∀ i, i ≠ DIC → i ≠ PWD → i < h ∨ h + name_cells s + 1 < i →
                  cell_at (o_m (obj w')) i = cell_at (o_m (obj w)) i
}.

Lemma name_cells_bounds (s : list Z) :
  Z.of_nat (length s) + 1 ≤ 2 * name_cells s ≤ Z.of_nat (length s) + 2.
Proof.
  unfold name_cells.
  pose proof (Z.div_mod (Z.of_nat (length s) + 2) 2 ltac:(lia)).
  pose proof (Z.mod_pos_bound (Z.of_nat (length s) + 2) 2 ltac:(lia)). lia.
Qed.

Lemma compile_header_ok h code s w :
  Forall (λ c, 0 < c < 256) s →
  cell_at (o_m (obj w)) DIC = h → DICTIONARY_START ≤ h →
  h + name_cells s + 2 < o_core_size (obj w) → o_core_size (obj w) ≤ 65536 →
  ∃ w', compile_header h code s w = Ok 0 w' ∧ header_at w w' h code s.
Proof.
  intros Hs Hh Hstart Hroom Hsize.
  pose proof (name_cells_bounds s) as Hl.
  unfold DICTIONARY_START, STRING_OFFSET, MAX_WORD_LENGTH in Hstart.
  unfold compile_header. rewrite name_cells_eq.
  fold (header_field (name_cells s) code).
  set (l := name_cells s) in *.
  unfold store_string.
  rewrite (bind_eq _ _ w _ _
             (store_bytes_ok (s ++ [0]) (cell_bytes * h) w
                ltac:(unfold cell_bytes; lia)
                ltac:(rewrite length_app, Nat2Z.inj_add; cbn [length];
                      unfold cell_bytes; lia))).
  set (m1 := mem_store_bytes (o_m (obj w)) (cell_bytes * h) (s ++ [0])).
  assert (∀ i, i < h ∨ h + l - 1 < i → cell_at m1 i = cell_at (o_m (obj w)) i)
    as Hm1.
  { intros i Hi. apply cell_at_store_bytes_other; [unfold cell_bytes; lia|].
    unfold cell_bytes. rewrite Z.mul_comm, Z.div_mul by lia.
    destruct Hi as [Hi|Hi]; [by left|right].
    assert ((h * 2 + Z.of_nat (length (s ++ [0])) - 1) / 2 < h + l); [|lia].
    apply Z.div_lt_upper_bound; [lia|].
    rewrite length_app, Nat2Z.inj_add. cbn [length]. lia. }
  unfold append_unchecked, DIC, PWD in *.
  repeat (ostep; rewrite ?cell_at_insert;
          repeat first [rewrite decide_True by lia
                       |rewrite decide_False by lia];
          rewrite ?(Hm1 0), ?(Hm1 10), ?Hh by lia;
          repeat rewrite cell_small by lia).
  eexists. split; [reflexivity|].
  split; osimpl; try done; unfold DIC, PWD;
    rewrite ?cell_at_insert;
    repeat first [rewrite decide_True by lia|rewrite decide_False by lia];
    try done; try lia.
  - apply (string_at_ext m1); [unfold cell_bytes; lia| |].
    + intros i Hi. unfold cell_bytes in Hi.
      rewrite Z.mul_comm, Z.div_mul in Hi by lia.
      assert ((h * 2 + Z.of_nat (length s)) / 2 < h + l)
        by (apply Z.div_lt_upper_bound; lia).
      rewrite !cell_at_insert. by repeat (rewrite decide_False by lia).
    + by apply string_at_stored.
  - intros i Hi0 Hi10 Hi. rewrite !cell_at_insert.
    repeat (rewrite decide_False by lia). apply Hm1. lia.
Qed.

(** The word whose header [compile] has just laid out is the one [find]
    returns when its name is the string at [o->s]. *)
Lemma find_new_word n w w' h code s :
  header_at w w' h code s →
  string_at (o_m (obj w')) (o_s (obj w')) s →
  0 ≤ code < INSTRUCTION_MASK → name_cells s < 256 →
  DICTIONARY_START ≤ h → h + name_cells s + 2 < o_core_size (obj w') →
  0 ≤ o_s (obj w') →
  o_s (obj w') + Z.of_nat (length s) < cell_bytes * o_core_size (obj w') →
  find (S n) w' = Ok (h + name_cells s) w'.
Proof.
  intros [_ _ _ Hpwd _ Hfield Hname _] Hstr Hcode Hl256 Hstart Hroom Hs0 Hs.
  pose proof (name_cells_bounds s) as Hl.
  destruct (header_field_spec (name_cells s) code ltac:(lia) Hcode)
    as (HL & _ & HH).
  unfold DICTIONARY_START, STRING_OFFSET, MAX_WORD_LENGTH in Hstart.
  unfold find, PWD in *.
  ostep. rewrite Hpwd. ostep. rewrite Hfield, HL.
  cbn [find_loop]. unfold DICTIONARY_START, STRING_OFFSET, MAX_WORD_LENGTH.
  destruct (Z.gtb_spec (h + name_cells s) (32 + 32)); [|lia].
  rewrite bind_get_obj.
  replace (h + name_cells s - name_cells s) with h by lia.
  unfold strcmp. rewrite bind_bind, bind_get_obj.
  rewrite (bind_eq _ _ w' _ _
             (strcmp_loop_equal s (bytes_from (obj w') (o_s (obj w')))
                (o_s (obj w')) (cell_bytes * h) w' Hstr Hname Hs0
                ltac:(unfold cell_bytes; lia) Hs
                ltac:(unfold cell_bytes; lia)
                ltac:(unfold bytes_from; lia))).
  do 3 ostep. rewrite Hfield, HH. reflexivity.
Qed.

Lemma Forall_skip_space (P : Z → Prop) s :
  Forall P s → Forall P (skip_space s).
Proof.
  induction 1 as [|c s Hc Hs IH]; [done|]. cbn [skip_space].
  destruct (isspace c); [done|by constructor].
Qed.

Lemma Forall_take_word (P : Z → Prop) n : ∀ s,
  Forall P s → Forall P (take_word n s).
Proof.
  induction n as [|n IH]; intros s Hs; [by destruct s|].
  destruct Hs as [|c s Hc Hs]; [done|]. cbn [take_word].
  destruct (isspace c); [done|]. constructor; [done|by apply IH].
Qed.

Lemma scan_word_Some (P : Z → Prop) s wd rest k :
  scan_word s = Some (wd, rest, k) → Forall P s →
  Forall P wd ∧ (length wd ≤ 31)%nat ∧ 0 ≤ k.
Proof.
  intros H Hs. split; [|split; [by eapply scan_word_length|]].
  - unfold scan_word in H.
    change (Z.to_nat (MAX_WORD_LENGTH - 1)) with 31%nat in H.
    pose proof (Forall_skip_space P s Hs) as Hr.
    destruct (skip_space s) as [|c r]; [done|].
    assert (wd = take_word 31 (c :: r)) as -> by congruence.
    by apply Forall_take_word.
  - unfold scan_word in H. destruct (skip_space s) as [|c r]; [done|].
    assert (k = Z.of_nat (length s - length (c :: r)
                          + length (take_word (Z.to_nat (MAX_WORD_LENGTH - 1))
                                      (c :: r)))) as -> by congruence.
    lia.
Qed.

(** A word defined from the input is found under its name: [compile] with
    no name given reads the next word of the input into [o->s], lays out the
    header at the dictionary pointer (the name, the link to the previous
    word, and the cell with the length of the name and the instruction), and
    moves [m[DIC]] and [m[PWD]]; a look-up that follows returns the new
    word.  At the end of the input [compile] returns -1 and changes
    nothing. *)
Theorem defined_word_is_found n code s i w :
  string_input s i w → 0 ≤ i ≤ Z.of_nat (length s) →
  o_s (obj w) = cell_bytes * STRING_OFFSET →
  0 ≤ code < code_of LAST →
  let h := cell_at (o_m (obj w)) DIC in
  DICTIONARY_START ≤ h →
  h + 18 < o_core_size (obj w) → o_core_size (obj w) ≤ 65536 →
  (∀ wd rest k,
     scan_word (drop (Z.to_nat i) s) = Some (wd, rest, k) →
     ∃ w',
       compile code None w = Ok 0 w' ∧
       cell_at (o_m (obj w')) DIC = h + name_cells wd + 2 ∧
       cell_at (o_m (obj w')) PWD = h + name_cells wd ∧
       cell_at (o_m (obj w')) (h + name_cells wd)
       = cell_at (o_m (obj w)) PWD ∧
       b (cell_at (o_m (obj w')) (h + name_cells wd + 1)) = code ∧
       string_at (o_m (obj w')) (cell_bytes * h) wd ∧
       find (S n) w' = Ok (h + name_cells wd) w') ∧
  (scan_word (drop (Z.to_nat i) s) = None → compile code None w = Ok (-1) w).
Proof.
  intros Hw Hi Hs Hcode h Hstart Hroom Hsize.
  pose proof Hw as [Hin Hsin Hslen Hidx Hb].
  assert (cstring (drop (Z.to_nat (o_sidx (obj w))) (o_sin (obj w)))
          = drop (Z.to_nat i) s) as Hc.
  { rewrite Hidx, Hsin. apply cstring_no_NUL. by apply Forall_drop. }
  unfold DICTIONARY_START, STRING_OFFSET, MAX_WORD_LENGTH, cell_bytes in *.
  change (code_of LAST) with 40 in Hcode.
  rewrite compile_unfold.
  rewrite bind_assert_true
    by (apply andb_true_iff; split; apply Z.ltb_lt;
        [change (code_of LAST) with 40|unfold INSTRUCTION_MASK]; lia).
  unfold DIC. ostep. fold h. ostep. rewrite Hs.
  split.
  - intros wd rest k Hscan.
    destruct (scan_word_Some (λ c, 0 < c < 256) _ _ _ _ Hscan
                ltac:(by apply Forall_drop)) as (Hwd & Hlen & Hk).
    pose proof (name_cells_bounds wd) as Hl.
    rewrite bind_bind.
    rewrite (bind_eq _ _ w _ _
               (forth_get_word_string (2 * 32) w wd rest k Hin
                  ltac:(rewrite Hidx, Hsin; lia)
                  ltac:(by rewrite Hc) ltac:(lia)
                  ltac:(unfold cell_bytes; lia))).
    destruct (Z.ltb_spec k 0); [lia|].
    set (w1 := World _ (env w)).
    assert (string_at (o_m (obj w1)) (2 * 32) wd) as Hstr
      by (by apply string_at_stored).
    rewrite bind_bind. unfold load_string. rewrite bind_bind, bind_get_obj.
    destruct Hstr as (Hstr1 & Hstr2 & Hstr3).
    rewrite (bind_eq _ _ w1 _ _
               (load_string_loop_ok wd (bytes_from (obj w1) (2 * 32))
                  (2 * 32) w1 Hstr3 Hstr1 Hstr2 ltac:(lia)
                  ltac:(subst w1; unfold cell_bytes; osimpl; lia)
                  ltac:(subst w1; unfold bytes_from, cell_bytes; osimpl;
                        lia))).
    rewrite !bind_ret.
    assert (∀ j, j < 32 ∨ 47 < j →
                 cell_at (o_m (obj w1)) j = cell_at (o_m (obj w)) j) as Hm1.
    { intros j Hj. subst w1. osimpl.
      apply cell_at_store_bytes_other; [lia|]. unfold cell_bytes.
      change (2 * 32 / 2) with 32.
      destruct Hj as [Hj|Hj]; [by left|right].
      assert ((2 * 32 + Z.of_nat (length (wd ++ [0])) - 1) / 2 < 48); [|lia].
      apply Z.div_lt_upper_bound; [lia|].
      rewrite length_app, Nat2Z.inj_add. cbn [length]. lia. }
    destruct (compile_header_ok h code wd w1 Hwd
                ltac:(unfold DIC; rewrite Hm1 by lia; done)
                ltac:(unfold DICTIONARY_START, STRING_OFFSET,
                        MAX_WORD_LENGTH; lia)
                ltac:(subst w1; osimpl; lia) ltac:(subst w1; osimpl; lia))
      as (w' & Hrun & Hhd).
    exists w'. split; [exact Hrun|].
    pose proof Hhd as [Hobj _ Hdic Hpwd Hlink Hfield Hname Hframe].
    destruct (header_field_spec (name_cells wd) code ltac:(lia)
                ltac:(unfold INSTRUCTION_MASK; lia)) as (_ & Hb' & _).
    assert (o_s (obj w') = 2 * 32 ∧ o_core_size (obj w') = o_core_size (obj w))
      as [Hs' Hsize'].
    { rewrite Hobj. subst w1. osimpl. done. }
    split; [exact Hdic|]. split; [exact Hpwd|].
    split; [by rewrite Hlink, (Hm1 PWD) by (unfold PWD; lia)|].
    split; [by rewrite Hfield|]. split; [exact Hname|].
    apply (find_new_word n w1 w' h code wd Hhd); rewrite ?Hs', ?Hsize';
      unfold DICTIONARY_START, STRING_OFFSET, MAX_WORD_LENGTH,
        INSTRUCTION_MASK, cell_bytes; try lia.
    apply (string_at_ext (o_m (obj w1))); [lia| |by split].
    intros j Hj. unfold cell_bytes in Hj. change (2 * 32 / 2) with 32 in Hj.
    assert ((2 * 32 + Z.of_nat (length wd)) / 2 < 48)
      by (apply Z.div_lt_upper_bound; lia).
    apply Hframe; unfold DIC, PWD; lia.
  - intros Hscan. rewrite bind_bind.
    by rewrite (bind_eq _ _ w _ _
                  (forth_get_word_string_eof (2 * 32) w Hin
                     ltac:(rewrite Hidx, Hsin; lia)
                     ltac:(by rewrite Hc))).
Qed.

Lemma defined_word_is_found_witness :
  let s := bytes "sq dup * ;" in
  let w := world_of (forth_set_string_input s small_dictionary)
             small_dictionary in
  let code := code_of COMPILE in
  let h := cell_at (o_m (obj w)) DIC in
  (∀ wd rest k,
     scan_word (drop (Z.to_nat 0) s) = Some (wd, rest, k) →
     ∃ w',
       compile code None w = Ok 0 w' ∧
       cell_at (o_m (obj w')) DIC = h + name_cells wd + 2 ∧
       cell_at (o_m (obj w')) PWD = h + name_cells wd ∧
       cell_at (o_m (obj w')) (h + name_cells wd)
       = cell_at (o_m (obj w)) PWD ∧
       b (cell_at (o_m (obj w')) (h + name_cells wd + 1)) = code ∧
       string_at (o_m (obj w')) (cell_bytes * h) wd ∧
       find 11 w' = Ok (h + name_cells wd) w') ∧
  (scan_word (drop (Z.to_nat 0) s) = None → compile code None w = Ok (-1) w).
Proof.
  intros s w code h.
  apply (defined_word_is_found 10 code s 0 w).
  - apply string_input_set. repeat constructor.
  - vm_compute. split; discriminate.
  - reflexivity.
  - vm_compute. split; [discriminate|reflexivity].
  - vm_compute. discriminate.
  - vm_compute. reflexivity.
  - vm_compute. discriminate.
Defined.

(** On the small core: after [sq] is compiled, the header is at cell 66, the
    dictionary pointer at 68, and [find] returns 66. *)
Example compile_sq :
  scan_word (bytes "sq dup * ;") = Some (bytes "sq", bytes " dup * ;", 2) ∧
  name_cells (bytes "sq") = 2 ∧
  cell_at (o_m (obj small_sq)) DIC = 68 ∧
  cell_at (o_m (obj small_sq)) PWD = 66 ∧
  value_of (find 10 small_sq) = Some 66.
Proof. vm_compute. done. Qed.

(** ** Blocks: [blockio] *)

Lemma nth_image_bytes m n : ∀ p j,
  (j < n)%nat → nth j (image_bytes m n p) 0 = byte_at m (p + Z.of_nat j).
Proof.
  induction n as [|n IH]; intros p j Hj; [lia|]. cbn [image_bytes].
  destruct j as [|j]; cbn [nth].
  - change (Z.of_nat 0) with 0. by rewrite Z.add_0_r.
  - rewrite IH by lia. f_equal. lia.
Qed.

Lemma byte_at_range m k : 0 ≤ byte_at m k < 256.
Proof.
  unfold byte_at, byte_of_cell.
  destruct (_ =? 0); apply Z.mod_pos_bound; lia.
Qed.

(** Below the bound of its offset test, [blockio] is the transfer. *)
Lemma blockio_guard_pass p id rw w :
  BLOCK_SIZE ≤ o_core_size (obj w) < 2 ^ 64 →
  p ≤ o_core_size (obj w) - BLOCK_SIZE →
  blockio p id rw w = blockio_transfer p id rw w.
Proof.
  intros Hc Hp. unfold blockio. rewrite bind_get_obj.
  assert (size_t (o_core_size (obj w) - BLOCK_SIZE)
          = o_core_size (obj w) - BLOCK_SIZE) as ->
    by (unfold size_t, BLOCK_SIZE in *; apply Z.mod_small; lia).
  by destruct (Z.gtb_spec p (o_core_size (obj w) - BLOCK_SIZE)); [lia|].
Qed.

(** Writing a block. *)
Lemma blockio_transfer_save p id w :
  block_name id ∉ h_readonly (env w) →
  0 ≤ p → p + BLOCK_SIZE ≤ cell_bytes * o_core_size (obj w) →
  blockio_transfer p id 119 w =
  Ok 0 (World (obj w)
          (set_blocks
             (<[block_name id :=
                  image_bytes (o_m (obj w)) (Z.to_nat BLOCK_SIZE) p]>
                (h_blocks (env w)))
             (env w))).
Proof.
  intros Hro Hp Hl. unfold blockio_transfer. rewrite bind_get_env.
  change (119 =? 114) with false. cbv iota.
  rewrite bool_decide_eq_false_2 by done.
  unfold bind at 1, modify_env at 1.
  change (119 =? 119) with true. cbv iota.
  set (w1 := World _ _).
  rewrite (bind_eq _ _ w1 _ _
             (load_bytes_ok (Z.to_nat BLOCK_SIZE) p w1 Hp
                ltac:(subst w1; cbn [obj o_core_size];
                      unfold cell_bytes, BLOCK_SIZE in *; lia))).
  subst w1. unfold bind, modify_env, ret, set_blocks.
  cbn [obj env h_blocks h_readonly h_stderr].
  by rewrite insert_insert_eq.
Qed.

(** Reading a block from a file that exists: the bytes of the file, at most
    [BLOCK_SIZE] of them, go to the image, and the result tells whether they
    were [BLOCK_SIZE]. *)
Lemma blockio_transfer_load p id w data :
  h_blocks (env w) !! block_name id = Some data →
  0 ≤ p →
  p + Z.of_nat (length (take (Z.to_nat BLOCK_SIZE) data))
  ≤ cell_bytes * o_core_size (obj w) →
  blockio_transfer p id 114 w =
  Ok (if Z.of_nat (length (take (Z.to_nat BLOCK_SIZE) data)) =? BLOCK_SIZE
      then 0 else -1)
     (World (set_m (mem_store_bytes (o_m (obj w)) p
                      (take (Z.to_nat BLOCK_SIZE) data))
               (obj w))
        (env w)).
Proof.
  intros Hd Hp Hl. unfold blockio_transfer. rewrite bind_get_env.
  change (114 =? 114) with true. cbv iota. rewrite Hd.
  by rewrite (bind_eq _ _ w _ _ (store_bytes_ok _ p w Hp Hl)).
Qed.

(** A block written by [blockio] is read back by [blockio]: after a write of
    block [id] from the byte offset [src] and a read of it to the byte offset
    [dst], both within the bound of the offset test, both calls have
    returned 0, the [BLOCK_SIZE] bytes of the image from [dst] on are those
    that were at [src], the cells outside them are unchanged, and the block
    file holds these bytes. *)
Theorem blockio_save_load src dst id w :
  BLOCK_SIZE ≤ o_core_size (obj w) < 2 ^ 64 →
  0 ≤ src ≤ o_core_size (obj w) - BLOCK_SIZE →
  0 ≤ dst ≤ o_core_size (obj w) - BLOCK_SIZE →
  block_name id ∉ h_readonly (env w) →
  ∃ w',
    (r1 <- blockio src id 119 ;; r2 <- blockio dst id 114 ;; ret (r1, r2)) w
    = Ok (0, 0) w' ∧
    (∀ j, 0 ≤ j < BLOCK_SIZE →
          byte_at (o_m (obj w')) (dst + j) = byte_at (o_m (obj w)) (src + j)) ∧
    (∀ i, i < dst / cell_bytes ∨ (dst + BLOCK_SIZE - 1) / cell_bytes < i →
          cell_at (o_m (obj w')) i = cell_at (o_m (obj w)) i) ∧
    h_blocks (env w') !! block_name id
    = Some (image_bytes (o_m (obj w)) (Z.to_nat BLOCK_SIZE) src).
Proof.
  intros Hc Hsrc Hdst Hro.
  set (n := Z.to_nat BLOCK_SIZE).
  assert (Z.of_nat n = BLOCK_SIZE) as Hn by done.
  set (data := image_bytes (o_m (obj w)) n src).
  assert (length data = n) as Hlen by apply image_bytes_length.
  assert (take n data = data) as Htake
    by (apply take_ge; lia).
  rewrite (bind_eq _ _ w _ _
             (eq_trans (blockio_guard_pass src id 119 w Hc ltac:(lia))
                (blockio_transfer_save src id w Hro ltac:(lia)
                   ltac:(unfold cell_bytes, BLOCK_SIZE in *; lia)))).
  fold n. fold data. cbv beta.
  set (w1 := World (obj w) _).
  assert (h_blocks (env w1) !! block_name id = Some data) as Hd
    by (subst w1; cbn [env h_blocks set_blocks]; apply lookup_insert_eq).
  rewrite (bind_eq _ _ w1 _ _
             (eq_trans (blockio_guard_pass dst id 114 w1 Hc
                          ltac:(subst w1; cbn [obj]; lia))
                (blockio_transfer_load dst id w1 data Hd ltac:(lia)
                   ltac:(fold n; rewrite Htake, Hlen, Hn;
                         unfold cell_bytes, BLOCK_SIZE in *;
                         subst w1; cbn [obj]; lia)))).
  fold n. rewrite Htake.
  eexists. split; [reflexivity|]. cbn [obj env o_m set_m].
  split; [|split; [|exact Hd]].
  - intros j Hj. rewrite byte_at_store_bytes, Hlen, Hn.
    destruct (Z.leb_spec dst (dst + j)); [|lia].
    destruct (Z.ltb_spec (dst + j) (dst + BLOCK_SIZE)); [|lia].
    cbn [andb]. unfold char_at, data.
    rewrite nth_image_bytes by lia.
    replace (src + Z.of_nat (Z.to_nat (dst + j - dst))) with (src + j) by lia.
    apply Z.mod_small, byte_at_range.
  - intros i Hi. apply cell_at_store_bytes_other; [lia|].
    by rewrite Hlen, Hn.
Qed.

(** A core of 2048 cells for examples with blocks. *)
Definition block_core : world :=
  World (Forth [] [] (cell_bytes * STRING_OFFSET) [] 2048 32 0 0 false false
               (DICTIONARY_START + 2) 0 1984 (<[5 := 258]> ∅)) host0.

Lemma blockio_save_load_witness :
  ∃ w',
    (r1 <- blockio 0 1 119 ;; r2 <- blockio 1024 1 114 ;; ret (r1, r2))
      block_core
    = Ok (0, 0) w' ∧
    (∀ j, 0 ≤ j < BLOCK_SIZE →
          byte_at (o_m (obj w')) (1024 + j)
          = byte_at (o_m (obj block_core)) (0 + j)) ∧
    (∀ i, i < 1024 / cell_bytes ∨ (1024 + BLOCK_SIZE - 1) / cell_bytes < i →
          cell_at (o_m (obj w')) i = cell_at (o_m (obj block_core)) i) ∧
    h_blocks (env w') !! block_name 1
    = Some (image_bytes (o_m (obj block_core)) (Z.to_nat BLOCK_SIZE) 0).
Proof.
  apply (blockio_save_load 0 1024 1 block_core).
  - vm_compute. split; [discriminate|reflexivity].
  - vm_compute. split; discriminate.
  - vm_compute. split; discriminate.
  - apply not_elem_of_nil.
Defined.



(** *** Block files are named by the block number *)

(** The block number that a file name gives back. *)
Definition block_number (name : list Z) : Z :=
  strtol_digits 16 (take 4 name) 0.

Lemma block_numbers_ok :
  all_from (Z.to_nat 65536) 0 (λ id, block_number (block_name id) =? id)
  = true.
Proof. vm_compute. reflexivity. Qed.

Lemma block_name_inj a b :
  0 ≤ a < 65536 → 0 ≤ b < 65536 → block_name a = block_name b → a = b.
Proof.
  intros Ha Hb H.
  pose proof (all_from_spec _ _ _ block_numbers_ok a ltac:(lia)) as Ha'.
  pose proof (all_from_spec _ _ _ block_numbers_ok b ltac:(lia)) as Hb'.
  cbv beta in *. apply Z.eqb_eq in Ha', Hb'. congruence.
Qed.

(** Every cell value names a block file of its own, [%04x.blk], so that a
    call of [blockio] for one block, whatever its outcome, leaves the files
    of all other blocks as they are. *)
Theorem blockio_other_blocks p a b rw w r w' :
  0 ≤ a < 65536 → 0 ≤ b < 65536 → a ≠ b →
  blockio p a rw w = Ok r w' →
  h_blocks (env w') !! block_name b = h_blocks (env w) !! block_name b.
Proof.
  intros Ha Hb Hab H.
  assert (block_name a ≠ block_name b) as Hne
    by (intros E; by apply Hab, block_name_inj).
  unfold blockio in H. rewrite bind_get_obj in H.
  destruct (_ >? _); [by injection H as _ <-|].
  unfold blockio_transfer in H. rewrite bind_get_env in H.
  destruct (rw =? 114).
  - destruct (h_blocks (env w) !! block_name a) as [data|].
    + inv_bind H. injection H as _ <-.
      apply store_bytes_Ok in E. by rewrite E.
    + inv_bind H. injection H as _ <-.
      unfold report, modify_env in E. by injection E as _ <-.
  - destruct (bool_decide _).
    + inv_bind H. injection H as _ <-.
      unfold report, modify_env in E. by injection E as _ <-.
    + inv_bind H. unfold modify_env in E. injection E as _ <-.
      destruct (rw =? 119).
      * inv_bind H. apply pure_load_bytes in E as ->.
        inv_bind H. injection H as _ <-.
        unfold modify_env in E. injection E as _ <-.
        cbn [env h_blocks set_blocks].
        by rewrite !lookup_insert_ne.
      * injection H as _ <-. cbn [env h_blocks set_blocks].
        by rewrite lookup_insert_ne.
Qed.

Lemma blockio_other_blocks_witness :
  let w := World (obj block_core)
             (set_blocks {[ block_name 2 := [1; 2; 3] ]} host0) in
  let w' := world_of (blockio 0 1 119 w) w in
  h_blocks (env w') !! block_name 2 = h_blocks (env w) !! block_name 2.
Proof.
  intros w w'. refine (blockio_other_blocks 0 1 2 119 w 0 w' _ _ _ _);
    [lia|lia|discriminate|].
  apply Ok_world_of. vm_compute. reflexivity.
Defined.

(** ** Primitives that undo each other *)

(** Normalises the cells read from an image given by its stores. *)
Ltac onorm :=
  rewrite ?cell_at_insert;
  repeat first [rewrite decide_True by lia | rewrite decide_False by lia].

(** [>r] followed by [r>] moves the top of the stack to the return stack and
    back: when the return stack and the parameter stack are apart, the
    locals are as before, the return stack pointer is as before, and of the
    image only the cell above the return stack pointer, which has held the
    value, and the return stack pointer itself were written. *)
Theorem TOR_FROMR n v w :
  let r := cell_at (o_m (obj w)) RSTK in
  1 < l_S v < o_core_size (obj w) → o_core_size (obj w) ≤ 65536 →
  0 < r → r + 1 < o_core_size (obj w) → l_S v ≠ r + 1 →
  ∃ v1 w1 w',
    execute n TOR v w = Ok (Break v1) w1 ∧
    execute n FROMR v1 w1 = Ok (Break v) w' ∧
    cell_at (o_m (obj w1)) (r + 1) = l_f v ∧
    cell_at (o_m (obj w1)) RSTK = r + 1 ∧
    cell_at (o_m (obj w')) RSTK = r ∧
    ∀ i, i ≠ RSTK → i ≠ r + 1 →
         cell_at (o_m (obj w')) i = cell_at (o_m (obj w)) i.
Proof.
  intros r HS Hsize Hr0 Hr HSr. subst r. unfold RSTK in *.
  destruct v as [pc S I f]. cbn [l_S l_f] in *.
  cbn [execute]. unfold rpush, rpop, pop, push, RSTK.
  repeat (ostep; onorm; repeat rewrite cell_small by lia).
  do 2 eexists. eexists ?[w']. split; [reflexivity|]. osimpl.
  repeat (ostep; onorm; repeat rewrite cell_small by lia).
  replace (S - 1 + 1) with S by lia.
  split; [reflexivity|]. osimpl. onorm.
  split; [done|]. split; [done|]. split; [lia|].
  intros i Hi1 Hi2. onorm.
  destruct (decide (S = i)) as [<-|]; by onorm.
Qed.

(** A small core with the return stack pointer at cell 110 and two cells on
    the parameter stack. *)
Definition small_stacks : world :=
  World (set_m (<[RSTK := 110]> (<[100 := 5]> (<[99 := 4]> ∅)))
           (obj small_core)) host0.

Lemma TOR_FROMR_witness :
  let v := Locals 0 100 0 7 in
  let w := small_stacks in
  let r := cell_at (o_m (obj w)) RSTK in
  ∃ v1 w1 w',
    execute 0 TOR v w = Ok (Break v1) w1 ∧
    execute 0 FROMR v1 w1 = Ok (Break v) w' ∧
    cell_at (o_m (obj w1)) (r + 1) = l_f v ∧
    cell_at (o_m (obj w1)) RSTK = r + 1 ∧
    cell_at (o_m (obj w')) RSTK = r ∧
    ∀ i, i ≠ RSTK → i ≠ r + 1 →
         cell_at (o_m (obj w')) i = cell_at (o_m (obj w)) i.
Proof.
  intros v w r. apply (TOR_FROMR 0 v w); vm_compute;
    (done || (split; done) || discriminate).
Defined.



(** The stack shuffles cancel: [swap swap], [dup drop] and [over drop] leave
    the locals as they were and every cell of the image with the value it
    had, except that [dup] and [over] have written the cell above the stack
    pointer. *)
Theorem stack_shuffles_cancel n v w :
  0 ≤ l_S v → l_S v + 1 < o_core_size (obj w) →
  (∃ v1 w1 w',
     execute n SWAP v w = Ok (Break v1) w1 ∧
     execute n SWAP v1 w1 = Ok (Break v) w' ∧
     l_f v1 = cell_at (o_m (obj w)) (l_S v) ∧
     cell_at (o_m (obj w1)) (l_S v) = l_f v ∧
     ∀ i, cell_at (o_m (obj w')) i = cell_at (o_m (obj w)) i) ∧
  (∃ v1 w1 w',
     execute n DUP v w = Ok (Break v1) w1 ∧
     execute n DROP v1 w1 = Ok (Break v) w' ∧
     l_S v1 = l_S v + 1 ∧ cell_at (o_m (obj w1)) (l_S v + 1) = l_f v ∧
     ∀ i, i ≠ l_S v + 1 →
          cell_at (o_m (obj w')) i = cell_at (o_m (obj w)) i) ∧
  (∃ v1 w1 w',
     execute n OVER v w = Ok (Break v1) w1 ∧
     execute n DROP v1 w1 = Ok (Break v) w' ∧
     l_f v1 = cell_at (o_m (obj w)) (l_S v) ∧
     cell_at (o_m (obj w1)) (l_S v + 1) = l_f v ∧
     ∀ i, i ≠ l_S v + 1 →
          cell_at (o_m (obj w')) i = cell_at (o_m (obj w)) i).
Proof.
  intros HS0 HS. destruct v as [pc S I f]. cbn [l_S l_f] in *.
  split; [|split]; cbn [execute]; unfold push, pop.
  - repeat (ostep; onorm).
    do 2 eexists. eexists ?[w']. split; [reflexivity|]. osimpl.
    repeat (ostep; onorm).
    split; [reflexivity|]. osimpl. onorm. split; [done|]. split; [done|].
    intros i. onorm. destruct (decide (S = i)) as [<-|]; by onorm.
  - repeat (ostep; onorm).
    do 2 eexists. eexists ?[w']. split; [reflexivity|]. osimpl.
    repeat (ostep; onorm). replace (S + 1 - 1) with S by lia.
    split; [reflexivity|]. osimpl. onorm. split; [done|]. split; [done|].
    intros i Hi. by onorm.
  - repeat (ostep; onorm).
    do 2 eexists. eexists ?[w']. split; [reflexivity|]. osimpl.
    repeat (ostep; onorm). replace (S + 1 - 1) with S by lia.
    split; [reflexivity|]. osimpl. onorm. split; [done|]. split; [done|].
    intros i Hi. by onorm.
Qed.

Lemma stack_shuffles_cancel_witness :
  let v := Locals 0 100 0 7 in
  let w := small_stacks in
  (∃ v1 w1 w',
     execute 0 SWAP v w = Ok (Break v1) w1 ∧
     execute 0 SWAP v1 w1 = Ok (Break v) w' ∧
     l_f v1 = cell_at (o_m (obj w)) (l_S v) ∧
     cell_at (o_m (obj w1)) (l_S v) = l_f v ∧
     ∀ i, cell_at (o_m (obj w')) i = cell_at (o_m (obj w)) i) ∧
  (∃ v1 w1 w',
     execute 0 DUP v w = Ok (Break v1) w1 ∧
     execute 0 DROP v1 w1 = Ok (Break v) w' ∧
     l_S v1 = l_S v + 1 ∧ cell_at (o_m (obj w1)) (l_S v + 1) = l_f v ∧
     ∀ i, i ≠ l_S v + 1 →
          cell_at (o_m (obj w')) i = cell_at (o_m (obj w)) i) ∧
  (∃ v1 w1 w',
     execute 0 OVER v w = Ok (Break v1) w1 ∧
     execute 0 DROP v1 w1 = Ok (Break v) w' ∧
     l_f v1 = cell_at (o_m (obj w)) (l_S v) ∧
     cell_at (o_m (obj w1)) (l_S v + 1) = l_f v ∧
     ∀ i, i ≠ l_S v + 1 →
          cell_at (o_m (obj w')) i = cell_at (o_m (obj w)) i).
Proof.
  intros v w. apply (stack_shuffles_cancel 0 v w); vm_compute;
    (done || discriminate).
Defined.

(** ** Illegal instructions and unchecked accesses *)




(** Two accesses of the interpreter that bypass [check_bounds]: [JMPZ] reads
    its operand [m[I]] unchecked, where [JMP] checks it; and [IMMEDIATE]
    reads [m[m[DIC]]] after it has taken 2 off the dictionary pointer.  With
    the index outside the image the access is undefined behaviour, not an
    abort of the run. *)
Theorem unchecked_operands n v w :
  (o_core_size (obj w) ≤ l_I v →
   (l_f v = 0 → execute n JMPZ v w = Undefined (OutOfImage (l_I v))) ∧
   aborts (execute n JMP v) w) ∧
  (0 < o_core_size (obj w) →
   o_core_size (obj w) ≤ cell (cell_at (o_m (obj w)) DIC - 2) →
   execute n IMMEDIATE v w
   = Undefined (OutOfImage (cell (cell_at (o_m (obj w)) DIC - 2)))).
Proof.
  split.
  - intros HI. split.
    + intros Hf. cbn [execute]. rewrite Hf. cbn [Z.eqb].
      by rewrite (bind_undefined _ _ _ _
                    (load_out (l_I v) w ltac:(right; exact HI))).
    + cbn [execute]. apply aborts_bind_l. by apply aborts_check_bounds.
  - intros H0 HD. cbn [execute]. unfold DIC in *.
    do 3 ostep. rewrite cell_at_insert, decide_True by done.
    match goal with
    | |- bind (load ?i) ?K ?W = _ =>
        by rewrite (bind_undefined (load i) K W _
                      (load_out i W ltac:(osimpl; lia)))
    end.
Qed.

Lemma unchecked_operands_witness :
  let v := Locals 70 100 200 0 in
  let w := World (set_m (<[DIC := 1]> ∅) (obj small_core)) host0 in
  (o_core_size (obj w) ≤ l_I v →
   (l_f v = 0 → execute 0 JMPZ v w = Undefined (OutOfImage (l_I v))) ∧
   aborts (execute 0 JMP v) w) ∧
  (0 < o_core_size (obj w) →
   o_core_size (obj w) ≤ cell (cell_at (o_m (obj w)) DIC - 2) →
   execute 0 IMMEDIATE v w
   = Undefined (OutOfImage (cell (cell_at (o_m (obj w)) DIC - 2)))).
Proof. intros v w. apply (unchecked_operands 0 v w). Defined.

Example unchecked_operands_small :
  let v := Locals 70 100 200 0 in
  let w := World (set_m (<[DIC := 1]> ∅) (obj small_core)) host0 in
  execute 0 JMPZ v w = Undefined (OutOfImage 200) ∧
  execute 0 IMMEDIATE v w = Undefined (OutOfImage 65535).
Proof. vm_compute. done. Qed.

(** ** Printing the stack: [print_stack] *)







Example print_stack_small :
  let w := World (set_S 126 (set_m (<[126 := 5]> (<[125 := 4]> ∅))
                              (obj small_core))) host0 in
  o_out (obj (world_of (print_stack 7 126 w) w)) = bytes "7	5	".
Proof. vm_compute. done. Qed.

(** ** Evaluating nothing *)

Lemma isspace_byte c : isspace c = true → 0 < c < 256.
Proof.
  unfold isspace. rewrite orb_true_iff, andb_true_iff.
  rewrite Z.eqb_eq, !Z.leb_le. lia.
Qed.

(** [case READ] when no word is left in the input string. *)
Lemma READ_no_word k v w :
  1 < o_core_size (obj w) →
  o_stringin (obj w) = true →
  0 ≤ o_sidx (obj w) ≤ Z.of_nat (length (o_sin (obj w))) →
  scan_word (cstring (drop (Z.to_nat (o_sidx (obj w))) (o_sin (obj w))))
  = None →
  execute k READ v w =
  Ok (GotoEnd v) (wstore RSTK (cell (cell_at (o_m (obj w)) RSTK - 1)) w).
Proof.
  intros H1 Hin Hidx Hscan. cbn [execute]. unfold read_word, RSTK.
  repeat ostep.
  match goal with
  | |- context [bind (forth_get_word ?p) ?K ?W] =>
      rewrite (bind_eq _ K W _ _
        (forth_get_word_string_eof p W ltac:(done) ltac:(osimpl; lia)
           ltac:(osimpl; exact Hscan)))
  end.
  reflexivity.
Qed.

(** Every run takes one off the return stack pointer.  On a core in
    interpret mode, [forth_eval] of a string of white space (or of the empty
    string) returns 0 and leaves [top] and the image as they were, except
    that [m[RSTK]] is one less: [forth_run] enters [READ] without the push of
    [RUN] that the decrement in [READ] is the counterpart of. *)
Theorem eval_blank_lowers_RSTK n s w :
  interpreting w → Forall (λ c, isspace c = true) s →
  ∃ w',
    forth_eval (S (S n)) s w = Ok 0 w' ∧
    o_top (obj w') = o_top (obj w) ∧
    o_out (obj w') = o_out (obj w) ∧
    cell_at (o_m (obj w')) RSTK = cell_at (o_m (obj w)) RSTK - 1 ∧
    ∀ i, i ≠ RSTK → cell_at (o_m (obj w')) i = cell_at (o_m (obj w)) i.
Proof.
  intros [Hinv HI Hs Hread Hrun Hback Hloop Hstate Hsize HS HR] Hsp.
  assert (Forall (λ c, 0 < c < 256) s) as Hb
    by (eapply Forall_impl; [exact Hsp|]; apply isspace_byte).
  unfold DICTIONARY_START, STRING_OFFSET, MAX_WORD_LENGTH, RSTK in *.
  change (32 + 32 + 2) with 66 in *. change (32 + 32 + 4) with 68 in *.
  change (32 + 32) with 64 in *. change (code_of READ) with 6 in *.
  unfold forth_eval, forth_set_string_input. rewrite bind_modify_obj.
  set (w1 := World _ (env w)).
  rewrite forth_run_valid by exact Hinv.
  change (o_I (obj w1)) with (o_I (obj w)). rewrite HI.
  rewrite (interpret_fetch _ _ w1 64)
    by (subst w1; osimpl; (done || lia)).
  rewrite interpret_inner.
  rewrite (inner_execute _ _ w1 6 READ)
    by (subst w1; osimpl; (done || lia)).
  rewrite (READ_no_word _ _ w1)
    by (subst w1; osimpl; try (done || lia);
        change (Z.to_nat 0) with 0%nat; rewrite drop_0, cstring_no_NUL by done;
        unfold scan_word; by rewrite skip_space_all).
  eexists. split; [reflexivity|]. subst w1. osimpl. unfold RSTK.
  split; [done|]. split; [done|]. split.
  - rewrite cell_at_insert, decide_True by done. apply cell_small. lia.
  - intros i Hi. by rewrite cell_at_insert, decide_False.
Qed.

(** A small core in interpret mode: the loop of [READ] and [RUN] at the
    start of the dictionary, as [forth_init] lays it out. *)
Definition small_interpreter : world :=
  World (set_m (<[RSTK := 110]>
                  (<[DICTIONARY_START := code_of READ]>
                     (<[DICTIONARY_START + 1 := code_of RUN]>
                        (<[DICTIONARY_START + 2 := DICTIONARY_START]>
                           (<[DICTIONARY_START + 3 := DICTIONARY_START + 1]>
                              ∅)))))
           (obj small_core)) host0.

Lemma eval_blank_lowers_RSTK_witness :
  ∃ w',
    forth_eval 2 (bytes "  ") small_interpreter = Ok 0 w' ∧
    o_top (obj w') = o_top (obj small_interpreter) ∧
    o_out (obj w') = o_out (obj small_interpreter) ∧
    cell_at (o_m (obj w')) RSTK
    = cell_at (o_m (obj small_interpreter)) RSTK - 1 ∧
    ∀ i, i ≠ RSTK →
         cell_at (o_m (obj w')) i = cell_at (o_m (obj small_interpreter)) i.
Proof.
  refine (eval_blank_lowers_RSTK 0 (bytes "  ") small_interpreter _ _).
  - apply interpretingb_spec. vm_compute. reflexivity.
  - repeat constructor.
Defined.

(** The return stack pointer of the small core, and after one and two
    evaluations of the empty string. *)
Example RSTK_drift :
  let w := small_interpreter in
  cell_at (o_m (obj w)) RSTK = 110 ∧
  cell_at (o_m (obj (after_eval "" w))) RSTK = 109 ∧
  cell_at (o_m (obj (after_eval "" (after_eval "" w)))) RSTK = 108.
Proof. vm_compute. done. Qed.

(** ** Choosing the input and the output *)

(** [forth_set_file_output] also clears [stringin]: after a string was set
    as the input, setting the output file makes the next character come
    from the input file again, and the string is not read. *)
Theorem set_file_output_resets_input s out w :
  (forth_set_string_input s ;;; forth_set_file_output out ;;; forth_get_char)
    w
  = (forth_set_string_input s ;;; forth_set_file_output out ;;; fgetc) w ∧
  value_of
    ((forth_set_string_input s ;;; forth_set_file_output out ;;;
      forth_get_char) w)
  = Some (match o_in (obj w) with [] => EOF | c :: _ => c end).
Proof.
  unfold forth_set_string_input, forth_set_file_output.
  rewrite !bind_modify_obj. split.
  - by apply forth_get_char_file.
  - rewrite forth_get_char_file by done. unfold fgetc.
    rewrite bind_get_obj. osimpl. by destruct (o_in (obj w)).
Qed.

Example set_file_output_then_read :
  let w := World (set_in (bytes "x") (obj small_core)) host0 in
  value_of
    ((forth_set_string_input (bytes "abc") ;;;
      forth_set_file_output [] ;;; forth_get_char) w)
  = Some 120.
Proof. vm_compute. done. Qed.

(** ** Initialisation: [forth_init] *)

Lemma preserves_Ok {A} (c : M A) w a w' :
  preserves c → c w = Ok a w' → same_frame (obj w) (obj w').
Proof. intros P E. specialize (P w). by rewrite E in P. Qed.

Lemma preserves_compile_names l : ∀ x, preserves (compile_names l x).
Proof. induction l; intros x; simpl; pres. Qed.

Lemma preserves_forth_set_string_input s :
  preserves (forth_set_string_input s).
Proof. unfold forth_set_string_input. pres. Qed.

(** A run that does not return -1 leaves the frame of the object. *)
Lemma forth_run_frame n w r w' :
  forth_run n w = Ok r w' → r ≠ -1 → same_frame (obj w) (obj w').
Proof.
  intros H Hr. destruct (o_invalid (obj w)) eqn:Hinv.
  - rewrite forth_run_invalid in H by done. by injection H as <- _.
  - rewrite forth_run_valid in H by done.
    pose proof (preserves_interpret n false
                  (Locals 0 (o_S (obj w)) (o_I (obj w)) (o_top (obj w))) w)
      as P.
    destruct (interpret _ _ _ _) as [v w1|w1| | |]; try done.
    + injection H as _ <-. destruct P as (? & ? & ? & ? & ? & ?).
      by repeat split.
    + by injection H as <- _.
Qed.

(** Inverts a store in a hypothesis [(store i x ;;; k) w = Ok a w']. *)
Ltac inv_store H :=
  let E := fresh "E" in
  apply bind_Ok in H; destruct H as ([] & ? & E & H);
  apply store_Ok in E; destruct E as [_ ->].

Ltac osimpl_in H :=
  cbn [obj env o_m o_core_size o_stack_size o_s o_sin o_sidx o_slen
       o_stringin o_invalid o_S o_I o_top o_in o_out
       set_m set_sin set_sidx set_slen set_stringin set_top set_in set_out
       set_invalid set_S set_I wstore] in H.

(** Inverts [(append_unchecked x ;;; k) w = Ok a w'], and computes the
    dictionary pointer that was read. *)
Ltac inv_append H :=
  let E := fresh "E" in let d := fresh "d" in let Hd := fresh "Hd" in
  unfold append_unchecked at 1 in H; rewrite bind_bind in H;
  apply bind_Ok in H; destruct H as (d & ? & E & H);
  apply load_Ok in E; destruct E as (-> & Hd & _);
  osimpl_in Hd; rewrite ?cell_at_insert in Hd;
  repeat first [rewrite decide_True in Hd by lia
               |rewrite decide_False in Hd by lia];
  repeat rewrite cell_small in Hd by lia;
  subst d;
  rewrite bind_bind in H; inv_store H; inv_store H.

Lemma modify_obj_Ok g w a w' :
  modify_obj g w = Ok a w' → w' = World (g (obj w)) (env w).
Proof. unfold modify_obj. by intros [= <-]. Qed.

Section InitProperties.

Variable MINIMUM_CORE_SIZE : Z.

(** [forth_init] refuses a size below [MINIMUM_CORE_SIZE]; the core it
    returns has the size asked for, a stack size of a 64th of it, the stack
    pointer two stack sizes below the end of the image, the instruction
    pointer at the loop of [READ] two cells into the dictionary, the string
    storage at [STRING_OFFSET], is valid, and reads from the file [in]. *)
Theorem forth_init_fields n size input output h :
  (size < MINIMUM_CORE_SIZE →
   forth_init MINIMUM_CORE_SIZE n size input output h
   = Ok false (World blank h)) ∧
  (∀ w', forth_init MINIMUM_CORE_SIZE n size input output h = Ok true w' →
     MINIMUM_CORE_SIZE ≤ size ∧
     o_core_size (obj w') = size ∧
     o_stack_size (obj w') = size / 64 ∧
     o_S (obj w') = size - 2 * (size / 64) ∧
     o_I (obj w') = DICTIONARY_START + 2 ∧
     o_s (obj w') = cell_bytes * STRING_OFFSET ∧
     o_invalid (obj w') = false ∧
     o_stringin (obj w') = false ∧
     o_in (obj w') = input).
Proof.
  unfold forth_init. split.
  - intros H. by destruct (Z.ltb_spec size MINIMUM_CORE_SIZE); [|lia].
  - intros w'. generalize initial_forth_program, names. intros prog nm H.
    destruct (Z.ltb_spec size MINIMUM_CORE_SIZE); [done|].
    split; [done|].
    remember (World (Forth [] output (cell_bytes * STRING_OFFSET) [] size
                       (size / 64) 0 0 false false 0 0 0 ∅) h)
      as w0 eqn:Hw0 in H.
    assert (o_core_size (obj w0) = size ∧ o_stack_size (obj w0) = size / 64 ∧
            o_s (obj w0) = cell_bytes * STRING_OFFSET ∧
            o_invalid (obj w0) = false) as (Hc0 & Hst0 & Hs0 & Hinv0)
      by (by rewrite Hw0).
    clear Hw0.
    unfold DIC, PWD, INFO, DICTIONARY_START, STRING_OFFSET,
      MAX_WORD_LENGTH in *.
    do 4 inv_store H. do 2 inv_append H.
    apply bind_Ok in H as (i & ? & E & H).
    apply load_Ok in E as (-> & Hi & _).
    osimpl_in Hi. rewrite ?cell_at_insert in Hi.
    repeat first [rewrite decide_True in Hi by lia
                 |rewrite decide_False in Hi by lia].
    repeat rewrite cell_small in Hi by lia. subst i.
    apply bind_Ok in H as ([] & w1 & E & H).
    apply modify_obj_Ok in E. subst w1.
    inv_append H. inv_append H.
    apply bind_Ok in H as (? & w2 & E2 & H).
    apply (preserves_Ok _ _ _ _ (preserves_compile _ _)) in E2.
    apply bind_Ok in H as (? & w3 & E3 & H).
    apply (preserves_Ok _ _ _ _ (preserves_compile _ _)) in E3.
    apply bind_Ok in H as (? & w4 & E4 & H).
    apply (preserves_Ok _ _ _ _ (preserves_compile _ _)) in E4.
    apply bind_Ok in H as (? & w5 & E5 & H).
    apply (preserves_Ok _ _ _ _ (preserves_compile_names _ _)) in E5.
    apply bind_Ok in H as ([] & w6 & E6 & H).
    pose proof (preserves_Ok _ _ _ _ (preserves_store _ _) E6) as F6.
    apply bind_Ok in H as ([] & w7 & E7 & H). injection E7 as <-.
    apply bind_Ok in H as (r & w8 & E8 & H).
    unfold forth_eval in E8.
    apply bind_Ok in E8 as ([] & w9 & E9 & E8).
    unfold forth_set_string_input, modify_obj in E9. injection E9 as <-.
    destruct (Z.ltb_spec r 0); [by injection H|].
    apply forth_run_frame in E8; [|lia].
    apply bind_Ok in H as ([] & w10 & E10 & H). injection H as <-.
    unfold forth_set_file_input, modify_obj in E10. injection E10 as <-.
    cbn [obj o_core_size o_stack_size o_S o_I o_s o_invalid o_stringin o_in
         set_in set_stringin].
    destruct E8 as (HS & HI & Hc & Hst & Hs & Hinv).
    cbn [obj o_core_size o_stack_size o_S o_I o_s o_invalid set_sin
         set_stringin set_slen set_sidx set_S] in *.
    destruct F6 as (_ & FI6 & Fc6 & Fst6 & Fs6 & Finv6).
    destruct E5 as (_ & FI5 & Fc5 & Fst5 & Fs5 & Finv5).
    destruct E4 as (_ & FI4 & Fc4 & Fst4 & Fs4 & Finv4).
    destruct E3 as (_ & FI3 & Fc3 & Fst3 & Fs3 & Finv3).
    destruct E2 as (_ & FI2 & Fc2 & Fst2 & Fs2 & Finv2).
    rewrite Hc, Hst, HS, HI, Hs, Hinv.
    rewrite Fc6, Fst6, FI6, Fs6, Finv6, Fc5, Fst5, FI5, Fs5, Finv5.
    rewrite Fc4, Fst4, FI4, Fs4, Finv4, Fc3, Fst3, FI3, Fs3, Finv3.
    rewrite Fc2, Fst2, FI2, Fs2, Finv2.
    osimpl. repeat split; (reflexivity || done).
Qed.

End InitProperties.

(** The core of [main_forth]: [forth_init(CORE_SIZE, stdin, stdout)]. *)
Lemma forth_init_fields_witness :
  let r := forth_init CORE_SIZE 100000 CORE_SIZE [] [] host0 in
  let w' := world_of r (World blank host0) in
  CORE_SIZE ≤ CORE_SIZE ∧
  o_core_size (obj w') = CORE_SIZE ∧
  o_stack_size (obj w') = CORE_SIZE / 64 ∧
  o_S (obj w') = CORE_SIZE - 2 * (CORE_SIZE / 64) ∧
  o_I (obj w') = DICTIONARY_START + 2 ∧
  o_s (obj w') = cell_bytes * STRING_OFFSET ∧
  o_invalid (obj w') = false ∧
  o_stringin (obj w') = false ∧
  o_in (obj w') = [].
Proof.
  intros r w'.
  refine (proj2 (forth_init_fields CORE_SIZE 100000 CORE_SIZE [] [] host0)
            w' _).
  apply Ok_world_of. vm_compute. reflexivity.
Defined.

(** ** What writes to the output *)

(** A computation that leaves the output stream as it is. *)
Definition silent {A} (c : M A) : Prop :=
  ∀ w, match c w with
       | Ok _ w' | Jump w' => o_out (obj w') = o_out (obj w)
       | _ => True
       end.

Create HintDb silent.

Lemma silent_ret {A} (a : A) : silent (ret a).
Proof. by intros w. Qed.
Lemma silent_bind {A B} (c : M A) (k : A → M B) :
  silent c → (∀ a, silent (k a)) → silent (bind c k).
Proof.
  intros Hc Hk w. unfold bind. specialize (Hc w).
  destruct (c w) as [a w1| | | |]; auto.
  specialize (Hk a w1). destruct (k a w1); congruence.
Qed.
Lemma silent_longjmp {A} : silent (@longjmp A).
Proof. by intros w. Qed.
Lemma silent_undefined {A} u : silent (@undefined A u).
Proof. by intros w. Qed.
Lemma silent_abort {A} : silent (@abort A).
Proof. by intros w. Qed.
Lemma silent_timeout {A} : silent (@timeout A).
Proof. by intros w. Qed.
Lemma silent_get_obj : silent get_obj.
Proof. by intros w. Qed.
Lemma silent_get_env : silent get_env.
Proof. by intros w. Qed.
Lemma silent_modify_env g : silent (modify_env g).
Proof. by intros w. Qed.
Lemma silent_modify_obj g :
  (∀ o, o_out (g o) = o_out o) → silent (modify_obj g).
Proof. intros H w. apply H. Qed.

#[export] Hint Resolve silent_ret silent_longjmp silent_undefined
  silent_abort silent_timeout silent_get_obj silent_get_env
  silent_modify_env : silent.
#[export] Hint Extern 1 (silent (modify_obj _)) =>
  apply silent_modify_obj; intro; reflexivity : silent.

Ltac silent_step :=
  lazymatch goal with
  | |- silent (bind _ _) => apply silent_bind; [|intro]
  | |- silent (if ?c then _ else _) => destruct c
  | |- silent (match ?x with _ => _ end) => destruct x
  | |- silent _ => solve [eauto with silent]
  end.
Ltac silent_tac := repeat silent_step.

Lemma silent_assert c : silent (assert c).
Proof. unfold assert. silent_tac. Qed.
Lemma silent_report d : silent (report d).
Proof. unfold report. silent_tac. Qed.
Lemma silent_load i : silent (load i).
Proof. unfold load. silent_tac. Qed.
Lemma silent_store i x : silent (store i x).
Proof. unfold store. silent_tac. Qed.
#[export] Hint Resolve silent_assert silent_report silent_load silent_store
  : silent.

Lemma silent_load8 k : silent (load8 k).
Proof. unfold load8. silent_tac. Qed.
Lemma silent_store8 k x : silent (store8 k x).
Proof. unfold store8. silent_tac. Qed.
Lemma silent_check_bounds f : silent (check_bounds f).
Proof. unfold check_bounds. silent_tac. Qed.
#[export] Hint Resolve silent_load8 silent_store8 silent_check_bounds
  : silent.

Lemma silent_store_bytes s : ∀ p, silent (store_bytes p s).
Proof. induction s; intros p; simpl; silent_tac. Qed.
Lemma silent_load_bytes n : ∀ p, silent (load_bytes n p).
Proof. induction n; intros p; simpl; silent_tac. Qed.
Lemma silent_load_string_loop n : ∀ p, silent (load_string_loop n p).
Proof. induction n; intros p; simpl; silent_tac. Qed.
Lemma silent_strcmp_loop n : ∀ p q, silent (strcmp_loop n p q).
Proof. induction n; intros p q; simpl; silent_tac. Qed.
#[export] Hint Resolve silent_store_bytes silent_load_bytes
  silent_load_string_loop silent_strcmp_loop : silent.

Lemma silent_store_string p s : silent (store_string p s).
Proof. unfold store_string. silent_tac. Qed.
Lemma silent_load_string p : silent (load_string p).
Proof. unfold load_string. silent_tac. Qed.
Lemma silent_strcmp p q : silent (strcmp p q).
Proof. unfold strcmp. silent_tac. Qed.
Lemma silent_fgetc : silent fgetc.
Proof. unfold fgetc. silent_tac. Qed.
#[export] Hint Resolve silent_store_string silent_load_string silent_strcmp
  silent_fgetc : silent.

Lemma silent_forth_get_char : silent forth_get_char.
Proof. unfold forth_get_char. silent_tac. Qed.
Lemma silent_forth_get_word p : silent (forth_get_word p).
Proof. unfold forth_get_word. silent_tac. Qed.
Lemma silent_append_unchecked x : silent (append_unchecked x).
Proof. unfold append_unchecked. silent_tac. Qed.
#[export] Hint Resolve silent_forth_get_char silent_forth_get_word
  silent_append_unchecked : silent.

Lemma silent_compile code str : silent (compile code str).
Proof. unfold compile. silent_tac. Qed.
Lemma silent_blockio_transfer p id rw : silent (blockio_transfer p id rw).
Proof. unfold blockio_transfer. silent_tac. Qed.
Lemma silent_comment_loop n : silent (comment_loop n).
Proof. induction n; simpl; silent_tac. Qed.
Lemma silent_find_loop n : ∀ w len, silent (find_loop n w len).
Proof. induction n; intros w len; simpl; silent_tac. Qed.
#[export] Hint Resolve silent_compile silent_blockio_transfer
  silent_comment_loop silent_find_loop : silent.

Lemma silent_blockio p id rw : silent (blockio p id rw).
Proof. unfold blockio. silent_tac. Qed.
Lemma silent_comment : silent comment.
Proof. unfold comment. silent_tac. Qed.
Lemma silent_find n : silent (find n).
Proof. unfold find. silent_tac. Qed.
Lemma silent_push v : silent (push v).
Proof. unfold push. silent_tac. Qed.
Lemma silent_pop v : silent (pop v).
Proof. unfold pop. silent_tac. Qed.
Lemma silent_binary op v : silent (binary op v).
Proof. unfold binary. silent_tac. Qed.
Lemma silent_append x : silent (append x).
Proof. unfold append. silent_tac. Qed.
Lemma silent_rpush x : silent (rpush x).
Proof. unfold rpush. silent_tac. Qed.
Lemma silent_rpop : silent rpop.
Proof. unfold rpop. silent_tac. Qed.
#[export] Hint Resolve silent_blockio silent_comment silent_find silent_push
  silent_pop silent_binary silent_append silent_rpush silent_rpop : silent.

Lemma silent_read_word n : silent (read_word n).
Proof. unfold read_word. silent_tac. Qed.
#[export] Hint Resolve silent_read_word : silent.

(** The instructions that write to the output. *)
Definition prints (i : instructions) : bool :=
  match i with
  | EMIT | PNUM | PRINT | PSTK => true
  | _ => false
  end.

Lemma silent_execute n i v : prints i = false → silent (execute n i v).
Proof. destruct i; try discriminate; intros _; simpl; silent_tac. Qed.

(** Only [emit], [.], [print] and [.s] write to the output: every other
    instruction, whether it completes or aborts the run, leaves the output
    stream as it was. *)
Theorem only_four_instructions_print n i v w :
  prints i = false →
  (∀ c w', execute n i v w = Ok c w' → o_out (obj w') = o_out (obj w)) ∧
  (∀ w', execute n i v w = Jump w' → o_out (obj w') = o_out (obj w)).
Proof.
  intros Hi. pose proof (silent_execute n i v Hi w) as H.
  split; [intros c w' E|intros w' E]; by rewrite E in H.
Qed.

Lemma only_four_instructions_print_witness :
  let v := Locals 0 100 0 7 in
  let w := small_stacks in
  (∀ c w', execute 0 DUP v w = Ok c w' → o_out (obj w') = o_out (obj w)) ∧
  (∀ w', execute 0 DUP v w = Jump w' → o_out (obj w') = o_out (obj w)).
Proof.
  intros v w. apply (only_four_instructions_print 0 DUP v w). reflexivity.
Defined.

(** The four do write: [emit] appends the low byte of [f]. *)
Example EMIT_prints :
  let v := Locals 0 100 0 65 in
  o_out (obj (world_of (execute 0 EMIT v small_stacks) small_stacks)) = [65].
Proof. vm_compute. done. Qed.

(** ** Numbers printed and read *)

(** The word [s] is read as the number [n]: [READ] takes it for a number and
    [strtol] gives it the value [n] as a cell. *)
Definition reads_back (s : list Z) (n : Z) : bool :=
  is_number s && (cell (strtol s) =? n).

Lemma hex_output_checked :
  all_from (Z.to_nat 65536) 0
    (λ n, Bool.eqb (reads_back (fmt_X n) n) (n <? 10))
  = true.
Proof. vm_compute. reflexivity. Qed.

(** What [.] prints for a cell in decimal mode, [%u], is read back as the
    same cell.  In hexadecimal mode it prints [%X], without the prefix [0x]
    that [is_number] and [strtol] need, and only the values below 10 are
    read back as themselves. *)
Theorem number_output_reads_back n :
  0 ≤ n < 65536 →
  reads_back (fmt_u n) n = true ∧
  reads_back (fmt_X n) n = (n <? 10).
Proof.
  intros Hn. split.
  - destruct (literal_ok_facts n (dec_literal n)
                (literal_ok_of n _ Hn (or_introl eq_refl)))
      as (H1 & H2 & _).
    unfold reads_back. fold (dec_literal n). rewrite H1, H2.
    by rewrite Z.eqb_refl.
  - pose proof (all_from_spec _ _ _ hex_output_checked n ltac:(lia)) as H.
    cbv beta in H. by apply eqb_prop in H.
Qed.

Lemma number_output_reads_back_witness :
  reads_back (fmt_u 255) 255 = true ∧
  reads_back (fmt_X 255) 255 = (255 <? 10).
Proof. apply (number_output_reads_back 255). lia. Defined.

Example hex_output_of_16 :
  fmt_X 16 = bytes "10" ∧ is_number (fmt_X 16) = true ∧
  strtol (fmt_X 16) = 10 ∧ is_number (fmt_X 255) = false.
Proof. vm_compute. done. Qed.

(** ** The end of the threaded code *)

Lemma set_top_id o : set_top (o_top o) o = o.
Proof. by destruct o. Qed.

(** A zero cell ends the run: when the cell at the instruction pointer is 0,
    [forth_run] leaves the loop at once and returns 0 with the object and
    the environment as they were; since [I] is not written back, so does
    every later run. *)
Theorem zero_cell_ends_run n w :
  o_invalid (obj w) = false →
  0 ≤ o_I (obj w) < o_core_size (obj w) →
  cell_at (o_m (obj w)) (o_I (obj w)) = 0 →
  forth_run (S n) w = Ok 0 w.
Proof.
  intros Hinv HI H0. rewrite forth_run_valid by done. cbn [interpret].
  cbn [l_I]. do 2 ostep. rewrite H0. cbn [Z.eqb].
  unfold ret. cbn [l_f with_pc with_I]. rewrite set_top_id.
  by destruct w.
Qed.

Lemma zero_cell_ends_run_witness :
  forth_run 1 small_core = Ok 0 small_core.
Proof.
  apply (zero_cell_ends_run 0 small_core); vm_compute;
    (done || (split; done) || discriminate).
Defined.

(** ** Number literals in compile mode *)

(** [case READ] on a number literal that names no word, in compile mode: the
    cell 2, which holds [PUSH], and the value of the literal are appended to
    the dictionary. *)
Lemma READ_number_compiles k v w lit n :
  literal_ok n lit = true →
  o_stringin (obj w) = true → o_sidx (obj w) = 0 → o_sin (obj w) = lit →
  o_s (obj w) = cell_bytes * STRING_OFFSET →
  cell_at (o_m (obj w)) STATE ≠ 0 →
  let d := cell_at (o_m (obj w)) DIC in
  DICTIONARY_START ≤ d → d + 2 < o_core_size (obj w) →
  o_core_size (obj w) ≤ 65536 →
  value_of (read_word k w) = Some (Some 0) →
  execute k READ v w =
  Ok (Break v)
     (World
        (set_sidx (Z.of_nat (length lit))
           (set_m
              (<[d + 1 := n]>
                 (<[DIC := d + 2]>
                    (<[d := 2]>
                       (<[DIC := d + 1]>
                          (mem_store_bytes
                             (<[RSTK := cell (cell_at (o_m (obj w)) RSTK - 1)]>
                                (o_m (obj w)))
                             (cell_bytes * STRING_OFFSET) (lit ++ [0]))))))
              (obj w)))
        (env w)).
Proof.
  intros Hlit Hin Hidx Hsin Hs Hstate d Hd Hroom Hsize Hfind.
  destruct (literal_ok_facts n lit Hlit) as (Hnum & Hval & Hscan & Hlen & Hb).
  unfold DICTIONARY_START, STRING_OFFSET, MAX_WORD_LENGTH in Hd.
  pose (m1 := <[RSTK := cell (cell_at (o_m (obj w)) RSTK - 1)]> (o_m (obj w))).
  pose (m2 := mem_store_bytes m1 (cell_bytes * STRING_OFFSET) (lit ++ [0])).
  pose (w2 := World (set_sidx (Z.of_nat (length lit)) (set_m m2 (obj w)))
                (env w)).
  assert (read_word k w = Ok (Some 0) w2) as Hrw.
  { revert Hfind. unfold read_word. repeat xstep. rewrite Hs.
    match goal with
    | |- context [bind (forth_get_word ?p) ?K ?W] =>
        rewrite (bind_eq _ K W _ _
          (forth_get_word_string p W lit [] (Z.of_nat (length lit))
             ltac:(done) ltac:(wsimpl; lia)
             ltac:(wsimpl; rewrite Hidx, Hsin; exact Hscan)
             ltac:(unfold cell_bytes, STRING_OFFSET; lia)
             ltac:(unfold cell_bytes, STRING_OFFSET in *; wsimpl; lia)))
    end.
    wsimpl. rewrite Hidx, Z.add_0_l.
    destruct (Z.ltb_spec (Z.of_nat (length lit)) 0); [lia|].
    match goal with
    | |- context [bind (find k) _ ?W] => change W with w2
    end.
    unfold bind.
    destruct (find k w2) as [x w2'| | | |] eqn:E; try discriminate.
    apply pure_find in E as ->. by intros [= ->]. }
  cbn [execute]. rewrite (bind_eq _ _ w _ _ Hrw).
  change (0 >? 1) with false. cbv iota.
  destruct (stored_string m1 (cell_bytes * STRING_OFFSET) lit Hb)
    as [Hbytes Hnul].
  rewrite bind_get_obj. unfold load_string. rewrite bind_bind, bind_get_obj.
  assert (o_s (obj w2) = cell_bytes * STRING_OFFSET) as -> by exact Hs.
  rewrite (bind_eq _ _ w2 _ _
    (load_string_loop_ok lit (bytes_from (obj w2) (cell_bytes * STRING_OFFSET))
       (cell_bytes * STRING_OFFSET) w2
       ltac:(eapply Forall_impl; [exact Hb|]; cbv beta; lia)
       Hbytes Hnul
       ltac:(unfold cell_bytes, STRING_OFFSET; lia)
       ltac:(unfold cell_bytes, STRING_OFFSET in *; subst w2; wsimpl; lia)
       ltac:(unfold bytes_from, cell_bytes, STRING_OFFSET in *;
             subst w2; wsimpl; lia))).
  rewrite Hnum. cbn [negb].
  assert (∀ i, i < 32 ∨ 47 < i → i ≠ RSTK →
               cell_at (o_m (obj w2)) i = cell_at (o_m (obj w)) i) as Hm2.
  { intros i Hi Hi1. subst w2 m2 m1. wsimpl.
    rewrite cell_at_store_bytes_other
      by (first [by apply word_cells; [|unfold STRING_OFFSET; lia]
                | unfold cell_bytes, STRING_OFFSET; lia]).
    by rewrite cell_at_insert, decide_False. }
  rewrite (bind_eq _ _ w2 _ _
    (load_ok STATE w2 ltac:(apply in_image_iff; unfold STATE;
                            subst w2; wsimpl; lia))).
  rewrite (Hm2 STATE) by (unfold STATE, RSTK; (lia || done)).
  destruct (Z.eqb_spec (cell_at (o_m (obj w)) STATE) 0); [done|].
  cbn [negb]. unfold append_unchecked, append.
  assert (cell_at (o_m (obj w2)) 0 = d) as Hd2
    by (apply Hm2; unfold RSTK; (lia || done)).
  assert (o_core_size (obj w2) = o_core_size (obj w)) as Hsz2 by done.
  assert (w2 = World (set_sidx (Z.of_nat (length lit)) (set_m m2 (obj w)))
                 (env w)) as Hw2 by done.
  clearbody w2. unfold DIC in *.
  repeat (ostep; rewrite ?Hd2; rewrite ?cell_at_insert;
          repeat first [rewrite decide_True by lia
                       |rewrite decide_False by lia];
          repeat rewrite cell_small by lia).
  rewrite Hval. unfold ret. do 2 f_equal.
  subst w2 m2 m1. unfold wstore. osimpl.
  by replace (d + 1 + 1) with (d + 2) by lia.
Qed.

(** A number literal in compile mode.  When [case READ] reads a literal of
    the cell value [n] that names no word while [m[STATE]] is not 0, it
    appends the cell 2 and then [n] to the dictionary and leaves the stack
    alone; cell 2 of the image holds [PUSH], so when the instruction pointer
    later reaches the pair, one turn of the interpreter's loop pushes the old
    top of the stack, leaves [n] as the new top and steps over both cells. *)
Theorem compiled_literal_pushes k j v v' w lit n :
  literal_ok n lit = true →
  o_stringin (obj w) = true → o_sidx (obj w) = 0 → o_sin (obj w) = lit →
  o_s (obj w) = cell_bytes * STRING_OFFSET →
  cell_at (o_m (obj w)) STATE ≠ 0 →
  instruction_of (b (cell_at (o_m (obj w)) 2)) = Some PUSH →
  let d := cell_at (o_m (obj w)) DIC in
  DICTIONARY_START ≤ d → d + 2 < o_core_size (obj w) →
  o_core_size (obj w) ≤ 65536 →
  value_of (read_word k w) = Some (Some 0) →
  l_I v' = d → d + 1 < l_S v' → l_S v' + 1 < o_core_size (obj w) →
  ∃ w',
    execute k READ v w = Ok (Break v) w' ∧
    cell_at (o_m (obj w')) DIC = d + 2 ∧
    cell_at (o_m (obj w')) d = 2 ∧
    cell_at (o_m (obj w')) (d + 1) = n ∧
    interpret (S (S j)) false v' w' =
    interpret j false (Locals 3 (l_S v' + 1) (d + 2) n)
      (wstore (l_S v' + 1) (l_f v') w').
Proof.
  intros Hlit Hin Hidx Hsin Hs Hstate Hpush d Hd Hroom Hsize Hfind HI HS HS'.
  eexists. split.
  { by apply (READ_number_compiles k v w lit n). }
  destruct (literal_ok_facts n lit Hlit) as (_ & _ & _ & Hlen & Hb).
  unfold DICTIONARY_START, STRING_OFFSET, MAX_WORD_LENGTH in Hd.
  set (m2 := mem_store_bytes _ _ _).
  assert (cell_at m2 2 = cell_at (o_m (obj w)) 2) as H2.
  { subst m2.
    rewrite cell_at_store_bytes_other
      by (first [by apply word_cells; [|unfold STRING_OFFSET; lia]
                | unfold cell_bytes, STRING_OFFSET; lia]).
    by rewrite cell_at_insert, decide_False. }
  clearbody m2. unfold DIC in *. osimpl.
  rewrite !cell_at_insert.
  repeat first [rewrite decide_True by lia | rewrite decide_False by lia].
  repeat split.
  match goal with
  | |- interpret _ _ _ ?W = _ => set (w3 := W)
  end.
  rewrite (interpret_fetch _ v' w3 2)
    by (subst w3; osimpl; rewrite ?cell_at_insert;
        repeat first [rewrite decide_True by lia
                     |rewrite decide_False by lia]; (done || lia)).
  rewrite interpret_inner.
  rewrite (inner_execute _ _ w3 (cell_at (o_m (obj w)) 2) PUSH)
    by (subst w3; osimpl; rewrite ?cell_at_insert;
        repeat first [rewrite decide_True by lia
                     |rewrite decide_False by lia]; (done || lia)).
  cbn [execute]. unfold push, with_pc, with_I. cbn [l_pc l_S l_I l_f].
  rewrite HI. repeat rewrite cell_small by lia.
  assert (o_core_size (obj w3) = o_core_size (obj w)) as Hsz3 by done.
  assert (cell_at (o_m (obj w3)) (d + 1) = n) as Hn3.
  { subst w3. osimpl. by rewrite cell_at_insert, decide_True. }
  clearbody w3.
  repeat (ostep; rewrite ?cell_at_insert;
          repeat first [rewrite decide_True by lia
                       |rewrite decide_False by lia];
          repeat rewrite cell_small by lia).
  unfold ret, with_f. cbn [l_pc l_S l_I l_f]. rewrite Hn3.
  by replace (d + 1 + 1) with (d + 2) by lia.
Qed.

(** A small core in compile mode, with the literal 5 as its input. *)
Definition small_compiling : world :=
  World (set_slen 2 (set_stringin true (set_sin [53]
           (set_m (<[STATE := 1]> (<[DIC := 70]> (<[RSTK := 110]> ∅)))
              (obj small_core))))) host0.

Lemma compiled_literal_pushes_witness :
  ∃ w',
    execute 10 READ (Locals 65 100 67 7) small_compiling
    = Ok (Break (Locals 65 100 67 7)) w' ∧
    cell_at (o_m (obj w')) DIC = 72 ∧
    cell_at (o_m (obj w')) 70 = 2 ∧
    cell_at (o_m (obj w')) 71 = 5 ∧
    interpret 3 false (Locals 0 100 70 7) w' =
    interpret 1 false (Locals 3 101 72 5) (wstore 101 7 w').
Proof.
  apply (compiled_literal_pushes 10 1 (Locals 65 100 67 7)
           (Locals 0 100 70 7) small_compiling [53] 5);
    vm_compute; (done || discriminate).
Defined.

(** ** Store and fetch, key and emit *)



(** [key emit] copies one byte from a file input to the output and leaves
    the stack as it was; at the end of the input [key] yields the cell -1
    and [emit] writes the byte 255. *)
Theorem KEY_then_EMIT k v w :
  o_stringin (obj w) = false →
  0 ≤ l_S v → l_S v + 1 < o_core_size (obj w) →
  let c := match o_in (obj w) with [] => 255 | c :: _ => c end in
  Forall (λ c, 0 ≤ c < 256) (o_in (obj w)) →
  ∃ v1 w1 w2,
    execute k KEY v w = Ok (Break v1) w1 ∧
    execute k EMIT v1 w1 = Ok (Break v) w2 ∧
    o_out (obj w2) = o_out (obj w) ++ [c] ∧
    o_in (obj w2) = tail (o_in (obj w)).
Proof.
  intros Hin HS HS' c Hb. destruct v as [pc sp i f]. cbn [l_S] in *.
  assert (∀ (x : Z → M control) w', o_stringin (obj w') = false →
            bind forth_get_char x w' = bind fgetc x w') as Hget.
  { intros x w' H. unfold bind. by rewrite forth_get_char_file. }
  cbn [execute]. unfold push, pop, fputc, with_S, with_f.
  cbn [l_pc l_S l_I l_f].
  destruct (o_in (obj w)) as [|c0 r] eqn:E; subst c.
  - do 3 eexists. split.
    { repeat (ostep; onorm). rewrite Hget by (osimpl; done).
      unfold fgetc. repeat (ostep; onorm). rewrite E. cbv iota.
      repeat (ostep; onorm). reflexivity. }
    cbn [l_pc l_S l_I l_f]. split.
    { repeat (ostep; onorm). unfold ret.
      by replace (sp + 1 - 1) with sp by lia. }
    osimpl. by rewrite E.
  - apply Forall_cons in Hb as [Hc _].
    do 3 eexists. split.
    { repeat (ostep; onorm). rewrite Hget by (osimpl; done).
      unfold fgetc. repeat (ostep; onorm). rewrite E. cbv iota.
      repeat (ostep; onorm). reflexivity. }
    cbn [l_pc l_S l_I l_f]. split.
    { repeat (ostep; onorm). unfold ret.
      by replace (sp + 1 - 1) with sp by lia. }
    osimpl. rewrite cell_small by lia.
    by rewrite Z.mod_small by lia.
Qed.

(** A small core that reads the bytes of [hi] from a file. *)
Definition small_reader : world :=
  World (set_in [104; 105] (obj small_core)) host0.

Lemma KEY_then_EMIT_witness :
  ∃ v1 w1 w2,
    execute 0 KEY (Locals 0 98 0 7) small_reader = Ok (Break v1) w1 ∧
    execute 0 EMIT v1 w1 = Ok (Break (Locals 0 98 0 7)) w2 ∧
    o_out (obj w2) = [104] ∧
    o_in (obj w2) = [105].
Proof.
  apply (KEY_then_EMIT 0 (Locals 0 98 0 7) small_reader);
    vm_compute; first [done | discriminate | repeat constructor; discriminate].
Defined.
